(** * A shallow embedding of cache_simulator.cpp

    The simulator keeps, per cache set, a [std::list<CacheBlock>] ordered from
    most to least recently used and an [unordered_map] from tags to list
    iterators.  List iterators are node identities: they survive every
    insertion and every removal of another node.  The embedding therefore
    names list nodes ([node]) and stores each block next to the name of the
    node that holds it.

    The source reads list nodes after it has released them: [moveToMRU]
    copies [*block] once [blocks.erase] has freed the node, and
    [writeToCache] reads [evicted->dirty] once [pop_back] has.  What such a
    read returns, and whether the next allocation hands the released node out
    again, is decided by the allocator and not by the source; both are
    parameters of the embedding ([Env]).

    Undefined behaviour of the source about which the embedding says nothing
    further (division by zero, [back()] on an empty list, erasing through a
    map entry that [operator[]] has just created or that designates no live
    node, calling [moveToMRU] with a pointer to a node that an earlier call
    released and that was not handed out again, indexing a vector out of
    range, overflow of an [int] product) is the result [None].  The five [int] counters are unbounded integers
    here: a trace long enough to overflow one is outside the model. *)

From stdpp Require Import gmap list.
From Stdlib Require Import ZArith Ascii.

Local Open Scope Z_scope.

(** ** Machine integers *)

Definition INT_MAX : Z := 2147483647.
Definition INT_MIN : Z := -2147483648.
Definition ULONG_MOD : Z := 2 ^ 64.

(** Conversion of an [int] operand to [unsigned long], as the usual
    arithmetic conversions do when the other operand is [unsigned long]. *)
Definition to_ulong (x : Z) : Z := x mod ULONG_MOD.

(** An [int] product; signed overflow is undefined. *)
Definition int_mul (x y : Z) : option Z :=
  if decide (INT_MIN <= x * y <= INT_MAX) then Some (x * y) else None.

(** Unsigned division and remainder; a zero divisor traps. *)
Definition udiv (x y : Z) : option Z :=
  if decide (y = 0) then None else Some (x / y).
Definition umod (x y : Z) : option Z :=
  if decide (y = 0) then None else Some (x mod y).

(** ** CacheBlock *)

Record CacheBlock := mkBlock { tag : Z; valid : bool; dirty : bool }.

(** The default constructor: [tag(0), valid(false), dirty(false)]. *)
Definition emptyBlock : CacheBlock :=
  {| tag := 0; valid := false; dirty := false |}.

#[global] Instance CacheBlock_eq_dec : EqDecision CacheBlock.
Proof. solve_decision. Defined.

(** ** Released memory

    [freed b] is what the memory of a released list node reads as when the
    node held the block [b]; [reuse] tells whether the allocation that
    follows a release receives the released node. *)
Record Env := mkEnv {
  freed : CacheBlock → CacheBlock;
  reuse : bool
}.

(** A released node keeps its contents and is the next one handed out. *)
Definition retains : Env := {| freed := λ b, b; reuse := true |}.

(** A released node reads as [g] whatever it held, and is the next one
    handed out. *)
Definition scrambles (g : CacheBlock) : Env :=
  {| freed := λ _, g; reuse := true |}.

(** ** The linked list of a set *)

Definition node := nat.

Abbreviation nodes := (list (node * CacheBlock)).

(** The address handed out for a new list node: one that no live node has.
    Whether it is that of a node released earlier is the allocator's choice;
    it shows only where the source goes on using a released node, which is
    in [moveToMRU], and there the choice is taken from [Env]. *)
Definition freshNode (l : nodes) : node := S (max_list (l.*1)).

(** [*p] for a node pointer or iterator [p]. *)
Fixpoint deref (l : nodes) (p : node) : option CacheBlock :=
  match l with
  | [] => None
  | (q, b) :: l' => if decide (p = q) then Some b else deref l' p
  end.

(** [blocks.erase(p)]: unlink the node [p]. *)
Fixpoint erase (p : node) (l : nodes) : nodes :=
  match l with
  | [] => []
  | (q, b) :: l' => if decide (p = q) then l' else (q, b) :: erase p l'
  end.

(** [p->dirty = true]. *)
Fixpoint storeDirty (p : node) (l : nodes) : nodes :=
  match l with
  | [] => []
  | (q, b) :: l' =>
      if decide (p = q)
      then (q, {| tag := tag b; valid := valid b; dirty := true |}) :: l'
      else (q, b) :: storeDirty p l'
  end.

(** [blocks.emplace_back()] repeated [n] times. *)
Fixpoint emplace_back_n (n : nat) (l : nodes) : nodes :=
  match n with
  | O => l
  | S k => emplace_back_n k (l ++ [(freshNode l, emptyBlock)])
  end.

(** ** CacheSet *)

Record CacheSet := mkSet {
  blocks : nodes;
  blockMap : gmap Z node
}.

Module CacheSet.

(** [CacheSet(int assoc)]: [assoc] default-constructed blocks, empty map.
    A non-positive [assoc] runs the loop zero times. *)
Definition new (assoc : Z) : CacheSet :=
  {| blocks := emplace_back_n (Z.to_nat assoc) []; blockMap := ∅ |}.

Definition findBlock (s : CacheSet) (t : Z) : option node :=
  blockMap s !! t.

(** [moveToMRU(block)], statement by statement.

    [blocks.erase(blockMap[block->tag])]: [block->tag] is read while the node
    is live; the node erased is the one the map gives for that tag.  When the
    tag has no entry, [operator[]] creates one holding a singular iterator,
    and erasing through it is undefined.

    [push_front] of [*block]: when [block] is the node just erased, [*block]
    is read from released memory and the copy is [freed env b]; otherwise
    [block] is still live and the copy is its block.  The new node is the
    released one when the allocator reuses it, a fresh one otherwise.

    [blockMap[block->tag] = blocks.begin()]: [block->tag] is read again: from
    [block] itself when it is still live, from the new node when that one
    took the place of the released [block], from the same released memory
    otherwise; in each case it is the tag of the copy.  Every other map
    entry stays, the one for the tag read before the erase included. *)
Definition moveToMRU (env : Env) (s : CacheSet) (block : node)
  : option CacheSet :=
  b ← deref (blocks s) block;
  it ← blockMap s !! tag b;
  _ ← deref (blocks s) it;
  let copy := if decide (block = it) then freed env b else b in
  let front := if reuse env then it else freshNode (blocks s) in
  Some {| blocks := (front, copy) :: erase it (blocks s);
          blockMap := <[tag copy := front]> (blockMap s) |}.

(** [evictLRU()].  The block returned is the one the popped node held when
    [back()] was taken; the source returns a pointer to that node, which
    [pop_back] has released by then, so a caller that reads through the
    pointer sees [freed env] of this block.  [back()] on an empty list is
    undefined. *)
Definition evictLRU (s : CacheSet) : option (CacheBlock * CacheSet) :=
  match last (blocks s) with
  | None => None
  | Some (_, lruBlock) =>
      Some (lruBlock,
            {| blocks := removelast (blocks s);
               blockMap := delete (tag lruBlock) (blockMap s) |})
  end.

Definition insertBlock (s : CacheSet) (block : CacheBlock) : CacheSet :=
  let p := freshNode (blocks s) in
  {| blocks := (p, block) :: blocks s;
     blockMap := <[tag block := p]> (blockMap s) |}.

Definition isFull (s : CacheSet) : bool :=
  bool_decide (size (blockMap s) = length (blocks s)).

(** The blocks of the list that are resident (valid), most recent first. *)
Definition resident (s : CacheSet) : list CacheBlock :=
  filter (λ b, valid b = true) ((blocks s).*2).

End CacheSet.

(** ** Cache *)

Record Cache := mkCache {
  cacheSize : Z;            (* the member [size] *)
  assoc : Z;
  blockSize : Z;
  numSets : Z;
  sets : list CacheSet;
  numReads : Z;
  numReadMisses : Z;
  numWrites : Z;
  numWriteMisses : Z;
  numWriteBacks : Z
}.

Module Cache.

Definition with_sets (c : Cache) (ss : list CacheSet) : Cache :=
  mkCache (cacheSize c) (assoc c) (blockSize c) (numSets c) ss
    (numReads c) (numReadMisses c) (numWrites c) (numWriteMisses c)
    (numWriteBacks c).

Definition incrReads (c : Cache) : Cache :=
  mkCache (cacheSize c) (assoc c) (blockSize c) (numSets c) (sets c)
    (numReads c + 1) (numReadMisses c) (numWrites c) (numWriteMisses c)
    (numWriteBacks c).

Definition incrReadMisses (c : Cache) : Cache :=
  mkCache (cacheSize c) (assoc c) (blockSize c) (numSets c) (sets c)
    (numReads c) (numReadMisses c + 1) (numWrites c) (numWriteMisses c)
    (numWriteBacks c).

Definition incrWrites (c : Cache) : Cache :=
  mkCache (cacheSize c) (assoc c) (blockSize c) (numSets c) (sets c)
    (numReads c) (numReadMisses c) (numWrites c + 1) (numWriteMisses c)
    (numWriteBacks c).

Definition incrWriteMisses (c : Cache) : Cache :=
  mkCache (cacheSize c) (assoc c) (blockSize c) (numSets c) (sets c)
    (numReads c) (numReadMisses c) (numWrites c) (numWriteMisses c + 1)
    (numWriteBacks c).

Definition incrWriteBacks (c : Cache) : Cache :=
  mkCache (cacheSize c) (assoc c) (blockSize c) (numSets c) (sets c)
    (numReads c) (numReadMisses c) (numWrites c) (numWriteMisses c)
    (numWriteBacks c + 1).

(** [Cache(int size, int assoc, int blockSize)].  The quotient is an [int]
    division (truncating, trapping on zero, undefined when it leaves [int]);
    a negative [numSets] becomes a huge [size_t] and the vector constructor
    throws. *)
Definition new (size assoc blockSize : Z) : option Cache :=
  d ← int_mul assoc blockSize;
  if decide (d = 0) then None
  else
    let n := Z.quot size d in
    if decide (n < 0 ∨ INT_MAX < n) then None
    else Some (mkCache size assoc blockSize n
                 (replicate (Z.to_nat n) (CacheSet.new assoc))
                 0 0 0 0 0).

(** [(address / blockSize) % numSets]. *)
Definition setIndexOf (c : Cache) (address : Z) : option Z :=
  q ← udiv address (to_ulong (blockSize c));
  umod q (to_ulong (numSets c)).

(** [address / (blockSize * numSets)]. *)
Definition tagOf (c : Cache) (address : Z) : option Z :=
  d ← int_mul (blockSize c) (numSets c);
  udiv address (to_ulong d).

Definition accessCache (env : Env) (c : Cache) (address : Z)
  : option (option node * Cache) :=
  setIndex ← setIndexOf c address;
  t ← tagOf c address;
  set ← sets c !! Z.to_nat setIndex;
  match CacheSet.findBlock set t with
  | Some block =>
      set' ← CacheSet.moveToMRU env set block;
      Some (Some block, with_sets c (<[Z.to_nat setIndex := set']> (sets c)))
  | None => Some (None, c)
  end.

(** [writeToCache].  On a hit, [block->dirty = true] is a store through the
    pointer [findBlock] returned: it reaches a node of the list when [block]
    still designates one after [moveToMRU] ([storeDirty] leaves the list as
    it is otherwise).  On a miss into a full set, [evicted->dirty] is read
    after [pop_back] released the node. *)
Definition writeToCache (env : Env) (c : Cache) (address : Z) : option Cache :=
  setIndex ← setIndexOf c address;
  t ← tagOf c address;
  set ← sets c !! Z.to_nat setIndex;
  match CacheSet.findBlock set t with
  | Some block =>
      set' ← CacheSet.moveToMRU env set block;
      let set'' := mkSet (storeDirty block (blocks set')) (blockMap set') in
      Some (with_sets c (<[Z.to_nat setIndex := set'']> (sets c)))
  | None =>
      let newBlock := {| tag := t; valid := true; dirty := true |} in
      if CacheSet.isFull set then
        '(evicted, set') ← CacheSet.evictLRU set;
        let c' := if dirty (freed env evicted) then incrWriteBacks c else c in
        Some (with_sets c'
                (<[Z.to_nat setIndex := CacheSet.insertBlock set' newBlock]>
                   (sets c')))
      else
        Some (with_sets c
                (<[Z.to_nat setIndex := CacheSet.insertBlock set newBlock]>
                   (sets c)))
  end.

End Cache.

(** ** VictimCache

    The member functions of [VictimCache] are those of [CacheSet], word for
    word, over its own [blocks] and [blockMap]; [vcSet] holds these two
    members. *)

Record VictimCache := mkVC {
  numBlocks : Z;
  vcSet : CacheSet
}.

Module VictimCache.

Definition new (numBlocks : Z) : VictimCache :=
  {| numBlocks := numBlocks; vcSet := CacheSet.new numBlocks |}.

Definition findBlock (v : VictimCache) (t : Z) : option node :=
  CacheSet.findBlock (vcSet v) t.

Definition moveToMRU (env : Env) (v : VictimCache) (block : node)
  : option VictimCache :=
  s ← CacheSet.moveToMRU env (vcSet v) block;
  Some {| numBlocks := numBlocks v; vcSet := s |}.

(** The three members below are never called by the simulation loop. *)
Definition evictLRU (v : VictimCache) : option (CacheBlock * VictimCache) :=
  '(b, s) ← CacheSet.evictLRU (vcSet v);
  Some (b, {| numBlocks := numBlocks v; vcSet := s |}).

Definition insertBlock (v : VictimCache) (block : CacheBlock) : VictimCache :=
  {| numBlocks := numBlocks v; vcSet := CacheSet.insertBlock (vcSet v) block |}.

Definition isFull (v : VictimCache) : bool := CacheSet.isFull (vcSet v).

End VictimCache.

(** ** The hierarchy and the simulation loop *)

Record Hierarchy := mkHier {
  L1 : Cache;
  L2 : option Cache;
  VC : option VictimCache
}.

(** One parsed trace line: the operation character and the address. *)
Record Event := mkEvent { op : ascii; address : Z }.

Definition rd (a : Z) : Event := mkEvent "r" a.
Definition wr (a : Z) : Event := mkEvent "w" a.

(** The body of the [while] loop of [simulateCacheHierarchy]. *)
Definition processLine (env : Env) (h : Hierarchy) (e : Event)
  : option Hierarchy :=
  if decide (op e = "r"%char) then
    '(block, l1) ← Cache.accessCache env (Cache.incrReads (L1 h)) (address e);
    match block with
    | Some _ => Some (mkHier l1 (L2 h) (VC h))
    | None =>
        let l1 := Cache.incrReadMisses l1 in
        match VC h with
        | Some vc =>
            match VictimCache.findBlock vc (address e) with
            | Some victimBlock =>
                vc' ← VictimCache.moveToMRU env vc victimBlock;
                Some (mkHier l1 (L2 h) (Some vc'))
            | None =>
                match L2 h with
                | Some l2 =>
                    '(_, l2') ← Cache.accessCache env l2 (address e);
                    Some (mkHier l1 (Some l2') (VC h))
                | None => Some (mkHier l1 (L2 h) (VC h))
                end
            end
        | None => Some (mkHier l1 (L2 h) (VC h))
        end
    end
  else if decide (op e = "w"%char) then
    '(block, l1) ← Cache.accessCache env (Cache.incrWrites (L1 h)) (address e);
    let l1 := match block with
              | Some _ => l1
              | None => Cache.incrWriteMisses l1
              end in
    l1 ← Cache.writeToCache env l1 (address e);
    Some (mkHier l1 (L2 h) (VC h))
  else Some h.

(** The loop over the trace lines. *)
Fixpoint simulateCacheHierarchy (env : Env) (h : Hierarchy)
    (trace : list Event) : option Hierarchy :=
  match trace with
  | [] => Some h
  | e :: trace' =>
      h' ← processLine env h e;
      simulateCacheHierarchy env h' trace'
  end.

(** The part of [main] that builds the hierarchy from the six numeric
    arguments. *)
Definition build (L1_SIZE L1_ASSOC L1_BLOCKSIZE VC_NUM_BLOCKS L2_SIZE L2_ASSOC : Z)
  : option Hierarchy :=
  l1 ← Cache.new L1_SIZE L1_ASSOC L1_BLOCKSIZE;
  l2 ← (if decide (L2_SIZE > 0)
        then Some <$> Cache.new L2_SIZE L2_ASSOC L1_BLOCKSIZE
        else Some None);
  let vc := if decide (VC_NUM_BLOCKS > 0)
            then Some (VictimCache.new VC_NUM_BLOCKS) else None in
  Some (mkHier l1 l2 vc).

Definition geometry (c : Cache) : Z * Z * Z * Z :=
  (cacheSize c, assoc c, blockSize c, numSets c).

Definition counters (c : Cache) : Z * Z * Z * Z * Z :=
  (numReads c, numReadMisses c, numWrites c, numWriteMisses c, numWriteBacks c).

Definition residentTags (s : CacheSet) : list Z :=
  tag <$> CacheSet.resident s.

(** What a run leaves behind: the counters and the resident blocks (most
    recent first) of each set of the first level, the same for the second
    level, and the resident blocks of the victim buffer. *)
Definition view (h : Hierarchy)
  : (Z * Z * Z * Z * Z) * list (list CacheBlock)
    * option ((Z * Z * Z * Z * Z) * list (list CacheBlock))
    * option (list CacheBlock) :=
  (counters (L1 h), CacheSet.resident <$> sets (L1 h),
   (λ c, (counters c, CacheSet.resident <$> sets c)) <$> L2 h,
   (λ v, CacheSet.resident (vcSet v)) <$> VC h).

(** * Well-formed states

    A set is well formed when every entry of its map designates a node of its
    list, and that node holds a block with the entry's tag. *)

Definition wf_set (s : CacheSet) : Prop :=
  map_Forall (λ t p, tag <$> deref (blocks s) p = Some t) (blockMap s).

Definition wf_cache (c : Cache) : Prop :=
  0 < blockSize c ∧ 0 < numSets c ∧ blockSize c * numSets c <= INT_MAX ∧
  length (sets c) = Z.to_nat (numSets c) ∧ Forall wf_set (sets c).

Definition wf_hier (h : Hierarchy) : Prop :=
  wf_cache (L1 h) ∧
  from_option wf_cache True (L2 h) ∧
  from_option (λ v, wf_set (vcSet v)) True (VC h).

#[global] Instance wf_set_dec s : Decision (wf_set s).
Proof. unfold wf_set. apply _. Defined.
#[global] Instance wf_cache_dec c : Decision (wf_cache c).
Proof. unfold wf_cache. apply _. Defined.
#[global] Instance wf_hier_dec h : Decision (wf_hier h).
Proof.
  unfold wf_hier. destruct (L2 h), (VC h); simpl; apply _.
Defined.

(** The converse direction, with distinct node names: every resident block
    is the one its tag is mapped to. *)
Definition consistent (s : CacheSet) : Prop :=
  NoDup (blocks s).*1 ∧
  ∀ p b, (p, b) ∈ blocks s → valid b = true → blockMap s !! tag b = Some p.

(** Two states of a set that hold the same nodes with the same contents and
    the same map, in a possibly different recency order. *)
Definition reordered (s s' : CacheSet) : Prop :=
  blockMap s' = blockMap s ∧
  blocks s' ≡ₚ blocks s ∧
  ∀ p, deref (blocks s') p = deref (blocks s) p.

(** Two states of a cache that differ at most in the recency order of one
    set. *)
Definition same_but_order (c c' : Cache) : Prop :=
  cacheSize c' = cacheSize c ∧ assoc c' = assoc c ∧
  blockSize c' = blockSize c ∧ numSets c' = numSets c ∧
  Forall2 reordered (sets c) (sets c').

(** The set an address maps to and its tag, once the divisions are known
    not to trap. *)
Definition indexOf (c : Cache) (a : Z) : nat :=
  Z.to_nat ((a / blockSize c) mod numSets c).
Definition tagFor (c : Cache) (a : Z) : Z :=
  a / (blockSize c * numSets c).

(** The victim buffer holds the same nodes and blocks, in some order. *)
Definition vc_reordered (v v' : VictimCache) : Prop :=
  numBlocks v' = numBlocks v ∧ reordered (vcSet v) (vcSet v').

(** A set whose list has more nodes than its map has entries: [isFull()]
    answers false. *)
Definition roomy_set (s : CacheSet) : Prop :=
  (size (blockMap s) < length (blocks s))%nat.

Definition roomy (c : Cache) : Prop := Forall roomy_set (sets c).

#[global] Instance roomy_dec c : Decision (roomy c).
Proof. unfold roomy, roomy_set. apply _. Defined.

(** Every list has a node, so that [back()] is defined. *)
Definition nonempty (c : Cache) : Prop := Forall (λ s, blocks s ≠ []) (sets c).

#[global] Instance nonempty_dec c : Decision (nonempty c).
Proof. unfold nonempty. apply _. Defined.

(** No tag is mapped in the second level nor in the victim buffer. *)
Definition side_empty (h : Hierarchy) : Prop :=
  from_option (λ c, Forall (λ s, blockMap s = ∅) (sets c)) True (L2 h) ∧
  from_option (λ v, blockMap (vcSet v) = ∅) True (VC h).

(** * Configurations *)

(** Positive dimensions, at least one set, a size within [int]. *)
Definition valid_geometry (size assoc blockSize : Z) : Prop :=
  0 < assoc ∧ 0 < blockSize ∧ assoc * blockSize <= size ∧ size <= INT_MAX.

(** The second level is built only when [L2_SIZE > 0]. *)
Definition valid_config
    (L1_SIZE L1_ASSOC L1_BLOCKSIZE VC_NUM_BLOCKS L2_SIZE L2_ASSOC : Z) : Prop :=
  valid_geometry L1_SIZE L1_ASSOC L1_BLOCKSIZE ∧
  (L2_SIZE > 0 → valid_geometry L2_SIZE L2_ASSOC L1_BLOCKSIZE).

(** Nothing but the truncating division relates [size] to [numSets]. *)
Definition rounded_down (c : Cache) (size assoc blockSize : Z) : Prop :=
  geometry c = (size, assoc, blockSize, size / (assoc * blockSize)) ∧
  1 <= numSets c ∧
  numSets c * assoc * blockSize <= size < (numSets c + 1) * assoc * blockSize ∧
  (size = numSets c * assoc * blockSize ↔ size mod (assoc * blockSize) = 0).

(** * Concrete states *)

(** Two byte patterns a released node may read as: a valid block of tag
    [0xa5], dirty or clean. *)
Definition junk : CacheBlock := mkBlock 0xa5 true true.
Definition junkClean : CacheBlock := mkBlock 0xa5 true false.

(** A one-way set holding one dirty block with tag 0 and no placeholder
    node: the state in which [isFull()] answers true. *)
Definition fullSet : CacheSet :=
  mkSet [(1%nat, mkBlock 0 true true)] {[ 0 := 1%nat ]}.

(** The hierarchy of [cache_sim 64 2 32 1 64 1] after the lines [w 0] and
    [w 40]. *)
Definition warmSet : CacheSet :=
  mkSet [(4%nat, mkBlock 2 true true); (3%nat, mkBlock 0 true true);
         (1%nat, emptyBlock); (2%nat, emptyBlock)]
        {[ 0 := 3%nat; 2 := 4%nat ]}.

Definition hWarm : Hierarchy :=
  mkHier (mkCache 64 2 32 1 [warmSet] 0 0 2 2 0)
         (Some (mkCache 64 1 32 2 [CacheSet.new 1; CacheSet.new 1] 0 0 0 0 0))
         (Some (VictimCache.new 1)).

(** The trace [r 0], [r 20], [w 0], [r 420]; addresses are read with [%lx]. *)
Definition scenarioTrace : list Event := [rd 0x0; rd 0x20; wr 0x0; rd 0x420].

(** The cache of [cache_sim 1024 1 32 0 0 0]: 32 one-way sets. *)
Definition scenarioCache : Cache :=
  mkCache 1024 1 32 32 (replicate 32 (CacheSet.new 1)) 0 0 0 0 0.

(** * Measures of a trace and of a cache *)

(** The number of lines of a trace whose operation character is [o]. *)
Definition countOp (o : ascii) (trace : list Event) : Z :=
  Z.of_nat (length (filter (λ e, op e = o) trace)).

(** The number of tags mapped in a cache, over all its sets. *)
Definition mapped (c : Cache) : nat :=
  sum_list ((λ s, size (blockMap s)) <$> sets c).

(** From [s] to [s'] no tag has left the map, and the list has gained as
    many nodes as the map has gained entries. *)
Definition grown (s s' : CacheSet) : Prop :=
  (∀ t, is_Some (blockMap s !! t) → is_Some (blockMap s' !! t)) ∧
  (length (blocks s') + size (blockMap s)
   = length (blocks s) + size (blockMap s'))%nat.

(** Every mapped node is in the list, and the tag of the block it holds is
    mapped: what [moveToMRU] needs of the node [findBlock] returns. *)
Definition linked (s : CacheSet) : Prop :=
  map_Forall
    (λ _ p, ∃ b, deref (blocks s) p = Some b ∧ is_Some (blockMap s !! tag b))
    (blockMap s).

(** How the counters of [c'] account for the lines of a trace processed
    since [c]. *)
Definition accounted (c c' : Cache) (trace : list Event) : Prop :=
  numReads c' = numReads c + countOp "r" trace ∧
  numWrites c' = numWrites c + countOp "w" trace ∧
  numReadMisses c <= numReadMisses c' <= numReadMisses c + countOp "r" trace ∧
  numWriteMisses c <= numWriteMisses c'
    <= numWriteMisses c + countOp "w" trace ∧
  0 <= numWriteBacks c' - numWriteBacks c
    <= numWriteMisses c' - numWriteMisses c.

(** * Recency order *)

(** Every mapped node holds a valid block. *)
Definition mapped_valid (s : CacheSet) : Prop :=
  map_Forall (λ t p, valid <$> deref (blocks s) p = Some true) (blockMap s).

(** The three invariants every set of a run has. *)
Definition tidy (s : CacheSet) : Prop :=
  wf_set s ∧ consistent s ∧ mapped_valid s.

(** Move-to-front on a list of tags. *)
Definition touch (t : Z) (l : list Z) : list Z :=
  t :: filter (λ x, x ≠ t) l.

(** * An unbounded cache that allocates on writes only

    The reference against which the counters of a run are compared: it
    remembers the numbers of the blocks written so far, counts a miss for a
    read or a write of a block not yet written, and never forgets a block. *)

Definition IdealState : Type := gset Z * (Z * Z * Z * Z).

Definition idealLine (blockSize : Z) (st : IdealState) (e : Event)
  : IdealState :=
  let '(W, (r, rm, w, wm)) := st in
  let q := address e / blockSize in
  if decide (op e = "r"%char) then
    (W, (r + 1, (if decide (q ∈ W) then rm else rm + 1), w, wm))
  else if decide (op e = "w"%char) then
    ({[ q ]} ∪ W, (r, rm, w + 1, (if decide (q ∈ W) then wm else wm + 1)))
  else st.

Definition idealRun (blockSize : Z) (st : IdealState) (trace : list Event)
  : IdealState :=
  foldl (idealLine blockSize) st trace.

(** Reads, read misses, writes, write misses. *)
Definition accessCounters (c : Cache) : Z * Z * Z * Z :=
  (numReads c, numReadMisses c, numWrites c, numWriteMisses c).

(** The blocks whose tag is mapped in cache [c] are those numbered in [W]. *)
Definition holds (c : Cache) (W : gset Z) : Prop :=
  ∀ q, q ∈ W ↔
       ∃ s, sets c !! Z.to_nat (q mod numSets c) = Some s ∧
            is_Some (blockMap s !! (q / numSets c)).

(** * Arithmetic of the address decomposition *)

Section Geometry.

Variable c : Cache.
Hypothesis Hb : 0 < blockSize c.
Hypothesis Hn : 0 < numSets c.
Hypothesis Hmul : blockSize c * numSets c <= INT_MAX.

Lemma to_ulong_small x : 0 <= x <= INT_MAX → to_ulong x = x.
Proof.
  intros Hx. unfold to_ulong, ULONG_MOD. apply Z.mod_small.
  unfold INT_MAX in Hx. lia.
Qed.

Lemma blockSize_le : blockSize c <= INT_MAX.
Proof. nia. Qed.

Lemma numSets_le : numSets c <= INT_MAX.
Proof. nia. Qed.

Lemma setIndexOf_eq a :
  Cache.setIndexOf c a = Some ((a / blockSize c) mod numSets c).
Proof.
  unfold Cache.setIndexOf, udiv, umod.
  rewrite !to_ulong_small by (pose proof blockSize_le; pose proof numSets_le; lia).
  rewrite decide_False by lia. simpl.
  rewrite decide_False by lia. reflexivity.
Qed.

Lemma tagOf_eq a :
  Cache.tagOf c a = Some (a / (blockSize c * numSets c)).
Proof.
  unfold Cache.tagOf, int_mul, udiv.
  rewrite decide_True by (unfold INT_MIN; nia). simpl.
  rewrite to_ulong_small by nia.
  rewrite decide_False by nia. reflexivity.
Qed.

Lemma setIndex_range a :
  (Z.to_nat ((a / blockSize c) mod numSets c) < Z.to_nat (numSets c))%nat.
Proof.
  pose proof (Z.mod_pos_bound (a / blockSize c) (numSets c) Hn). lia.
Qed.

Lemma same_block_iff a1 a2 :
  ((a1 / blockSize c) mod numSets c = (a2 / blockSize c) mod numSets c ∧
   a1 / (blockSize c * numSets c) = a2 / (blockSize c * numSets c))
  ↔ a1 / blockSize c = a2 / blockSize c.
Proof.
  rewrite <- !Z.div_div by lia.
  split.
  - intros [Hm Hd].
    rewrite (Z.div_mod (a1 / blockSize c) (numSets c)) by lia.
    rewrite (Z.div_mod (a2 / blockSize c) (numSets c)) by lia.
    congruence.
  - intros ->. split; reflexivity.
Qed.

End Geometry.

(** C2. With positive block size and set count (whose [int] product does not
    overflow), [accessCache] and [writeToCache] split an address into
    [setIndex = (address / blockSize) mod numSets] and
    [tag = address / (blockSize * numSets)], and two addresses get the same
    pair exactly when they lie in the same block. *)
Theorem address_decomposition_roundtrip (c : Cache) (addr1 addr2 : Z) :
  0 < blockSize c → 0 < numSets c → blockSize c * numSets c <= INT_MAX →
  Cache.setIndexOf c addr1 = Some ((addr1 / blockSize c) mod numSets c) ∧
  Cache.tagOf c addr1 = Some (addr1 / (blockSize c * numSets c)) ∧
  ((Cache.setIndexOf c addr1 = Cache.setIndexOf c addr2 ∧
    Cache.tagOf c addr1 = Cache.tagOf c addr2)
   ↔ addr1 / blockSize c = addr2 / blockSize c).
Proof.
  intros Hb Hn Hmul.
  rewrite !setIndexOf_eq, !tagOf_eq by assumption.
  split; [reflexivity|]. split; [reflexivity|].
  rewrite <- (same_block_iff c Hb Hn addr1 addr2).
  split; intros [H1 H2]; split; congruence.
Qed.

Lemma address_decomposition_roundtrip_witness :
  Cache.setIndexOf scenarioCache 0x420 = Some 1 ∧
  Cache.tagOf scenarioCache 0x420 = Some 1 ∧
  Cache.setIndexOf scenarioCache 0x420 = Cache.setIndexOf scenarioCache 0x43f ∧
  Cache.tagOf scenarioCache 0x420 = Cache.tagOf scenarioCache 0x43f.
Proof.
  destruct (address_decomposition_roundtrip scenarioCache 0x420 0x43f)
    as (Hi & Ht & Hiff).
  - simpl. lia.
  - simpl. lia.
  - simpl. unfold INT_MAX. lia.
  - split; [exact Hi|]. split; [exact Ht|].
    apply Hiff. reflexivity.
Defined.

(** * The list of a set: dereferencing, erasing, promoting *)

Lemma deref_erase_ne p q l : p ≠ q → deref (erase q l) p = deref l p.
Proof.
  intros Hne. induction l as [|[r b] l IH]; simpl; [reflexivity|].
  destruct (decide (q = r)) as [->|Hqr]; simpl.
  - rewrite decide_False by assumption. reflexivity.
  - rewrite IH. reflexivity.
Qed.

Lemma erase_perm q b l : deref l q = Some b → (q, b) :: erase q l ≡ₚ l.
Proof.
  induction l as [|[r b'] l IH]; simpl; [discriminate|].
  destruct (decide (q = r)) as [->|Hqr].
  - intros [= ->]. reflexivity.
  - intros H. rewrite Permutation_swap. f_equiv. auto.
Qed.

Lemma deref_promote q b l p :
  deref l q = Some b → deref ((q, b) :: erase q l) p = deref l p.
Proof.
  intros H. simpl. destruct (decide (p = q)) as [->|Hpq].
  - symmetry. assumption.
  - apply deref_erase_ne. assumption.
Qed.

Lemma deref_Some_elem l p b : deref l p = Some b → (p, b) ∈ l.
Proof.
  induction l as [|[r b'] l IH]; simpl; [discriminate|].
  destruct (decide (p = r)) as [->|Hpr].
  - intros [= ->]. left.
  - intros H. right. auto.
Qed.

Lemma deref_lt_fresh l p b : deref l p = Some b → (p < freshNode l)%nat.
Proof.
  intros H%deref_Some_elem. unfold freshNode.
  assert (p ∈ l.*1) as Hin by (apply list_elem_of_fmap; exists (p, b); auto).
  apply max_list_elem_of_le in Hin. lia.
Qed.

Lemma reordered_refl s : reordered s s.
Proof. repeat split; reflexivity. Qed.

Lemma reordered_trans s1 s2 s3 :
  reordered s1 s2 → reordered s2 s3 → reordered s1 s3.
Proof.
  intros (Hm1 & Hp1 & Hd1) (Hm2 & Hp2 & Hd2). repeat split.
  - congruence.
  - etransitivity; eassumption.
  - intros p. rewrite Hd2. apply Hd1.
Qed.

Lemma wf_set_reordered s s' : reordered s s' → wf_set s → wf_set s'.
Proof.
  intros (Hm & _ & Hd) Hwf. unfold wf_set in *. rewrite Hm.
  intros t p Htp. rewrite Hd. apply (Hwf t p Htp).
Qed.

Lemma wf_set_lookup s t p :
  wf_set s → blockMap s !! t = Some p →
  ∃ b, deref (blocks s) p = Some b ∧ tag b = t.
Proof.
  intros Hwf Htp. specialize (Hwf t p Htp). simpl in Hwf.
  destruct (deref (blocks s) p) as [b|]; [|discriminate].
  exists b. split; [reflexivity|]. simpl in Hwf. congruence.
Qed.

(** Promoting a node whose own tag is mapped to it: the node is released,
    and the new front node holds what the released memory reads as. *)
Lemma moveToMRU_own env s p b :
  deref (blocks s) p = Some b → blockMap s !! tag b = Some p →
  CacheSet.moveToMRU env s p
  = Some (mkSet
            ((if reuse env then p else freshNode (blocks s), freed env b)
               :: erase p (blocks s))
            (<[tag (freed env b)
               := if reuse env then p else freshNode (blocks s)]>
               (blockMap s))).
Proof.
  intros Hb Hm. unfold CacheSet.moveToMRU. rewrite Hb. simpl.
  rewrite Hm. simpl. rewrite Hb. simpl.
  rewrite decide_True by reflexivity. reflexivity.
Qed.

(** On a well-formed set, when released nodes keep their contents and are
    reused, promoting the node found for a tag relinks that very node at
    the front and leaves the map as it is. *)
Lemma moveToMRU_found s t p :
  wf_set s → CacheSet.findBlock s t = Some p →
  ∃ b, deref (blocks s) p = Some b ∧ tag b = t ∧
       CacheSet.moveToMRU retains s p
       = Some (mkSet ((p, b) :: erase p (blocks s)) (blockMap s)).
Proof.
  intros Hwf Hf. unfold CacheSet.findBlock in Hf.
  destruct (wf_set_lookup s t p Hwf Hf) as (b & Hb & Ht).
  exists b. split; [assumption|]. split; [assumption|].
  rewrite (moveToMRU_own retains s p b Hb) by (rewrite Ht; exact Hf).
  simpl. rewrite Ht. rewrite insert_id by assumption. reflexivity.
Qed.

Lemma moveToMRU_reordered s t p s' :
  wf_set s → CacheSet.findBlock s t = Some p →
  CacheSet.moveToMRU retains s p = Some s' → reordered s s'.
Proof.
  intros Hwf Hf Hm.
  destruct (moveToMRU_found s t p Hwf Hf) as (b & Hb & _ & Heq).
  rewrite Heq in Hm. injection Hm as <-. repeat split; simpl.
  - apply erase_perm. assumption.
  - intros q. apply (deref_promote p b (blocks s) q Hb).
Qed.

Lemma Forall2_reordered_insert (l : list CacheSet) i s s' :
  l !! i = Some s → reordered s s' → Forall2 reordered l (<[i := s']> l).
Proof.
  intros Hi Hr.
  rewrite <- (list_insert_id l i s Hi) at 1.
  apply Forall2_insert; [|assumption].
  apply Forall_Forall2_diag, Forall_forall. intros; apply reordered_refl.
Qed.

Lemma Forall_wf_insert (l : list CacheSet) i s :
  Forall wf_set l → wf_set s → Forall wf_set (<[i := s]> l).
Proof. intros Hl Hs. apply Forall_insert; assumption. Qed.

(** * Consistency of the list with the map *)

Lemma freshNode_fresh l : freshNode l ∉ l.*1.
Proof.
  intros Hin. apply max_list_elem_of_le in Hin. unfold freshNode in Hin. lia.
Qed.

Lemma fst_storeDirty p l : (storeDirty p l).*1 = l.*1.
Proof.
  induction l as [|[q b] l IH]; simpl; [reflexivity|].
  destruct (decide (p = q)); rewrite !fmap_cons; simpl; [reflexivity|].
  rewrite IH. reflexivity.
Qed.

Lemma elem_of_storeDirty p l q b' :
  (q, b') ∈ storeDirty p l →
  ∃ b, (q, b) ∈ l ∧ tag b' = tag b ∧ valid b' = valid b.
Proof.
  induction l as [|[r b] l IH]; simpl; [intros H; inversion H|].
  destruct (decide (p = r)) as [->|Hpr].
  - intros [[= -> ->]|Hin]%elem_of_cons.
    + exists b. split; [left|]. split; reflexivity.
    + exists b'. split; [right; assumption|]. split; reflexivity.
  - intros [[= -> ->]|Hin]%elem_of_cons.
    + exists b. split; [left|]. split; reflexivity.
    + destruct (IH Hin) as (b0 & Hb0 & Ht & Hv).
      exists b0. split; [right; assumption|]. split; assumption.
Qed.

Lemma consistent_reordered s s' : reordered s s' → consistent s → consistent s'.
Proof.
  intros (Hm & Hp & _) [Hnd Hres]. split.
  - rewrite Hp. assumption.
  - intros p b Hin Hv. rewrite Hm. apply Hres; [|assumption].
    rewrite <- Hp. assumption.
Qed.

Lemma consistent_storeDirty p s :
  consistent s → consistent (mkSet (storeDirty p (blocks s)) (blockMap s)).
Proof.
  intros [Hnd Hres]. split; simpl.
  - rewrite fst_storeDirty. assumption.
  - intros q b' Hin Hv.
    destruct (elem_of_storeDirty _ _ _ _ Hin) as (b & Hb & Ht & Hvb).
    rewrite Ht. apply Hres; congruence.
Qed.

Lemma consistent_insertBlock s b :
  consistent s → blockMap s !! tag b = None →
  consistent (CacheSet.insertBlock s b).
Proof.
  intros [Hnd Hres] Hnone. unfold CacheSet.insertBlock. split; simpl.
  - apply NoDup_cons. split; [apply freshNode_fresh|assumption].
  - intros p b0 [[= -> ->]|Hin]%elem_of_cons Hv.
    + apply lookup_insert_eq.
    + specialize (Hres p b0 Hin Hv).
      rewrite lookup_insert_ne; [assumption|]. congruence.
Qed.

Lemma emplace_back_n_fresh n : ∀ l,
  NoDup l.*1 → Forall (λ x, valid x.2 = false) l →
  NoDup (emplace_back_n n l).*1 ∧
  Forall (λ x, valid x.2 = false) (emplace_back_n n l).
Proof.
  induction n as [|n IH]; intros l Hnd Hall; simpl; [auto|].
  apply IH.
  - rewrite fmap_app. simpl. apply NoDup_app. split; [assumption|].
    split.
    + intros x Hx [->|[]%elem_of_nil]%elem_of_cons.
      apply (freshNode_fresh l). assumption.
    + apply NoDup_singleton.
  - apply Forall_app. split; [assumption|]. repeat constructor.
Qed.

Lemma consistent_new assoc : consistent (CacheSet.new assoc).
Proof.
  destruct (emplace_back_n_fresh (Z.to_nat assoc) []) as [Hnd Hall];
    [constructor|constructor|].
  split; simpl; [assumption|].
  intros p b Hin Hv. rewrite Forall_forall in Hall.
  specialize (Hall _ Hin). simpl in Hall. congruence.
Qed.

(** In a consistent set no two resident blocks have the same tag. *)
Lemma resident_tags_NoDup s : consistent s → NoDup (residentTags s).
Proof.
  unfold residentTags, CacheSet.resident. intros [Hnd Hres].
  revert Hnd Hres. generalize (blockMap s). induction (blocks s) as [|[p b] l IH];
    intros m Hnd Hres; simpl; [constructor|].
  apply NoDup_cons in Hnd as [Hp Hnd].
  assert (NoDup (tag <$> filter (λ b, valid b = true) l.*2)) as IH'.
  { apply (IH m); [assumption|]. intros q b' Hin. apply Hres. right. assumption. }
  rewrite filter_cons. destruct (decide (valid b = true)) as [Hv|Hv];
    [|assumption].
  simpl. apply NoDup_cons. split; [|assumption].
  intros Hin. apply list_elem_of_fmap in Hin as (b' & Ht & Hin).
  apply list_elem_of_filter in Hin as [Hv' Hin].
  apply list_elem_of_fmap in Hin as ([q b''] & E & Hin). simpl in E. subst b''.
  assert (m !! tag b = Some p) as H1 by (apply Hres; [left|assumption]).
  assert (m !! tag b' = Some q) as H2 by (apply Hres; [right|]; assumption).
  rewrite Ht in H1. rewrite H1 in H2. injection H2 as ->.
  apply Hp. apply list_elem_of_fmap. exists (q, b'). auto.
Qed.

Lemma Forall_consistent_reordered (l l' : list CacheSet) :
  Forall2 reordered l l' → Forall consistent l → Forall consistent l'.
Proof.
  induction 1 as [|s s' l l' Hss' _ IH]; intros Hc; [constructor|].
  inversion Hc; subst. constructor; [|auto].
  apply (consistent_reordered s); assumption.
Qed.

(** * accessCache *)

Lemma wf_cache_set c a :
  wf_cache c → ∃ s, sets c !! indexOf c a = Some s ∧ wf_set s.
Proof.
  intros (Hb & Hn & Hmul & Hlen & Hall).
  destruct (lookup_lt_is_Some_2 (sets c) (indexOf c a)) as [s Hs].
  { rewrite Hlen. apply setIndex_range; assumption. }
  exists s. split; [assumption|].
  rewrite Forall_lookup in Hall. eauto.
Qed.

(** With released nodes that keep their contents, [accessCache] always
    returns on a well-formed cache; it reports a hit exactly when the map of
    the addressed set has the tag, leaves every counter alone, and changes
    at most the recency order of the addressed set; on a miss the cache is
    untouched. *)
Lemma accessCache_spec c a :
  wf_cache c →
  ∃ s r c',
    sets c !! indexOf c a = Some s ∧
    r = CacheSet.findBlock s (tagFor c a) ∧
    Cache.accessCache retains c a = Some (r, c') ∧
    wf_cache c' ∧ same_but_order c c' ∧ counters c' = counters c ∧
    (∀ i, i ≠ indexOf c a → sets c' !! i = sets c !! i) ∧
    (r = None → c' = c).
Proof.
  intros Hwf. destruct (wf_cache_set c a Hwf) as (s & Hs & Hwfs).
  pose proof Hwf as (Hb & Hn & Hmul & Hlen & Hall).
  exists s, (CacheSet.findBlock s (tagFor c a)).
  unfold Cache.accessCache.
  rewrite setIndexOf_eq, tagOf_eq by assumption. simpl.
  fold (indexOf c a) (tagFor c a). rewrite Hs. simpl.
  destruct (CacheSet.findBlock s (tagFor c a)) as [p|] eqn:Hf.
  - destruct (moveToMRU_found s _ p Hwfs Hf) as (b & Hd & Ht & Hm).
    pose proof (moveToMRU_reordered s _ p _ Hwfs Hf Hm) as Hr.
    rewrite Hm. simpl. eexists. split; [reflexivity|]. split; [reflexivity|].
    split; [reflexivity|]. split; [|split; [|split; [|split]]].
    + unfold wf_cache; simpl. rewrite length_insert.
      repeat split; try assumption.
      apply Forall_wf_insert; [assumption|].
      apply (wf_set_reordered s); assumption.
    + unfold same_but_order; simpl. repeat split.
      apply Forall2_reordered_insert with (s := s); assumption.
    + reflexivity.
    + intros i Hi. simpl. apply list_lookup_insert_ne. congruence.
    + discriminate.
  - exists c. repeat split; try assumption.
    apply Forall_Forall2_diag, Forall_forall. intros; apply reordered_refl.
Qed.

(** * Read events *)

Lemma same_but_order_refl c : same_but_order c c.
Proof.
  repeat split.
  apply Forall_Forall2_diag, Forall_forall. intros; apply reordered_refl.
Qed.

Lemma wf_cache_counters_irrelevant c c' :
  blockSize c' = blockSize c → numSets c' = numSets c → sets c' = sets c →
  wf_cache c → wf_cache c'.
Proof. unfold wf_cache. intros -> -> ->. tauto. Qed.

Lemma wf_hier_intro l1 l2 vc :
  wf_cache l1 → from_option wf_cache True l2 →
  from_option (λ v, wf_set (vcSet v)) True vc →
  wf_hier (mkHier l1 l2 vc).
Proof. intros. split; [assumption|]. split; assumption. Qed.

(** Everything a read event does, on a well-formed hierarchy, with released
    nodes that keep their contents. *)
Lemma read_event_spec h a :
  wf_hier h →
  ∃ s h',
    sets (L1 h) !! indexOf (L1 h) a = Some s ∧
    processLine retains h (rd a) = Some h' ∧
    wf_hier h' ∧
    same_but_order (L1 h) (L1 h') ∧
    (∀ i, i ≠ indexOf (L1 h) a → sets (L1 h') !! i = sets (L1 h) !! i) ∧
    (CacheSet.findBlock s (tagFor (L1 h) a) = None →
     sets (L1 h') = sets (L1 h)) ∧
    numReads (L1 h') = numReads (L1 h) + 1 ∧
    numReadMisses (L1 h')
    = numReadMisses (L1 h)
      + match CacheSet.findBlock s (tagFor (L1 h) a) with
        | Some _ => 0
        | None => 1
        end ∧
    numWrites (L1 h') = numWrites (L1 h) ∧
    numWriteMisses (L1 h') = numWriteMisses (L1 h) ∧
    numWriteBacks (L1 h') = numWriteBacks (L1 h) ∧
    option_Forall2 (λ c c', same_but_order c c' ∧ counters c' = counters c)
      (L2 h) (L2 h') ∧
    option_Forall2 vc_reordered (VC h) (VC h').
Proof.
  intros (Hw1 & Hw2 & Hwv).
  assert (wf_cache (Cache.incrReads (L1 h))) as Hw1'.
  { apply (wf_cache_counters_irrelevant (L1 h)); auto. }
  destruct (accessCache_spec _ a Hw1')
    as (s & r & c' & Hs & Hr & Hacc & Hwc' & Hsame & Hcnt & Hoth & Hmiss).
  change (indexOf (Cache.incrReads (L1 h)) a) with (indexOf (L1 h) a) in *.
  change (tagFor (Cache.incrReads (L1 h)) a) with (tagFor (L1 h) a) in *.
  change (sets (Cache.incrReads (L1 h))) with (sets (L1 h)) in *.
  exists s. unfold processLine. simpl. rewrite Hacc. simpl.
  injection Hcnt as Hc1 Hc2 Hc3 Hc4 Hc5. simpl in *.
  assert (option_Forall2 (λ c c', same_but_order c c' ∧ counters c' = counters c)
            (L2 h) (L2 h)) as HL2refl.
  { destruct (L2 h); constructor. split; [apply same_but_order_refl|reflexivity]. }
  assert (option_Forall2 vc_reordered (VC h) (VC h)) as HVCrefl.
  { destruct (VC h); constructor. split; [reflexivity|apply reordered_refl]. }
  destruct r as [p|].
  - (* L1 hit *)
    eexists. split; [exact Hs|]. split; [reflexivity|]. simpl. rewrite <- Hr.
    split; [apply wf_hier_intro; assumption|].
    repeat split; try assumption; try lia; try apply Hsame.
    discriminate.
  - (* L1 miss *)
    specialize (Hmiss eq_refl). subst c'. rewrite <- Hr.
    destruct (VC h) as [vc|] eqn:HVC.
    + destruct (VictimCache.findBlock vc a) as [vb|] eqn:Hvf.
      * (* victim hit: promoted inside the victim buffer only *)
        simpl in Hwv. unfold VictimCache.findBlock in Hvf.
        destruct (moveToMRU_found _ _ _ Hwv Hvf) as (b & Hd & Ht & Hm).
        pose proof (moveToMRU_reordered _ _ _ _ Hwv Hvf Hm) as Hro.
        unfold VictimCache.moveToMRU. rewrite Hm. simpl.
        eexists. split; [exact Hs|]. split; [reflexivity|]. simpl.
        split.
        { apply wf_hier_intro; try assumption.
          simpl. apply (wf_set_reordered (vcSet vc)); assumption. }
        repeat split; try reflexivity; try apply Hsame; try lia; try assumption.
        constructor. split; [reflexivity|assumption].
      * destruct (L2 h) as [l2|] eqn:HL2.
        -- (* victim miss, L2 looked up *)
           simpl in Hw2.
           destruct (accessCache_spec l2 a Hw2)
             as (s2 & r2 & l2' & _ & _ & Hacc2 & Hwl2' & Hsame2 & Hcnt2 & _).
           rewrite Hacc2. simpl.
           eexists. split; [exact Hs|]. split; [reflexivity|]. simpl.
           split; [apply wf_hier_intro; assumption|].
           repeat split; try reflexivity; try apply Hsame; try lia;
             try assumption.
           constructor. split; assumption.
        -- eexists. split; [exact Hs|]. split; [reflexivity|]. simpl.
           split; [apply wf_hier_intro; assumption|].
           repeat split; try reflexivity; try apply Hsame; try lia;
             try assumption.
    + eexists. split; [exact Hs|]. split; [reflexivity|]. simpl.
      split; [apply wf_hier_intro; assumption|].
      repeat split; try reflexivity; try apply Hsame; try lia;
        try assumption.
Qed.

(** * Write events *)

Lemma roomy_set_not_full s : roomy_set s → CacheSet.isFull s = false.
Proof.
  unfold roomy_set, CacheSet.isFull. intros H.
  apply bool_decide_eq_false. lia.
Qed.

Lemma roomy_set_reordered s s' : reordered s s' → roomy_set s → roomy_set s'.
Proof.
  unfold roomy_set. intros (Hm & Hp & _). rewrite Hm, Hp. trivial.
Qed.

Lemma roomy_same_but_order c c' : same_but_order c c' → roomy c → roomy c'.
Proof.
  intros (_ & _ & _ & _ & H2) Hr. unfold roomy in *.
  induction H2 as [|s s' l l' Hss' _ IH]; [constructor|].
  inversion Hr; subst. constructor.
  - apply (roomy_set_reordered s); assumption.
  - apply IH. assumption.
Qed.

Lemma length_storeDirty p l : length (storeDirty p l) = length l.
Proof.
  induction l as [|[q b] l IH]; simpl; [reflexivity|].
  destruct (decide (p = q)); simpl; congruence.
Qed.

Lemma deref_storeDirty_tag p l q :
  tag <$> deref (storeDirty p l) q = tag <$> deref l q.
Proof.
  induction l as [|[r b] l IH]; simpl; [reflexivity|].
  destruct (decide (p = r)) as [->|Hpr]; simpl;
    destruct (decide (q = r)); simpl; auto.
Qed.

Lemma wf_set_storeDirty p s :
  wf_set s → wf_set (mkSet (storeDirty p (blocks s)) (blockMap s)).
Proof.
  unfold wf_set. simpl. intros Hwf t q Htq.
  simpl. rewrite deref_storeDirty_tag. apply (Hwf t q Htq).
Qed.

Lemma wf_set_insertBlock s b :
  wf_set s → wf_set (CacheSet.insertBlock s b).
Proof.
  unfold wf_set, CacheSet.insertBlock. simpl. intros Hwf.
  apply map_Forall_insert_2.
  - simpl. rewrite decide_True by reflexivity. reflexivity.
  - intros t q Htq. specialize (Hwf t q Htq). simpl in *.
    destruct (deref (blocks s) q) as [b'|] eqn:Hd; [|discriminate].
    apply deref_lt_fresh in Hd.
    rewrite decide_False by lia. assumption.
Qed.

Lemma roomy_set_insertBlock s b :
  blockMap s !! tag b = None → roomy_set s →
  roomy_set (CacheSet.insertBlock s b).
Proof.
  unfold roomy_set, CacheSet.insertBlock. simpl. intros Hn Hr.
  rewrite map_size_insert_None by assumption. lia.
Qed.

(** With released nodes that keep their contents, [writeToCache] on a
    well-formed cache none of whose sets is full: it returns, evicts nothing,
    counts no write-back, and afterwards the map of the addressed set has
    the tag. *)
Lemma writeToCache_spec c a :
  wf_cache c → roomy c →
  ∃ c', Cache.writeToCache retains c a = Some c' ∧
        wf_cache c' ∧ roomy c' ∧ counters c' = counters c ∧
        geometry c' = geometry c ∧
        (∃ s', sets c' !! indexOf c a = Some s' ∧
               is_Some (CacheSet.findBlock s' (tagFor c a))) ∧
        (∀ i, i ≠ indexOf c a → sets c' !! i = sets c !! i) ∧
        (Forall consistent (sets c) → Forall consistent (sets c')).
Proof.
  intros Hwf Hroomy. destruct (wf_cache_set c a Hwf) as (s & Hs & Hwfs).
  pose proof Hwf as (Hb & Hn & Hmul & Hlen & Hall).
  assert (roomy_set s) as Hrs.
  { unfold roomy in Hroomy. rewrite Forall_lookup in Hroomy. eauto. }
  assert (indexOf c a < length (sets c))%nat as Hlt.
  { apply lookup_lt_is_Some. eauto. }
  unfold Cache.writeToCache.
  rewrite setIndexOf_eq, tagOf_eq by assumption. simpl.
  fold (indexOf c a) (tagFor c a). rewrite Hs. simpl.
  destruct (CacheSet.findBlock s (tagFor c a)) as [p|] eqn:Hf.
  - destruct (moveToMRU_found s _ p Hwfs Hf) as (b & Hd & Ht & Hm).
    pose proof (moveToMRU_reordered s _ p _ Hwfs Hf Hm) as Hr.
    rewrite Hm. simpl. eexists. split; [reflexivity|].
    split; [|split; [|split; [|split; [|split; [|split]]]]].
    + unfold wf_cache; simpl. rewrite length_insert.
      repeat split; try assumption.
      apply Forall_wf_insert; [assumption|].
      apply (wf_set_storeDirty p
               (mkSet ((p, b) :: erase p (blocks s)) (blockMap s))).
      apply (wf_set_reordered s); assumption.
    + unfold roomy; simpl. apply Forall_insert; [assumption|].
      unfold roomy_set in *. cbn [blocks blockMap].
      rewrite decide_True by reflexivity.
      pose proof (Permutation_length (erase_perm p b (blocks s) Hd)) as Hl.
      simpl in *. lia.
    + reflexivity.
    + reflexivity.
    + eexists. simpl. split; [apply list_lookup_insert_eq; assumption|].
      unfold CacheSet.findBlock in *. simpl. eauto.
    + intros i Hi. simpl. apply list_lookup_insert_ne. congruence.
    + intros Hc. simpl. apply Forall_insert; [assumption|].
      apply (consistent_storeDirty p
               (mkSet ((p, b) :: erase p (blocks s)) (blockMap s))).
      apply (consistent_reordered s); [assumption|].
      rewrite Forall_lookup in Hc. eauto.
  - rewrite roomy_set_not_full by assumption.
    eexists. split; [reflexivity|].
    split; [|split; [|split; [|split; [|split; [|split]]]]].
    + unfold wf_cache; simpl. rewrite length_insert.
      repeat split; try assumption.
      apply Forall_wf_insert; [assumption|].
      apply wf_set_insertBlock. assumption.
    + unfold roomy; simpl. apply Forall_insert; [assumption|].
      apply roomy_set_insertBlock; assumption.
    + reflexivity.
    + reflexivity.
    + eexists. simpl. split; [apply list_lookup_insert_eq; assumption|].
      unfold CacheSet.findBlock, CacheSet.insertBlock. simpl.
      rewrite lookup_insert_eq. eauto.
    + intros i Hi. simpl. apply list_lookup_insert_ne. congruence.
    + intros Hc. simpl. apply Forall_insert; [assumption|].
      apply consistent_insertBlock; [|exact Hf].
      rewrite Forall_lookup in Hc. eauto.
Qed.

(** Everything a write event does, on a well-formed hierarchy whose first
    level has no full set, with released nodes that keep their contents. *)
Lemma write_event_spec h a :
  wf_hier h → roomy (L1 h) →
  ∃ s h',
    sets (L1 h) !! indexOf (L1 h) a = Some s ∧
    processLine retains h (wr a) = Some h' ∧
    wf_hier h' ∧ roomy (L1 h') ∧
    L2 h' = L2 h ∧ VC h' = VC h ∧
    geometry (L1 h') = geometry (L1 h) ∧
    (∃ s', sets (L1 h') !! indexOf (L1 h) a = Some s' ∧
           is_Some (CacheSet.findBlock s' (tagFor (L1 h) a))) ∧
    numReads (L1 h') = numReads (L1 h) ∧
    numReadMisses (L1 h') = numReadMisses (L1 h) ∧
    numWrites (L1 h') = numWrites (L1 h) + 1 ∧
    numWriteMisses (L1 h')
    = numWriteMisses (L1 h)
      + match CacheSet.findBlock s (tagFor (L1 h) a) with
        | Some _ => 0
        | None => 1
        end ∧
    numWriteBacks (L1 h') = numWriteBacks (L1 h) ∧
    (Forall consistent (sets (L1 h)) → Forall consistent (sets (L1 h'))).
Proof.
  intros (Hw1 & Hw2 & Hwv) Hroomy.
  assert (wf_cache (Cache.incrWrites (L1 h))) as Hw1'.
  { apply (wf_cache_counters_irrelevant (L1 h)); auto. }
  destruct (accessCache_spec _ a Hw1')
    as (s & r & c1 & Hs & Hr & Hacc & Hwc1 & Hsame & Hcnt & _ & _).
  change (indexOf (Cache.incrWrites (L1 h)) a) with (indexOf (L1 h) a) in *.
  change (tagFor (Cache.incrWrites (L1 h)) a) with (tagFor (L1 h) a) in *.
  change (sets (Cache.incrWrites (L1 h))) with (sets (L1 h)) in *.
  assert (roomy c1) as Hroomy1.
  { apply (roomy_same_but_order (Cache.incrWrites (L1 h))); assumption. }
  set (c2 := match r with Some _ => c1 | None => Cache.incrWriteMisses c1 end).
  assert (wf_cache c2 ∧ roomy c2) as [Hwc2 Hroomy2].
  { subst c2. destruct r; split; assumption. }
  destruct (writeToCache_spec c2 a Hwc2 Hroomy2)
    as (c3 & Hwr & Hwc3 & Hroomy3 & Hcnt3 & Hgeo3 & Hres & _ & Hcons3).
  destruct Hsame as (Hg1 & Hg2 & Hg3 & Hg4 & Hall1).
  simpl in Hg1, Hg2, Hg3, Hg4, Hall1.
  assert (Forall consistent (sets (L1 h)) → Forall consistent (sets c3))
    as Hcons.
  { intros Hc. apply Hcons3.
    assert (sets c2 = sets c1) as -> by (subst c2; destruct r; reflexivity).
    apply (Forall_consistent_reordered (sets (L1 h))); assumption. }
  assert (geometry c2 = geometry (L1 h)) as Hgeo2.
  { subst c2. unfold geometry. destruct r; simpl; congruence. }
  assert (indexOf c2 a = indexOf (L1 h) a ∧ tagFor c2 a = tagFor (L1 h) a)
    as [Hidx Htag].
  { injection Hgeo2 as _ _ Hbs Hns. unfold indexOf, tagFor.
    rewrite Hbs, Hns. split; reflexivity. }
  rewrite Hidx, Htag in Hres.
  exists s. unfold processLine. simpl. rewrite Hacc. simpl.
  fold c2. rewrite Hwr. simpl.
  eexists. split; [exact Hs|]. split; [reflexivity|]. simpl.
  split; [apply wf_hier_intro; assumption|].
  split; [assumption|].
  split; [reflexivity|]. split; [reflexivity|].
  split; [congruence|]. split; [assumption|].
  injection Hcnt as Hc1 Hc2 Hc3 Hc4 Hc5.
  injection Hcnt3 as Hd1 Hd2 Hd3 Hd4 Hd5.
  rewrite <- Hr. subst c2. simpl in *.
  destruct r; simpl in *; repeat split; solve [lia | exact Hcons].
Qed.

(** With released nodes that keep their contents, every trace line is
    processed, and none evicts or counts a write-back, as long as the first
    level started without a full set. *)
Lemma processLine_total h e :
  wf_hier h → roomy (L1 h) →
  ∃ h', processLine retains h e = Some h' ∧ wf_hier h' ∧ roomy (L1 h') ∧
        geometry (L1 h') = geometry (L1 h) ∧
        numWriteBacks (L1 h') = numWriteBacks (L1 h) ∧
        (Forall consistent (sets (L1 h)) → Forall consistent (sets (L1 h'))).
Proof.
  intros Hwf Hroomy. destruct e as [o a].
  destruct (decide (o = "r"%char)) as [->|Hr].
  - destruct (read_event_spec h a Hwf)
      as (s & h' & _ & Hp & Hwf' & Hsame & _ & _ & _ & _ & _ & _ & Hwb & _).
    exists h'. repeat split; try assumption; try apply Hwf'.
    + apply (roomy_same_but_order (L1 h)); assumption.
    + destruct Hsame as (? & ? & ? & ? & _). unfold geometry. congruence.
    + apply Forall_consistent_reordered. apply Hsame.
  - destruct (decide (o = "w"%char)) as [->|Hw].
    + destruct (write_event_spec h a Hwf Hroomy)
        as (s & h' & _ & Hp & Hwf' & Hro' & _ & _ & Hgeo & _ & _ & _ & _ & _
            & Hwb & Hcons).
      exists h'. repeat split; try assumption; apply Hwf'.
    + exists h. unfold processLine. simpl.
      rewrite !decide_False by assumption.
      repeat split; try assumption; solve [apply Hwf | auto].
Qed.

Lemma simulate_total trace : ∀ h,
  wf_hier h → roomy (L1 h) →
  ∃ h', simulateCacheHierarchy retains h trace = Some h' ∧ wf_hier h' ∧
        roomy (L1 h') ∧ geometry (L1 h') = geometry (L1 h) ∧
        numWriteBacks (L1 h') = numWriteBacks (L1 h) ∧
        (Forall consistent (sets (L1 h)) → Forall consistent (sets (L1 h'))).
Proof.
  induction trace as [|e trace IH]; intros h Hwf Hroomy; simpl.
  - exists h. repeat split; auto; apply Hwf.
  - destruct (processLine_total h e Hwf Hroomy)
      as (h1 & Hp & Hwf1 & Hr1 & Hg1 & Hb1 & Hc1).
    rewrite Hp. simpl.
    destruct (IH h1 Hwf1 Hr1) as (h' & Hs & Hwf' & Hr' & Hg' & Hb' & Hc').
    exists h'. repeat split; try assumption; try apply Hwf'; try congruence.
    auto.
Qed.

(** * Construction *)

Lemma length_emplace_back_n n : ∀ l,
  length (emplace_back_n n l) = (n + length l)%nat.
Proof.
  induction n as [|n IH]; intros l; simpl; [reflexivity|].
  rewrite IH, length_app. simpl. lia.
Qed.

Lemma emplace_back_n_empty n : ∀ l,
  Forall (λ x, x.2 = emptyBlock) l →
  Forall (λ x, x.2 = emptyBlock) (emplace_back_n n l).
Proof.
  induction n as [|n IH]; intros l Hall; simpl; [assumption|].
  apply IH. apply Forall_app. split; [assumption|]. repeat constructor.
Qed.

Lemma resident_placeholders (l : nodes) :
  Forall (λ x, x.2 = emptyBlock) l →
  filter (λ b, valid b = true) l.*2 = [].
Proof.
  induction 1 as [|[p b] l Hb _ IH]; [reflexivity|].
  simpl in Hb. subst b. rewrite fmap_cons.
  rewrite filter_cons_False; [assumption|]. simpl. discriminate.
Qed.

Lemma Cache_new_eq size assoc blockSize :
  0 < assoc → 0 < blockSize → assoc * blockSize <= INT_MAX →
  0 <= size <= INT_MAX →
  Cache.new size assoc blockSize
  = Some (mkCache size assoc blockSize (size / (assoc * blockSize))
            (replicate (Z.to_nat (size / (assoc * blockSize)))
               (CacheSet.new assoc))
            0 0 0 0 0).
Proof.
  intros Ha Hb Hmul Hs. unfold Cache.new, int_mul.
  rewrite decide_True by (unfold INT_MIN; nia). simpl.
  rewrite decide_False by nia.
  rewrite Z.quot_div_nonneg by nia.
  rewrite decide_False; [reflexivity|].
  pose proof (Z.div_pos size (assoc * blockSize)).
  pose proof (Z.div_le_upper_bound size (assoc * blockSize) size).
  nia.
Qed.

Lemma Cache_new_wf size assoc blockSize :
  valid_geometry size assoc blockSize →
  ∃ c, Cache.new size assoc blockSize = Some c ∧ wf_cache c ∧ roomy c ∧
       Forall (λ s, blockMap s = ∅) (sets c) ∧
       Forall consistent (sets c) ∧
       counters c = (0, 0, 0, 0, 0).
Proof.
  intros (Ha & Hb & Hle & Hmax).
  rewrite Cache_new_eq by nia. eexists. split; [reflexivity|].
  assert (0 < size / (assoc * blockSize)) as Hpos.
  { apply Z.div_str_pos. nia. }
  pose proof (Z.mul_div_le size (assoc * blockSize)) as Hdiv.
  split; [|split; [|split; [|split]]].
  - unfold wf_cache. simpl. rewrite length_replicate.
    repeat split; try assumption; try nia.
    apply Forall_replicate. unfold wf_set. simpl. apply map_Forall_empty.
  - unfold roomy. simpl. apply Forall_replicate.
    unfold roomy_set. simpl. rewrite map_size_empty, length_emplace_back_n.
    simpl. lia.
  - simpl. apply Forall_replicate. reflexivity.
  - simpl. apply Forall_replicate. apply consistent_new.
  - reflexivity.
Qed.

Lemma build_wf L1_SIZE L1_ASSOC L1_BLOCKSIZE VC_NUM_BLOCKS L2_SIZE L2_ASSOC :
  valid_config L1_SIZE L1_ASSOC L1_BLOCKSIZE VC_NUM_BLOCKS L2_SIZE L2_ASSOC →
  ∃ h0, build L1_SIZE L1_ASSOC L1_BLOCKSIZE VC_NUM_BLOCKS L2_SIZE L2_ASSOC
        = Some h0 ∧
        wf_hier h0 ∧ roomy (L1 h0) ∧ counters (L1 h0) = (0, 0, 0, 0, 0) ∧
        geometry (L1 h0)
        = (L1_SIZE, L1_ASSOC, L1_BLOCKSIZE,
           L1_SIZE / (L1_ASSOC * L1_BLOCKSIZE)) ∧
        Forall consistent (sets (L1 h0)).
Proof.
  intros [Hg1 Hg2].
  destruct (Cache_new_wf _ _ _ Hg1) as (l1 & Hn1 & Hw1 & Hr1 & _ & Hk1 & Hc1).
  assert (geometry l1 = (L1_SIZE, L1_ASSOC, L1_BLOCKSIZE,
                         L1_SIZE / (L1_ASSOC * L1_BLOCKSIZE))) as Hgeo.
  { destruct Hg1 as (? & ? & ? & ?).
    rewrite Cache_new_eq in Hn1 by nia. injection Hn1 as <-. reflexivity. }
  unfold build. rewrite Hn1. simpl.
  destruct (decide (L2_SIZE > 0)) as [Hpos|Hneg].
  - destruct (Cache_new_wf _ _ _ (Hg2 Hpos)) as (l2 & Hn2 & Hw2 & _).
    rewrite Hn2. simpl. eexists. split; [reflexivity|]. simpl.
    split; [|auto].
    apply wf_hier_intro; [assumption|exact Hw2|].
    destruct (decide (VC_NUM_BLOCKS > 0)); simpl; [|exact I].
    unfold wf_set. simpl. apply map_Forall_empty.
  - simpl. eexists. split; [reflexivity|]. simpl.
    split; [|auto].
    apply wf_hier_intro; [assumption|exact I|].
    destruct (decide (VC_NUM_BLOCKS > 0)); simpl; [|exact I].
    unfold wf_set. simpl. apply map_Forall_empty.
Qed.

(** * The second level and the victim buffer during a run *)

Lemma accessCache_empty_miss env c a r c' :
  Forall (λ s, blockMap s = ∅) (sets c) →
  Cache.accessCache env c a = Some (r, c') → r = None ∧ c' = c.
Proof.
  intros Hall. unfold Cache.accessCache.
  destruct (Cache.setIndexOf c a) as [i|]; simpl; [|discriminate].
  destruct (Cache.tagOf c a) as [t|]; simpl; [|discriminate].
  destruct (sets c !! Z.to_nat i) as [s|] eqn:Hs; simpl; [|discriminate].
  rewrite Forall_lookup in Hall. specialize (Hall _ _ Hs).
  unfold CacheSet.findBlock. rewrite Hall, lookup_empty.
  intros [= <- <-]. split; reflexivity.
Qed.

Lemma build_side_empty
    L1_SIZE L1_ASSOC L1_BLOCKSIZE VC_NUM_BLOCKS L2_SIZE L2_ASSOC h0 :
  build L1_SIZE L1_ASSOC L1_BLOCKSIZE VC_NUM_BLOCKS L2_SIZE L2_ASSOC = Some h0 →
  side_empty h0.
Proof.
  unfold build.
  destruct (Cache.new L1_SIZE L1_ASSOC L1_BLOCKSIZE) as [l1|]; simpl;
    [|discriminate].
  assert (∀ l2, Cache.new L2_SIZE L2_ASSOC L1_BLOCKSIZE = Some l2 →
                Forall (λ s, blockMap s = ∅) (sets l2)) as Hnew.
  { intros l2. unfold Cache.new.
    destruct (int_mul L2_ASSOC L1_BLOCKSIZE) as [d|]; simpl; [|discriminate].
    destruct (decide (d = 0)); [discriminate|].
    destruct (decide (Z.quot L2_SIZE d < 0 ∨ INT_MAX < Z.quot L2_SIZE d));
      [discriminate|].
    intros [= <-]. simpl. apply Forall_replicate. reflexivity. }
  destruct (decide (L2_SIZE > 0)).
  - destruct (Cache.new L2_SIZE L2_ASSOC L1_BLOCKSIZE) as [l2|]; simpl;
      [|discriminate].
    intros [= <-]. split; simpl; [auto|].
    destruct (decide (VC_NUM_BLOCKS > 0)); simpl; auto.
  - simpl. intros [= <-]. split; simpl; [auto|].
    destruct (decide (VC_NUM_BLOCKS > 0)); simpl; auto.
Qed.

(** With nothing mapped in them, a trace line leaves the second level and
    the victim buffer exactly as they were, whatever happens in the first
    level and whatever released memory reads as. *)
Lemma processLine_side env h e h' :
  side_empty h → processLine env h e = Some h' → L2 h' = L2 h ∧ VC h' = VC h.
Proof.
  intros [H2 Hv]. unfold processLine.
  destruct (decide (op e = "r"%char)).
  - destruct (Cache.accessCache env _ _) as [[[p|] l1]|]; simpl;
      [| |discriminate].
    + intros [= <-]. auto.
    + destruct (VC h) as [vc|]; simpl in *.
      * unfold VictimCache.findBlock, CacheSet.findBlock.
        rewrite Hv, lookup_empty.
        destruct (L2 h) as [l2|]; simpl in *.
        -- destruct (Cache.accessCache env l2 (address e)) as [[r l2']|] eqn:Hacc;
             simpl; [|discriminate].
           destruct (accessCache_empty_miss _ _ _ _ _ H2 Hacc) as [_ ->].
           intros [= <-]. auto.
        -- intros [= <-]. auto.
      * intros [= <-]. auto.
  - destruct (decide (op e = "w"%char)).
    + destruct (Cache.accessCache env _ _) as [[r l1]|]; simpl; [|discriminate].
      destruct (Cache.writeToCache env _ _); simpl; [|discriminate].
      intros [= <-]. auto.
    + intros [= <-]. auto.
Qed.

Lemma simulate_side env trace : ∀ h h',
  side_empty h → simulateCacheHierarchy env h trace = Some h' →
  L2 h' = L2 h ∧ VC h' = VC h.
Proof.
  induction trace as [|e trace IH]; intros h h' Hside; simpl.
  - intros [= <-]. auto.
  - destruct (processLine env h e) as [h1|] eqn:Hp; simpl; [|discriminate].
    destruct (processLine_side env h e h1 Hside Hp) as [E2 Ev].
    intros Hrun. apply IH in Hrun.
    + destruct Hrun. split; congruence.
    + unfold side_empty. rewrite E2, Ev. exact Hside.
Qed.

(** C9. From the hierarchy that [main] builds, whatever the configuration,
    the trace and what released list nodes read as, the loop leaves the
    second-level cache and the victim buffer exactly as constructed: no tag
    is ever mapped in them, every victim-buffer lookup and every second-level
    access is a miss.  (The statement is over every trace, hence over every
    prefix of a run.)  With positive dimensions and at least one set per
    cache, and released nodes that keep their contents, the run does
    complete. *)
Theorem side_caches_never_filled
    env L1_SIZE L1_ASSOC L1_BLOCKSIZE VC_NUM_BLOCKS L2_SIZE L2_ASSOC trace h0 :
  build L1_SIZE L1_ASSOC L1_BLOCKSIZE VC_NUM_BLOCKS L2_SIZE L2_ASSOC = Some h0 →
  (∀ h, simulateCacheHierarchy env h0 trace = Some h →
        L2 h = L2 h0 ∧ VC h = VC h0 ∧ side_empty h ∧
        (∀ vc a, VC h = Some vc → VictimCache.findBlock vc a = None) ∧
        (∀ l2 a r l2', L2 h = Some l2 →
           Cache.accessCache env l2 a = Some (r, l2') → r = None ∧ l2' = l2)) ∧
  (valid_config L1_SIZE L1_ASSOC L1_BLOCKSIZE VC_NUM_BLOCKS L2_SIZE L2_ASSOC →
   ∃ h, simulateCacheHierarchy retains h0 trace = Some h).
Proof.
  intros Hb. pose proof (build_side_empty _ _ _ _ _ _ _ Hb) as Hside.
  split.
  - intros h Hrun.
    destruct (simulate_side env trace h0 h Hside Hrun) as [E2 Ev].
    assert (side_empty h) as Hside'.
    { unfold side_empty. rewrite E2, Ev. exact Hside. }
    split; [assumption|]. split; [assumption|]. split; [assumption|].
    destruct Hside' as [H2 Hv]. split.
    + intros vc a Hvc. rewrite Hvc in Hv. simpl in Hv.
      unfold VictimCache.findBlock, CacheSet.findBlock.
      rewrite Hv. apply lookup_empty.
    + intros l2 a r l2' Hl2 Hacc. rewrite Hl2 in H2. simpl in H2.
      apply (accessCache_empty_miss _ _ _ _ _ H2 Hacc).
  - intros Hvalid.
    destruct (build_wf _ _ _ _ _ _ Hvalid) as (h0' & Hb' & Hwf & Hroomy & _).
    rewrite Hb in Hb'. injection Hb' as <-.
    destruct (simulate_total trace h0 Hwf Hroomy) as (h & Hrun & _).
    exists h. assumption.
Qed.

Example hWarm_reached :
  (h0 ← build 64 2 32 1 64 1; simulateCacheHierarchy retains h0 [wr 0; wr 0x40])
  = Some hWarm.
Proof. vm_compute. reflexivity. Qed.

Lemma side_caches_never_filled_witness :
  (∃ h, simulateCacheHierarchy (scrambles junk) hWarm
          [rd 0x80; wr 0x0; rd 0x40] = Some h ∧
        L2 h = L2 hWarm ∧ VC h = VC hWarm) ∧
  is_Some (simulateCacheHierarchy retains hWarm [rd 0x80; wr 0x0; rd 0x40]).
Proof.
  pose (start := mkHier (mkCache 64 2 32 1 [CacheSet.new 2] 0 0 0 0 0)
                   (L2 hWarm) (VC hWarm)).
  destruct (simulateCacheHierarchy (scrambles junk) start
              [wr 0x0; wr 0x40; rd 0x80; wr 0x0; rd 0x40]) as [h|] eqn:Hrun;
    [|vm_compute in Hrun; discriminate].
  destruct (side_caches_never_filled (scrambles junk) 64 2 32 1 64 1
              [wr 0x0; wr 0x40; rd 0x80; wr 0x0; rd 0x40] start)
    as [Hinv Htotal].
  - vm_compute. reflexivity.
  - split.
    + exists h. destruct (Hinv h Hrun) as (E2 & Ev & _).
      split; [|split; assumption].
      rewrite <- Hrun. vm_compute. reflexivity.
    + destruct Htotal as [h' Hrun'].
      * unfold valid_config, valid_geometry, INT_MAX. lia.
      * exists h'. rewrite <- Hrun'. vm_compute. reflexivity.
Defined.

(** * Trace lines, whatever released memory reads as *)

Lemma moveToMRU_inv env s p s' :
  CacheSet.moveToMRU env s p = Some s' →
  ∃ b it copy front,
    deref (blocks s) p = Some b ∧ blockMap s !! tag b = Some it ∧
    is_Some (deref (blocks s) it) ∧
    copy = (if decide (p = it) then freed env b else b) ∧
    front = (if reuse env then it else freshNode (blocks s)) ∧
    s' = mkSet ((front, copy) :: erase it (blocks s))
               (<[tag copy := front]> (blockMap s)).
Proof.
  unfold CacheSet.moveToMRU.
  destruct (deref (blocks s) p) as [b|] eqn:Hb; simpl; [|discriminate].
  destruct (blockMap s !! tag b) as [it|] eqn:Hit; simpl; [|discriminate].
  destruct (deref (blocks s) it) as [bi|] eqn:Hbi; simpl; [|discriminate].
  intros [= <-]. exists b, it. do 2 eexists.
  split; [reflexivity|]. split; [assumption|]. split; [eauto|].
  split; [reflexivity|]. split; reflexivity.
Qed.

(** A promotion removes no map entry and no list node. *)
Lemma moveToMRU_keeps env s p s' :
  CacheSet.moveToMRU env s p = Some s' →
  (∀ t, is_Some (blockMap s !! t) → is_Some (blockMap s' !! t)) ∧
  length (blocks s') = length (blocks s).
Proof.
  intros H. apply moveToMRU_inv in H
    as (b & it & copy & front & Hb & Hit & [bi Hbi] & _ & _ & ->).
  split.
  - intros t Ht. simpl. apply lookup_insert_is_Some'. right. assumption.
  - simpl. pose proof (Permutation_length (erase_perm it bi (blocks s) Hbi)) as E.
    simpl in E. exact E.
Qed.

(** What [accessCache] can have done when it returns. *)
Lemma accessCache_inv env c a r c' :
  Cache.accessCache env c a = Some (r, c') →
  ∃ i t s,
    Cache.setIndexOf c a = Some i ∧ Cache.tagOf c a = Some t ∧
    sets c !! Z.to_nat i = Some s ∧ r = CacheSet.findBlock s t ∧
    match r with
    | None => c' = c
    | Some p => ∃ s', CacheSet.moveToMRU env s p = Some s' ∧
                      c' = Cache.with_sets c (<[Z.to_nat i := s']> (sets c))
    end.
Proof.
  unfold Cache.accessCache.
  destruct (Cache.setIndexOf c a) as [i|]; simpl; [|discriminate].
  destruct (Cache.tagOf c a) as [t|]; simpl; [|discriminate].
  destruct (sets c !! Z.to_nat i) as [s|] eqn:Hs; simpl; [|discriminate].
  destruct (CacheSet.findBlock s t) as [p|] eqn:Hf.
  - destruct (CacheSet.moveToMRU env s p) as [s'|] eqn:Hm; simpl; [|discriminate].
    intros [= <- <-]. exists i, t, s. rewrite Hf. eauto 10.
  - intros [= <- <-]. exists i, t, s. rewrite Hf. eauto 10.
Qed.

(** What [writeToCache] can have done when it returns: a hit promotes and
    counts nothing; a miss inserts, after an eviction when [isFull()] says
    so, and only then can a write-back be counted. *)
Lemma writeToCache_inv env c a c' :
  Cache.writeToCache env c a = Some c' →
  ∃ i t s s',
    Cache.setIndexOf c a = Some i ∧ Cache.tagOf c a = Some t ∧
    sets c !! Z.to_nat i = Some s ∧
    sets c' = <[Z.to_nat i := s']> (sets c) ∧
    geometry c' = geometry c ∧ accessCounters c' = accessCounters c ∧
    match CacheSet.findBlock s t with
    | Some p =>
        numWriteBacks c' = numWriteBacks c ∧
        ∃ s1, CacheSet.moveToMRU env s p = Some s1 ∧
              s' = mkSet (storeDirty p (blocks s1)) (blockMap s1)
    | None =>
        if CacheSet.isFull s then
          ∃ lru s1, CacheSet.evictLRU s = Some (lru, s1) ∧
            s' = CacheSet.insertBlock s1 (mkBlock t true true) ∧
            numWriteBacks c'
            = numWriteBacks c + (if dirty (freed env lru) then 1 else 0)
        else
          s' = CacheSet.insertBlock s (mkBlock t true true) ∧
          numWriteBacks c' = numWriteBacks c
    end.
Proof.
  unfold Cache.writeToCache.
  destruct (Cache.setIndexOf c a) as [i|]; simpl; [|discriminate].
  destruct (Cache.tagOf c a) as [t|]; simpl; [|discriminate].
  destruct (sets c !! Z.to_nat i) as [s|] eqn:Hs; simpl; [|discriminate].
  destruct (CacheSet.findBlock s t) as [p|] eqn:Hf.
  - destruct (CacheSet.moveToMRU env s p) as [s1|] eqn:Hm; simpl; [|discriminate].
    intros [= <-]. exists i, t, s. eexists.
    split; [first [reflexivity|eassumption]|]. split; [first [reflexivity|eassumption]|]. split; [first [reflexivity|eassumption]|].
    split; [first [reflexivity|eassumption]|]. split; [first [reflexivity|eassumption]|]. split; [first [reflexivity|eassumption]|].
    rewrite Hf. split; [first [reflexivity|eassumption]|]. eauto.
  - destruct (CacheSet.isFull s) eqn:Hfull.
    + destruct (CacheSet.evictLRU s) as [[lru s1]|] eqn:Hev; simpl;
        [|discriminate].
      intros [= <-]. exists i, t, s. eexists.
      split; [first [reflexivity|eassumption]|]. split; [first [reflexivity|eassumption]|]. split; [first [reflexivity|eassumption]|].
      destruct (dirty (freed env lru)) eqn:Hd; simpl.
      * split; [first [reflexivity|eassumption]|]. split; [first [reflexivity|eassumption]|]. split; [first [reflexivity|eassumption]|].
        rewrite Hf, Hfull. exists lru, s1. rewrite Hd. auto.
      * split; [first [reflexivity|eassumption]|]. split; [first [reflexivity|eassumption]|]. split; [first [reflexivity|eassumption]|].
        rewrite Hf, Hfull. exists lru, s1. rewrite Hd.
        split; [first [reflexivity|eassumption]|]. split; [first [reflexivity|eassumption]|]. lia.
    + intros [= <-]. exists i, t, s. eexists.
      split; [first [reflexivity|eassumption]|]. split; [first [reflexivity|eassumption]|]. split; [first [reflexivity|eassumption]|].
      split; [first [reflexivity|eassumption]|]. split; [first [reflexivity|eassumption]|]. split; [first [reflexivity|eassumption]|].
      rewrite Hf, Hfull. split; reflexivity.
Qed.

(** A read line that returns: the geometry and the write counters of the
    first level are unchanged, [numReads] goes up by one, [numReadMisses] by
    one exactly when the tag is not mapped, and then the first level is
    otherwise untouched; on a hit nothing beyond the first level is
    touched. *)
Lemma read_line_inv env h a h' :
  processLine env h (rd a) = Some h' →
  ∃ i t s,
    Cache.setIndexOf (L1 h) a = Some i ∧ Cache.tagOf (L1 h) a = Some t ∧
    sets (L1 h) !! Z.to_nat i = Some s ∧
    geometry (L1 h') = geometry (L1 h) ∧
    numReads (L1 h') = numReads (L1 h) + 1 ∧
    numWrites (L1 h') = numWrites (L1 h) ∧
    numWriteMisses (L1 h') = numWriteMisses (L1 h) ∧
    numWriteBacks (L1 h') = numWriteBacks (L1 h) ∧
    match CacheSet.findBlock s t with
    | Some p =>
        numReadMisses (L1 h') = numReadMisses (L1 h) ∧
        L2 h' = L2 h ∧ VC h' = VC h ∧
        ∃ s', CacheSet.moveToMRU env s p = Some s' ∧
              sets (L1 h') = <[Z.to_nat i := s']> (sets (L1 h))
    | None =>
        numReadMisses (L1 h') = numReadMisses (L1 h) + 1 ∧
        sets (L1 h') = sets (L1 h)
    end.
Proof.
  unfold processLine. simpl.
  destruct (Cache.accessCache env (Cache.incrReads (L1 h)) a)
    as [[r l1]|] eqn:Hacc; simpl; [|discriminate].
  apply accessCache_inv in Hacc as (i & t & s & Hi & Ht & Hs & Hr & Hc).
  change (Cache.setIndexOf (Cache.incrReads (L1 h)) a)
    with (Cache.setIndexOf (L1 h) a) in Hi.
  change (Cache.tagOf (Cache.incrReads (L1 h)) a)
    with (Cache.tagOf (L1 h) a) in Ht.
  change (sets (Cache.incrReads (L1 h))) with (sets (L1 h)) in *.
  intros Hp. exists i, t, s.
  split; [assumption|]. split; [assumption|]. split; [assumption|].
  rewrite <- Hr. destruct r as [p|].
  - destruct Hc as (s' & Hm & ->). injection Hp as <-. simpl.
    repeat split. eauto.
  - subst l1.
    assert (L1 h' = Cache.incrReadMisses (Cache.incrReads (L1 h))) as ->.
    { destruct (VC h) as [vc|]; [|injection Hp as <-; reflexivity].
      destruct (VictimCache.findBlock vc a) as [vb|].
      - destruct (VictimCache.moveToMRU env vc vb); simpl in Hp; [|discriminate].
        injection Hp as <-. reflexivity.
      - destruct (L2 h) as [l2|]; [|injection Hp as <-; reflexivity].
        destruct (Cache.accessCache env l2 a) as [[r2 l2']|]; simpl in Hp;
          [|discriminate].
        injection Hp as <-. reflexivity. }
    simpl. repeat split.
Qed.

(** A write line that returns: it changes one set of the first level and
    nothing beyond the first level; the geometry and the read counters are
    unchanged, [numWrites] goes up by one, [numWriteMisses] by one exactly
    when the tag is not mapped, and a write-back can be counted only then. *)
Lemma write_line_inv env h a h' :
  processLine env h (wr a) = Some h' →
  ∃ i t s s',
    Cache.setIndexOf (L1 h) a = Some i ∧ Cache.tagOf (L1 h) a = Some t ∧
    sets (L1 h) !! Z.to_nat i = Some s ∧
    sets (L1 h') = <[Z.to_nat i := s']> (sets (L1 h)) ∧
    L2 h' = L2 h ∧ VC h' = VC h ∧
    geometry (L1 h') = geometry (L1 h) ∧
    numReads (L1 h') = numReads (L1 h) ∧
    numReadMisses (L1 h') = numReadMisses (L1 h) ∧
    numWrites (L1 h') = numWrites (L1 h) + 1 ∧
    match CacheSet.findBlock s t with
    | Some _ =>
        numWriteMisses (L1 h') = numWriteMisses (L1 h) ∧
        numWriteBacks (L1 h') = numWriteBacks (L1 h)
    | None =>
        numWriteMisses (L1 h') = numWriteMisses (L1 h) + 1 ∧
        s' = CacheSet.insertBlock
               (if CacheSet.isFull s
                then from_option snd s (CacheSet.evictLRU s) else s)
               (mkBlock t true true) ∧
        numWriteBacks (L1 h')
        = numWriteBacks (L1 h)
          + (if CacheSet.isFull s
             then match CacheSet.evictLRU s with
                  | Some (lru, _) => if dirty (freed env lru) then 1 else 0
                  | None => 0
                  end
             else 0)
    end.
Proof.
  unfold processLine. simpl.
  destruct (Cache.accessCache env (Cache.incrWrites (L1 h)) a)
    as [[r l1]|] eqn:Hacc; simpl; [|discriminate].
  apply accessCache_inv in Hacc as (i & t & s & Hi & Ht & Hs & Hr & Hc).
  change (Cache.setIndexOf (Cache.incrWrites (L1 h)) a)
    with (Cache.setIndexOf (L1 h) a) in Hi.
  change (Cache.tagOf (Cache.incrWrites (L1 h)) a)
    with (Cache.tagOf (L1 h) a) in Ht.
  change (sets (Cache.incrWrites (L1 h))) with (sets (L1 h)) in *.
  assert (Z.to_nat i < length (sets (L1 h)))%nat as Hlt.
  { apply lookup_lt_is_Some. eauto. }
  match goal with
  | |- context [Cache.writeToCache env ?c a] =>
      destruct (Cache.writeToCache env c a) as [l1'|] eqn:Hw
  end; simpl; [|discriminate].
  intros [= <-]. simpl.
  apply writeToCache_inv in Hw
    as (i' & t' & s0 & s' & Hi' & Ht' & Hs0 & Hsets & Hgeo & Hcnt & Hcase).
  exists i, t, s, s'.
  split; [assumption|]. split; [assumption|]. split; [assumption|].
  rewrite <- Hr. destruct r as [p|].
  - destruct Hc as (s1 & Hm & ->).
    change (Cache.setIndexOf (Cache.with_sets _ _) a)
      with (Cache.setIndexOf (L1 h) a) in Hi'.
    change (Cache.tagOf (Cache.with_sets _ _) a)
      with (Cache.tagOf (L1 h) a) in Ht'.
    assert (i' = i) as -> by congruence. assert (t' = t) as -> by congruence.
    simpl in Hs0, Hsets. rewrite list_lookup_insert_eq in Hs0 by assumption.
    injection Hs0 as <-. rewrite list_insert_insert_eq in Hsets.
    split; [assumption|]. split; [reflexivity|]. split; [reflexivity|].
    split; [rewrite Hgeo; reflexivity|].
    injection Hcnt as Hc1 Hc2 Hc3 Hc4. simpl in *.
    split; [assumption|]. split; [assumption|]. split; [assumption|].
    split; [assumption|].
    destruct (moveToMRU_keeps env s p s1 Hm) as [Hkeys _].
    assert (is_Some (CacheSet.findBlock s1 t)) as [p' Hp'].
    { apply Hkeys. unfold CacheSet.findBlock in Hr. rewrite <- Hr. eauto. }
    rewrite Hp' in Hcase. apply Hcase.
  - subst l1.
    change (Cache.setIndexOf (Cache.incrWriteMisses _) a)
      with (Cache.setIndexOf (L1 h) a) in Hi'.
    change (Cache.tagOf (Cache.incrWriteMisses _) a)
      with (Cache.tagOf (L1 h) a) in Ht'.
    assert (i' = i) as -> by congruence. assert (t' = t) as -> by congruence.
    simpl in Hs0, Hsets. assert (s0 = s) as -> by congruence.
    split; [assumption|]. split; [reflexivity|]. split; [reflexivity|].
    split; [rewrite Hgeo; reflexivity|].
    injection Hcnt as Hc1 Hc2 Hc3 Hc4. simpl in *.
    split; [assumption|]. split; [assumption|]. split; [assumption|].
    split; [assumption|].
    rewrite <- Hr in Hcase.
    destruct (CacheSet.isFull s).
    + destruct Hcase as (lru & s1 & -> & -> & ->). simpl. auto.
    + destruct Hcase as [-> ->]. split; [reflexivity|]. lia.
Qed.

(** * Read hits and released nodes *)

(** When released nodes keep their contents and are reused, a read line is
    processed on any well-formed hierarchy and changes, besides the two read
    counters, at most the recency order of one set per level. *)
Lemma read_reorders_when_retained h a :
  wf_hier h →
  ∃ h', processLine retains h (rd a) = Some h' ∧
    Forall2 reordered (sets (L1 h)) (sets (L1 h')) ∧
    option_Forall2 (λ c c', Forall2 reordered (sets c) (sets c'))
      (L2 h) (L2 h') ∧
    option_Forall2 (λ v v', reordered (vcSet v) (vcSet v')) (VC h) (VC h') ∧
    (∀ i s s' p, sets (L1 h) !! i = Some s → sets (L1 h') !! i = Some s' →
       dirty <$> deref (blocks s') p = dirty <$> deref (blocks s) p).
Proof.
  intros Hwf.
  destruct (read_event_spec h a Hwf)
    as (s & h' & Hs & Hp & _ & Hsame & _ & Hmiss & _ & _ & _ & _ & _ & H2 & Hv).
  exists h'. split; [assumption|].
  split; [apply Hsame|].
  split.
  { destruct H2 as [c c' [Hcc _]|]; constructor. apply Hcc. }
  split.
  { destruct Hv as [v v' [_ Hvv]|]; constructor. apply Hvv. }
  intros i s0 s0' p Hi Hi'.
  destruct Hsame as (_ & _ & _ & _ & Hall).
  destruct (Forall2_lookup_lr _ _ _ _ _ _ Hall Hi Hi') as (_ & _ & Hd).
  rewrite Hd. reflexivity.
Qed.

(** C6 on [cache_sim 32 1 32 0 0 0] with the lines [w 0], [r 0], when a
    released list node reads as [junk].  After the write the set holds the
    block of tag 0, one tag is mapped and tag [0xa5] is not found.  The read
    hits, and [moveToMRU] copies the promoted block out of the node it has
    just erased: afterwards the only resident block is [junk], tag [0xa5] is
    mapped beside tag 0 and [isFull()] has become true; a read of address
    [0x14a0] (tag [0xa5]), which no line has written, then hits.  When the
    released node keeps its contents, the same read leaves the block and the
    map as they were. *)
Theorem read_hit_maps_released_tag :
  let probe := λ h : Hierarchy,
    (view h,
     (λ s, (CacheSet.findBlock s 0, CacheSet.findBlock s 0xa5,
            size (blockMap s), CacheSet.isFull s)) <$> sets (L1 h)) in
  probe <$> (h0 ← build 32 1 32 0 0 0;
             simulateCacheHierarchy (scrambles junk) h0 [wr 0x0])
  = Some (((0, 0, 1, 1, 0), [[mkBlock 0 true true]], None, None),
          [(Some 2%nat, None, 1%nat, false)]) ∧
  probe <$> (h0 ← build 32 1 32 0 0 0;
             simulateCacheHierarchy (scrambles junk) h0 [wr 0x0; rd 0x0])
  = Some (((1, 0, 1, 1, 0), [[junk]], None, None),
          [(Some 2%nat, Some 2%nat, 2%nat, true)]) ∧
  probe <$> (h0 ← build 32 1 32 0 0 0;
             simulateCacheHierarchy (scrambles junk) h0
               [wr 0x0; rd 0x0; rd 0x14a0])
  = Some (((2, 0, 1, 1, 0), [[junk]], None, None),
          [(Some 2%nat, Some 2%nat, 2%nat, true)]) ∧
  probe <$> (h0 ← build 32 1 32 0 0 0;
             simulateCacheHierarchy retains h0 [wr 0x0; rd 0x0])
  = Some (((1, 0, 1, 1, 0), [[mkBlock 0 true true]], None, None),
          [(Some 2%nat, None, 1%nat, false)]).
Proof. vm_compute. repeat split; reflexivity. Qed.

(** C10 on [cache_sim 32 1 32 0 0 0] with the lines [w 0], [r 0], when a
    released list node reads as [junkClean].  After the write the node found
    for tag 0 holds a dirty block.  The read hits and leaves the three write
    counters alone, but [moveToMRU] copies the promoted block out of the
    node it has just erased: the node found for tag 0 now holds [junkClean],
    and no resident block is dirty any more.  When the released node keeps
    its contents, the same read leaves the dirty block as it was. *)
Theorem read_hit_rewrites_resident_block :
  let probe := λ h : Hierarchy,
    (view h,
     (λ s, p ← CacheSet.findBlock s 0; deref (blocks s) p) <$> sets (L1 h)) in
  probe <$> (h0 ← build 32 1 32 0 0 0;
             simulateCacheHierarchy (scrambles junkClean) h0 [wr 0x0])
  = Some (((0, 0, 1, 1, 0), [[mkBlock 0 true true]], None, None),
          [Some (mkBlock 0 true true)]) ∧
  probe <$> (h0 ← build 32 1 32 0 0 0;
             simulateCacheHierarchy (scrambles junkClean) h0 [wr 0x0; rd 0x0])
  = Some (((1, 0, 1, 1, 0), [[junkClean]], None, None),
          [Some junkClean]) ∧
  probe <$> (h0 ← build 32 1 32 0 0 0;
             simulateCacheHierarchy retains h0 [wr 0x0; rd 0x0])
  = Some (((1, 0, 1, 1, 0), [[mkBlock 0 true true]], None, None),
          [Some (mkBlock 0 true true)]).
Proof. vm_compute. repeat split; reflexivity. Qed.

(** * The victim buffer *)

Lemma nonempty_same_but_order c c' :
  same_but_order c c' → nonempty c → nonempty c'.
Proof.
  intros (_ & _ & _ & _ & H2) Hn. unfold nonempty in *.
  induction H2 as [|s s' l l' (_ & Hp & _) _ IH]; [constructor|].
  inversion Hn; subst. constructor; [|auto].
  intros E. rewrite E in Hp. symmetry in Hp.
  apply Permutation_nil_r in Hp. auto.
Qed.

Lemma build_VC L1_SIZE L1_ASSOC L1_BLOCKSIZE VC_NUM_BLOCKS L2_SIZE L2_ASSOC h0 :
  build L1_SIZE L1_ASSOC L1_BLOCKSIZE VC_NUM_BLOCKS L2_SIZE L2_ASSOC = Some h0 →
  VC h0 = if decide (VC_NUM_BLOCKS > 0)
          then Some (VictimCache.new VC_NUM_BLOCKS) else None.
Proof.
  unfold build.
  destruct (Cache.new L1_SIZE L1_ASSOC L1_BLOCKSIZE) as [l1|]; simpl;
    [|discriminate].
  destruct (decide (L2_SIZE > 0)).
  - destruct (Cache.new L2_SIZE L2_ASSOC L1_BLOCKSIZE) as [l2|]; simpl;
      [|discriminate].
    intros [= <-]. reflexivity.
  - simpl. intros [= <-]. reflexivity.
Qed.

(** C4, as the code has it.  In every run from the hierarchy that [main]
    builds, whatever released list nodes read as, the victim buffer is the
    one the constructor made: no block is resident in it and every lookup
    misses, for whatever address; and the next line, whether or not it
    evicts from the first level, leaves it so. *)
Theorem victim_buffer_never_receives
    env L1_SIZE L1_ASSOC L1_BLOCKSIZE VC_NUM_BLOCKS L2_SIZE L2_ASSOC trace h0 h :
  build L1_SIZE L1_ASSOC L1_BLOCKSIZE VC_NUM_BLOCKS L2_SIZE L2_ASSOC = Some h0 →
  simulateCacheHierarchy env h0 trace = Some h →
  (∀ vc, VC h = Some vc →
     vc = VictimCache.new VC_NUM_BLOCKS ∧
     CacheSet.resident (vcSet vc) = [] ∧
     ∀ a, VictimCache.findBlock vc a = None) ∧
  (∀ e h', processLine env h e = Some h' → VC h' = VC h).
Proof.
  intros Hb Hrun.
  pose proof (build_side_empty _ _ _ _ _ _ _ Hb) as Hside.
  destruct (simulate_side env trace h0 h Hside Hrun) as [E2 Ev].
  pose proof (build_VC _ _ _ _ _ _ _ Hb) as Hvc0.
  split.
  - intros vc Hvc. rewrite Ev, Hvc0 in Hvc.
    destruct (decide (VC_NUM_BLOCKS > 0)); [|discriminate].
    injection Hvc as <-.
    split; [reflexivity|]. split.
    + unfold CacheSet.resident. simpl. apply resident_placeholders.
      apply emplace_back_n_empty. constructor.
    + intros a. apply lookup_empty.
  - intros e h' Hp.
    assert (side_empty h) as Hside'.
    { unfold side_empty. rewrite E2, Ev. exact Hside. }
    apply (processLine_side env h e h' Hside' Hp).
Qed.

Lemma victim_buffer_never_receives_witness :
  ∃ h0 h,
    build 32 1 32 1 0 0 = Some h0 ∧
    simulateCacheHierarchy (scrambles junk) h0
      [wr 0x0; rd 0x0; wr 0x20; wr 0x40; wr 0x60] = Some h ∧
    numWriteBacks (L1 h) = 3 ∧
    VC h = Some (VictimCache.new 1) ∧
    (∀ a, from_option (λ vc, VictimCache.findBlock vc a) None (VC h) = None).
Proof.
  pose (h0 := mkHier (mkCache 32 1 32 1 [CacheSet.new 1] 0 0 0 0 0) None
                (Some (VictimCache.new 1))).
  destruct (simulateCacheHierarchy (scrambles junk) h0
              [wr 0x0; rd 0x0; wr 0x20; wr 0x40; wr 0x60]) as [h|] eqn:Hrun;
    [|vm_compute in Hrun; discriminate].
  destruct (victim_buffer_never_receives (scrambles junk) 32 1 32 1 0 0
              [wr 0x0; rd 0x0; wr 0x20; wr 0x40; wr 0x60] h0 h)
    as [Hvc _].
  - vm_compute. reflexivity.
  - exact Hrun.
  - exists h0, h. split; [vm_compute; reflexivity|]. split; [exact Hrun|].
    assert (VC h = Some (VictimCache.new 1) ∧ numWriteBacks (L1 h) = 3)
      as [Ev Ewb].
    { vm_compute in Hrun. injection Hrun as <-. split; reflexivity. }
    split; [assumption|]. split; [assumption|].
    intros a. rewrite Ev. simpl.
    destruct (Hvc _ Ev) as (_ & _ & Hmiss). apply Hmiss.
Defined.

(** C4, as stated, fails, on [cache_sim 32 1 32 1 0 0] (one set, one way,
    a one-block victim buffer).  After [w 0] and [w 20] the first level
    holds both blocks: nothing was evicted, the victim buffer is empty, and
    the [r 0] that follows hits in the first level.  In a run that does
    evict (a released node reads as [junk]: the hit of [r 0] makes
    [isFull()] true), [w 60] evicts the dirty block of address [0x20] and
    counts its write-back, yet the victim buffer stays empty and has no
    entry for that address; the [r 20] that follows misses in the first
    level and in the victim buffer, and the block is not back in the first
    level. *)
Lemma evicted_block_skips_victim_buffer :
  view <$> (h0 ← build 32 1 32 1 0 0;
            simulateCacheHierarchy retains h0 [wr 0x0; wr 0x20])
  = Some ((0, 0, 2, 2, 0), [[mkBlock 1 true true; mkBlock 0 true true]],
          None, Some []) ∧
  view <$> (h0 ← build 32 1 32 1 0 0;
            simulateCacheHierarchy retains h0 [wr 0x0; wr 0x20; rd 0x0])
  = Some ((1, 0, 2, 2, 0), [[mkBlock 0 true true; mkBlock 1 true true]],
          None, Some []) ∧
  view <$> (h0 ← build 32 1 32 1 0 0;
            simulateCacheHierarchy (scrambles junk) h0
              [wr 0x0; rd 0x0; wr 0x20; wr 0x40])
  = Some ((1, 0, 3, 3, 2), [[mkBlock 2 true true; mkBlock 1 true true]],
          None, Some []) ∧
  view <$> (h0 ← build 32 1 32 1 0 0;
            simulateCacheHierarchy (scrambles junk) h0
              [wr 0x0; rd 0x0; wr 0x20; wr 0x40; wr 0x60])
  = Some ((1, 0, 4, 4, 3), [[mkBlock 3 true true; mkBlock 2 true true]],
          None, Some []) ∧
  (h0 ← build 32 1 32 1 0 0;
   h ← simulateCacheHierarchy (scrambles junk) h0
          [wr 0x0; rd 0x0; wr 0x20; wr 0x40; wr 0x60];
   v ← VC h; Some (VictimCache.findBlock v 0x20, VictimCache.findBlock v 1))
  = Some (None, None) ∧
  view <$> (h0 ← build 32 1 32 1 0 0;
            simulateCacheHierarchy (scrambles junk) h0
              [wr 0x0; rd 0x0; wr 0x20; wr 0x40; wr 0x60; rd 0x20])
  = Some ((2, 1, 4, 4, 3), [[mkBlock 3 true true; mkBlock 2 true true]],
          None, Some []).
Proof. vm_compute. repeat split; reflexivity. Qed.

(** * The end-to-end scenario *)

(** C7, as stated, fails: the run does not end with reads = 3,
    read misses = 2, writes = 1, write misses = 0. *)
Lemma scenario_counters_not_as_stated :
  (h0 ← build 1024 1 32 0 0 0;
   h ← simulateCacheHierarchy retains h0 scenarioTrace;
   Some (numReads (L1 h), numReadMisses (L1 h),
         numWrites (L1 h), numWriteMisses (L1 h)))
  ≠ Some (3, 2, 1, 0).
Proof. vm_compute. intros [=]. Qed.

(** C7, as the code has it (no line of the trace hits, so that released
    list nodes play no part).  With size 1024, associativity 1 and block size
    32 (32 sets) and no other level, the four lines end with reads = 3,
    read misses = 3, writes = 1, write misses = 1 and no write-back: each read
    misses because no read allocates, and the write misses because the read
    of address 0 before it left the set empty. *)
Theorem scenario_counters env :
  (h0 ← build 1024 1 32 0 0 0; Some (numSets (L1 h0))) = Some 32 ∧
  (h0 ← build 1024 1 32 0 0 0;
   h ← simulateCacheHierarchy env h0 scenarioTrace;
   Some (counters (L1 h)))
  = Some (3, 3, 1, 1, 0).
Proof. vm_compute. split; reflexivity. Qed.

(** * Configuration *)

(** C8, as stated, fails: size 1000 is not a multiple of 1 × 32, yet the
    cache is built with 31 sets, the lines are processed, and
    [size ≠ numSets × assoc × blockSize].  A size of 0 is accepted as well:
    the cache is built with no set, and a run over an empty trace
    completes. *)
Lemma indivisible_size_is_accepted :
  1000 mod (1 * 32) ≠ 0 ∧
  (h0 ← build 1000 1 32 0 0 0;
   h ← simulateCacheHierarchy retains h0 [rd 0x0; wr 0x20];
   Some (geometry (L1 h), counters (L1 h),
         bool_decide (cacheSize (L1 h)
                      = numSets (L1 h) * assoc (L1 h) * blockSize (L1 h))))
  = Some ((1000, 1, 32, 31), (1, 1, 1, 1, 0), false) ∧
  (h0 ← build 0 1 32 0 0 0;
   h ← simulateCacheHierarchy retains h0 [];
   Some (geometry (L1 h)))
  = Some (0, 1, 32, 0).
Proof. vm_compute. split; [intros [=]|split; reflexivity]. Qed.

Lemma rounded_down_new size assoc blockSize :
  valid_geometry size assoc blockSize →
  ∃ c, Cache.new size assoc blockSize = Some c ∧
       rounded_down c size assoc blockSize.
Proof.
  intros (Ha & Hbs & Hle & Hmax).
  rewrite Cache_new_eq by nia. eexists. split; [reflexivity|].
  unfold rounded_down. simpl.
  assert (0 < assoc * blockSize) as Hd by nia.
  pose proof (Z.div_mod size (assoc * blockSize) ltac:(lia)) as Hdm.
  pose proof (Z.mod_pos_bound size (assoc * blockSize) Hd) as Hm.
  assert (0 < size / (assoc * blockSize)) as Hq.
  { apply Z.div_str_pos. lia. }
  split; [reflexivity|]. split; [lia|]. split; [nia|]. split; intros; nia.
Qed.

(** On a cache with no tag mapped and no full set, a line does the same
    whatever released memory reads as: nothing is promoted or evicted. *)
Lemma accessCache_empty_env env env' c a :
  Forall (λ s, blockMap s = ∅) (sets c) →
  Cache.accessCache env c a = Cache.accessCache env' c a.
Proof.
  intros Hall. unfold Cache.accessCache.
  destruct (Cache.setIndexOf c a) as [i|]; simpl; [|reflexivity].
  destruct (Cache.tagOf c a) as [t|]; simpl; [|reflexivity].
  destruct (sets c !! Z.to_nat i) as [s|] eqn:Hs; simpl; [|reflexivity].
  rewrite Forall_lookup in Hall. specialize (Hall _ _ Hs).
  unfold CacheSet.findBlock. rewrite Hall, lookup_empty. reflexivity.
Qed.

Lemma writeToCache_empty_env env env' c a :
  Forall (λ s, blockMap s = ∅) (sets c) → roomy c →
  Cache.writeToCache env c a = Cache.writeToCache env' c a.
Proof.
  intros Hall Hro. unfold Cache.writeToCache.
  destruct (Cache.setIndexOf c a) as [i|]; simpl; [|reflexivity].
  destruct (Cache.tagOf c a) as [t|]; simpl; [|reflexivity].
  destruct (sets c !! Z.to_nat i) as [s|] eqn:Hs; simpl; [|reflexivity].
  rewrite Forall_lookup in Hall. specialize (Hall _ _ Hs).
  unfold roomy in Hro. rewrite Forall_lookup in Hro. specialize (Hro _ _ Hs).
  unfold CacheSet.findBlock. rewrite Hall, lookup_empty.
  rewrite roomy_set_not_full by assumption. reflexivity.
Qed.

Lemma processLine_first env env' h e :
  Forall (λ s, blockMap s = ∅) (sets (L1 h)) → roomy (L1 h) → side_empty h →
  processLine env h e = processLine env' h e.
Proof.
  intros Hall Hro [H2 Hv]. unfold processLine.
  destruct (decide (op e = "r"%char)).
  - rewrite (accessCache_empty_env env env') by exact Hall.
    destruct (Cache.accessCache env' _ _) as [[[p|] l1]|]; simpl;
      [reflexivity| |reflexivity].
    destruct (VC h) as [vc|]; simpl in *; [|reflexivity].
    unfold VictimCache.findBlock, CacheSet.findBlock.
    rewrite Hv, lookup_empty.
    destruct (L2 h) as [l2|]; simpl in *; [|reflexivity].
    rewrite (accessCache_empty_env env env') by exact H2. reflexivity.
  - destruct (decide (op e = "w"%char)); [|reflexivity].
    rewrite (accessCache_empty_env env env') by exact Hall.
    destruct (Cache.accessCache env' _ _) as [[r l1]|] eqn:Hacc; simpl;
      [|reflexivity].
    destruct (accessCache_empty_miss _ (Cache.incrWrites (L1 h)) _ _ _
                Hall Hacc) as [-> ->].
    rewrite (writeToCache_empty_env env env') by assumption. reflexivity.
Qed.

Lemma build_L1_empty L1_SIZE L1_ASSOC L1_BLOCKSIZE VC_NUM_BLOCKS L2_SIZE L2_ASSOC h0 :
  build L1_SIZE L1_ASSOC L1_BLOCKSIZE VC_NUM_BLOCKS L2_SIZE L2_ASSOC = Some h0 →
  Forall (λ s, blockMap s = ∅) (sets (L1 h0)).
Proof.
  unfold build.
  destruct (Cache.new L1_SIZE L1_ASSOC L1_BLOCKSIZE) as [l1|] eqn:Hn; simpl;
    [|discriminate].
  assert (Forall (λ s, blockMap s = ∅) (sets l1)) as Hl1.
  { revert Hn. unfold Cache.new.
    destruct (int_mul L1_ASSOC L1_BLOCKSIZE) as [d|]; simpl; [|discriminate].
    destruct (decide (d = 0)); [discriminate|].
    destruct (decide (Z.quot L1_SIZE d < 0 ∨ INT_MAX < Z.quot L1_SIZE d));
      [discriminate|].
    intros [= <-]. simpl. apply Forall_replicate. reflexivity. }
  destruct (decide (L2_SIZE > 0)).
  - destruct (Cache.new L2_SIZE L2_ASSOC L1_BLOCKSIZE) as [l2|]; simpl;
      [|discriminate].
    intros [= <-]. exact Hl1.
  - simpl. intros [= <-]. exact Hl1.
Qed.

(** The geometry of the first level never changes. *)
Lemma processLine_geometry env h e h' :
  processLine env h e = Some h' → geometry (L1 h') = geometry (L1 h).
Proof.
  destruct e as [o a]. destruct (decide (o = "r"%char)) as [->|Hr].
  - intros Hp. apply read_line_inv in Hp as (i & t & s & _ & _ & _ & Hg & _).
    exact Hg.
  - destruct (decide (o = "w"%char)) as [->|Hw].
    + intros Hp.
      apply write_line_inv in Hp
        as (i & t & s & s' & _ & _ & _ & _ & _ & _ & Hg & _).
      exact Hg.
    + unfold processLine. simpl. rewrite !decide_False by assumption.
      intros [= <-]. reflexivity.
Qed.

Lemma simulate_geometry env trace : ∀ h h',
  simulateCacheHierarchy env h trace = Some h' →
  geometry (L1 h') = geometry (L1 h).
Proof.
  induction trace as [|e trace IH]; intros h h'; simpl.
  - intros [= <-]. reflexivity.
  - destruct (processLine env h e) as [h1|] eqn:Hp; simpl; [|discriminate].
    intros Hrun. rewrite (IH _ _ Hrun). apply (processLine_geometry env h e h1 Hp).
Qed.

(** C8, as the code has it.  Nothing checks the configuration.  With
    positive associativity and block size and a size of at least
    [assoc × blockSize] (and within [int]) for the first level and, when
    [L2_SIZE > 0], for the second level, whatever the victim buffer: each
    cache is built with [numSets = size / (assoc × blockSize)], rounded
    down, so that [numSets × assoc × blockSize ≤ size <
    (numSets + 1) × assoc × blockSize] with equality exactly when the
    division is exact; the first line, whatever it is, is processed; a run
    whose released list nodes keep their contents is processed to the end;
    and in every run the two caches keep that geometry. *)
Theorem numSets_is_truncated_quotient
    env L1_SIZE L1_ASSOC L1_BLOCKSIZE VC_NUM_BLOCKS L2_SIZE L2_ASSOC trace :
  valid_config L1_SIZE L1_ASSOC L1_BLOCKSIZE VC_NUM_BLOCKS L2_SIZE L2_ASSOC →
  ∃ h0,
    build L1_SIZE L1_ASSOC L1_BLOCKSIZE VC_NUM_BLOCKS L2_SIZE L2_ASSOC
    = Some h0 ∧
    rounded_down (L1 h0) L1_SIZE L1_ASSOC L1_BLOCKSIZE ∧
    (if decide (L2_SIZE > 0)
     then ∃ l2, L2 h0 = Some l2 ∧ rounded_down l2 L2_SIZE L2_ASSOC L1_BLOCKSIZE
     else L2 h0 = None) ∧
    (∀ e, is_Some (processLine env h0 e)) ∧
    is_Some (simulateCacheHierarchy retains h0 trace) ∧
    (∀ h, simulateCacheHierarchy env h0 trace = Some h →
          geometry (L1 h) = geometry (L1 h0) ∧ L2 h = L2 h0).
Proof.
  intros Hvalid.
  destruct (build_wf _ _ _ _ _ _ Hvalid) as (h0 & Hb & Hwf & Hro & _).
  exists h0. split; [assumption|].
  pose proof (build_side_empty _ _ _ _ _ _ _ Hb) as Hside.
  pose proof (build_L1_empty _ _ _ _ _ _ _ Hb) as Hempty.
  destruct Hvalid as [Hg1 Hg2].
  assert (rounded_down (L1 h0) L1_SIZE L1_ASSOC L1_BLOCKSIZE
          ∧ if decide (L2_SIZE > 0)
            then ∃ l2, L2 h0 = Some l2
                       ∧ rounded_down l2 L2_SIZE L2_ASSOC L1_BLOCKSIZE
            else L2 h0 = None) as [Hr1 Hr2].
  { revert Hb. unfold build.
    destruct (rounded_down_new _ _ _ Hg1) as (l1 & -> & Hl1). simpl.
    destruct (decide (L2_SIZE > 0)) as [Hpos|Hneg].
    - destruct (rounded_down_new _ _ _ (Hg2 Hpos)) as (l2 & -> & Hl2). simpl.
      intros [= <-]. simpl. eauto.
    - simpl. intros [= <-]. simpl. auto. }
  split; [assumption|]. split; [assumption|].
  split.
  { intros e. rewrite (processLine_first env retains) by assumption.
    destruct (processLine_total h0 e Hwf Hro) as (h1 & -> & _). eauto. }
  split.
  { destruct (simulate_total trace h0 Hwf Hro) as (h & -> & _). eauto. }
  intros h Hrun. split.
  - apply (simulate_geometry env trace h0 h Hrun).
  - apply (simulate_side env trace h0 h Hside Hrun).
Qed.

Lemma numSets_is_truncated_quotient_witness :
  ∃ h0,
    build 1000 1 32 2 100 3 = Some h0 ∧
    numSets (L1 h0) = 31 ∧
    (∃ l2, L2 h0 = Some l2 ∧ numSets l2 = 1) ∧
    is_Some (processLine (scrambles junk) h0 (rd 0x0)) ∧
    is_Some (simulateCacheHierarchy retains h0 scenarioTrace).
Proof.
  destruct (numSets_is_truncated_quotient (scrambles junk) 1000 1 32 2 100 3
              scenarioTrace)
    as (h0 & Hb & (Hg1 & _) & H2 & Hfirst & Hrun & _).
  - unfold valid_config, valid_geometry, INT_MAX. lia.
  - exists h0. split; [assumption|].
    split; [injection Hg1 as _ _ _ ->; reflexivity|].
    split.
    + rewrite decide_True in H2 by lia.
      destruct H2 as (l2 & E & (Hg2 & _)). exists l2. split; [assumption|].
      injection Hg2 as _ _ _ ->. reflexivity.
    + split; [apply Hfirst|exact Hrun].
Defined.

(** * Capacity *)

(** With released nodes that keep their contents, the eviction branch of
    [writeToCache] is never taken in a run: from any hierarchy built with
    positive dimensions, after any trace, no set of the first level is full
    for [isFull()] and no write-back has been counted. *)
Lemma write_backs_stay_zero
    L1_SIZE L1_ASSOC L1_BLOCKSIZE VC_NUM_BLOCKS L2_SIZE L2_ASSOC trace :
  valid_config L1_SIZE L1_ASSOC L1_BLOCKSIZE VC_NUM_BLOCKS L2_SIZE L2_ASSOC →
  ∃ h0 h,
    build L1_SIZE L1_ASSOC L1_BLOCKSIZE VC_NUM_BLOCKS L2_SIZE L2_ASSOC
    = Some h0 ∧
    simulateCacheHierarchy retains h0 trace = Some h ∧
    Forall (λ s, CacheSet.isFull s = false) (sets (L1 h)) ∧
    numWriteBacks (L1 h) = 0.
Proof.
  intros Hvalid.
  destruct (build_wf _ _ _ _ _ _ Hvalid) as (h0 & Hb & Hwf & Hro & Hcnt & _).
  destruct (simulate_total trace h0 Hwf Hro)
    as (h & Hrun & _ & Hro' & _ & Hwb & _).
  exists h0, h. split; [assumption|]. split; [assumption|]. split.
  - unfold roomy in Hro'. eapply Forall_impl; [exact Hro'|].
    intros s. apply roomy_set_not_full.
  - rewrite Hwb. injection Hcnt as _ _ _ _ E. exact E.
Qed.

(** Throughout such a run the list and the map of every set of the first
    level agree in both directions, and no two resident blocks of a set have
    the same tag. *)
Lemma run_keeps_sets_consistent
    L1_SIZE L1_ASSOC L1_BLOCKSIZE VC_NUM_BLOCKS L2_SIZE L2_ASSOC trace :
  valid_config L1_SIZE L1_ASSOC L1_BLOCKSIZE VC_NUM_BLOCKS L2_SIZE L2_ASSOC →
  ∃ h0 h,
    build L1_SIZE L1_ASSOC L1_BLOCKSIZE VC_NUM_BLOCKS L2_SIZE L2_ASSOC
    = Some h0 ∧
    simulateCacheHierarchy retains h0 trace = Some h ∧
    Forall (λ s, wf_set s ∧ consistent s ∧ NoDup (residentTags s))
      (sets (L1 h)).
Proof.
  intros Hvalid.
  destruct (build_wf _ _ _ _ _ _ Hvalid)
    as (h0 & Hb & Hwf & Hro & _ & _ & Hcons).
  destruct (simulate_total trace h0 Hwf Hro)
    as (h & Hrun & Hwf' & _ & _ & _ & Hcons').
  exists h0, h. split; [assumption|]. split; [assumption|].
  specialize (Hcons' Hcons). destruct Hwf' as ((_ & _ & _ & _ & Hall) & _).
  rewrite Forall_forall in *. intros s Hs.
  split; [auto|]. split; [auto|]. apply resident_tags_NoDup. auto.
Qed.

(** The eviction branch itself, in a state where [isFull()] answers true:
    the block at the back of the list leaves, a write-back is counted exactly
    when the released node reads as dirty, and the new block goes to the
    front, valid and dirty. *)
Lemma writeToCache_evicts env c a s rest p lru :
  wf_cache c →
  sets c !! indexOf c a = Some s →
  CacheSet.findBlock s (tagFor c a) = None →
  CacheSet.isFull s = true →
  blocks s = rest ++ [(p, lru)] →
  ∃ c' q,
    Cache.writeToCache env c a = Some c' ∧
    numWriteBacks c'
    = numWriteBacks c + (if dirty (freed env lru) then 1 else 0) ∧
    sets c' !! indexOf c a
    = Some (mkSet ((q, mkBlock (tagFor c a) true true) :: rest)
                  (<[tagFor c a := q]> (delete (tag lru) (blockMap s)))).
Proof.
  intros Hwf Hs Hf Hfull Hbl.
  pose proof Hwf as (Hb & Hn & Hmul & Hlen & Hall).
  assert (indexOf c a < length (sets c))%nat as Hlt.
  { apply lookup_lt_is_Some. eauto. }
  unfold Cache.writeToCache.
  rewrite setIndexOf_eq, tagOf_eq by assumption. simpl.
  fold (indexOf c a) (tagFor c a). rewrite Hs. simpl.
  rewrite Hf, Hfull. unfold CacheSet.evictLRU.
  rewrite Hbl, last_snoc, removelast_last. simpl.
  eexists. exists (freshNode rest). split; [reflexivity|].
  destruct (dirty (freed env lru)); simpl; (split; [lia|]);
    apply list_lookup_insert_eq; assumption.
Qed.

(** C1 on [cache_sim 32 1 32 0 0 0] (one set, one way), whatever released
    list nodes read as (no line of the trace hits).  After [w 0] the set
    holds one resident dirty block, as many as its associativity, and
    [isFull()] answers false.  The write miss of [w 20] then evicts nothing
    and counts no write-back: both blocks are resident afterwards. *)
Theorem write_miss_into_full_set_evicts_nothing env :
  (h0 ← build 32 1 32 0 0 0;
   h1 ← simulateCacheHierarchy env h0 [wr 0x0];
   Some (view h1, assoc (L1 h1), CacheSet.isFull <$> sets (L1 h1)))
  = Some (((0, 0, 1, 1, 0), [[mkBlock 0 true true]], None, None), 1, [false]) ∧
  (h0 ← build 32 1 32 0 0 0;
   h2 ← simulateCacheHierarchy env h0 [wr 0x0; wr 0x20];
   Some (view h2))
  = Some ((0, 0, 2, 2, 0),
          [[mkBlock 1 true true; mkBlock 0 true true]], None, None).
Proof. vm_compute. split; reflexivity. Qed.

(** C3 on a one-way set.  [cache_sim 32 1 32 0 0 0] on the lines [w 0] and
    [w 20] looks up tag 0, finds [isFull()] false and inserts it, then looks
    up tag 1, finds [isFull()] false again and inserts it: the one-way set
    holds two resident blocks.  And evicting from the set that holds the
    single resident block of tag 0 removes the constructor's placeholder node
    and the map entry of tag 0: the resident block stays in the list with no
    entry in the map. *)
Theorem one_way_set_breaks_its_invariant :
  let s0 := CacheSet.new 1 in
  let s1 := CacheSet.insertBlock s0 (mkBlock 0 true true) in
  let s2 := CacheSet.insertBlock s1 (mkBlock 1 true true) in
  (CacheSet.findBlock s0 0, CacheSet.isFull s0) = (None, false) ∧
  CacheSet.resident s1 = [mkBlock 0 true true] ∧
  (CacheSet.findBlock s1 1, CacheSet.isFull s1) = (None, false) ∧
  CacheSet.resident s2 = [mkBlock 1 true true; mkBlock 0 true true] ∧
  (λ r, (r.1, CacheSet.resident r.2, CacheSet.findBlock r.2 0))
    <$> CacheSet.evictLRU s1
  = Some (emptyBlock, [mkBlock 0 true true], None).
Proof. vm_compute. repeat split; reflexivity. Qed.

(** * The second level on a read miss *)

(** C5 on a read of address 0 that misses in the first level, whatever
    released list nodes read as.  With a second level and no victim buffer,
    and also with a victim buffer that misses, every counter of the second
    level is still zero afterwards.  That the
    second level is looked up only below the victim buffer shows on a second
    level with zero sets ([L2_SIZE] 16), where a lookup takes a remainder by
    zero: without a victim buffer the line is processed, with one it is
    not. *)
Theorem second_level_not_counted env :
  view <$> (h0 ← build 32 1 32 0 64 1; simulateCacheHierarchy env h0 [rd 0x0])
  = Some ((1, 1, 0, 0, 0), [[]], Some ((0, 0, 0, 0, 0), [[]; []]), None) ∧
  view <$> (h0 ← build 32 1 32 1 64 1; simulateCacheHierarchy env h0 [rd 0x0])
  = Some ((1, 1, 0, 0, 0), [[]], Some ((0, 0, 0, 0, 0), [[]; []]), Some []) ∧
  view <$> (h0 ← build 32 1 32 0 16 1; simulateCacheHierarchy env h0 [rd 0x0])
  = Some ((1, 1, 0, 0, 0), [[]], Some ((0, 0, 0, 0, 0), []), None) ∧
  is_Some (build 32 1 32 1 16 1) ∧
  (h0 ← build 32 1 32 1 16 1; simulateCacheHierarchy env h0 [rd 0x0]) = None.
Proof. vm_compute. repeat split; try reflexivity. eauto. Qed.

(** * The operations of a set, one by one *)

(** X1.  [CacheSet(assoc)] builds a list of [max(assoc, 0)] placeholder
    nodes with distinct names, all invalid with tag 0, and an empty map: no
    tag is found, no block is resident.  [isFull()] answers true on it exactly
    when [assoc] is not positive, and then there is no node to evict. *)
Theorem CacheSet_new_shape assoc :
  length (blocks (CacheSet.new assoc)) = Z.to_nat assoc ∧
  Forall (λ x, x.2 = emptyBlock) (blocks (CacheSet.new assoc)) ∧
  NoDup (blocks (CacheSet.new assoc)).*1 ∧
  (∀ t, CacheSet.findBlock (CacheSet.new assoc) t = None) ∧
  CacheSet.resident (CacheSet.new assoc) = [] ∧
  (CacheSet.isFull (CacheSet.new assoc) = true ↔ assoc <= 0) ∧
  (assoc <= 0 → CacheSet.evictLRU (CacheSet.new assoc) = None).
Proof.
  assert (length (blocks (CacheSet.new assoc)) = Z.to_nat assoc) as Hlen.
  { simpl. rewrite length_emplace_back_n. simpl. lia. }
  assert (Forall (λ x, x.2 = emptyBlock) (blocks (CacheSet.new assoc))) as Hall.
  { simpl. apply emplace_back_n_empty. constructor. }
  split; [assumption|]. split; [assumption|].
  split; [apply (consistent_new assoc)|].
  split; [intros t; apply lookup_empty|].
  split; [apply resident_placeholders; assumption|].
  split.
  - unfold CacheSet.isFull. rewrite bool_decide_eq_true, Hlen.
    simpl. rewrite map_size_empty. lia.
  - intros Hle. unfold CacheSet.evictLRU.
    destruct (blocks (CacheSet.new assoc)) as [|x l] eqn:E; [reflexivity|].
    simpl in Hlen. lia.
Qed.

Lemma CacheSet_new_shape_witness :
  CacheSet.isFull (CacheSet.new 0) = true ∧
  CacheSet.evictLRU (CacheSet.new 0) = None ∧
  length (blocks (CacheSet.new 4)) = 4%nat.
Proof.
  destruct (CacheSet_new_shape 0) as (_ & _ & _ & _ & _ & Hfull & Hev).
  destruct (CacheSet_new_shape 4) as (Hlen & _).
  split; [apply Hfull; lia|]. split; [apply Hev; lia|]. exact Hlen.
Defined.

(** X2.  [insertBlock] followed by [findBlock]: the tag of the inserted
    block is found, at the node that now heads the list and holds the block;
    the lookup of every other tag is unchanged; no node leaves the list,
    which grows by one, while the map grows by one only if the tag was not
    mapped before (otherwise the node it designated stays in the list,
    shadowed). *)
Theorem insertBlock_findBlock s b :
  let s' := CacheSet.insertBlock s b in
  (∃ p, CacheSet.findBlock s' (tag b) = Some p ∧
        deref (blocks s') p = Some b ∧
        head (blocks s') = Some (p, b) ∧
        p ∉ (blocks s).*1) ∧
  (∀ t, t ≠ tag b → CacheSet.findBlock s' t = CacheSet.findBlock s t) ∧
  blocks s' = (freshNode (blocks s), b) :: blocks s ∧
  size (blockMap s')
  = match CacheSet.findBlock s (tag b) with
    | Some _ => size (blockMap s)
    | None => S (size (blockMap s))
    end.
Proof.
  unfold CacheSet.insertBlock, CacheSet.findBlock. simpl.
  split; [|split; [|split]].
  - exists (freshNode (blocks s)). rewrite lookup_insert_eq.
    rewrite decide_True by reflexivity.
    repeat split. apply freshNode_fresh.
  - intros t Ht. apply lookup_insert_ne. congruence.
  - reflexivity.
  - destruct (blockMap s !! tag b) as [p0|] eqn:E.
    + apply map_size_insert_Some. eauto.
    + apply map_size_insert_None. assumption.
Qed.

Lemma insertBlock_findBlock_witness :
  CacheSet.findBlock (CacheSet.insertBlock warmSet (mkBlock 7 true true)) 2
  = CacheSet.findBlock warmSet 2.
Proof.
  destruct (insertBlock_findBlock warmSet (mkBlock 7 true true))
    as (_ & Hother & _).
  apply Hother. simpl. lia.
Defined.

Lemma erase_head p b l : erase p ((p, b) :: l) = l.
Proof. simpl. rewrite decide_True by reflexivity. reflexivity. Qed.

Lemma length_erase p b l :
  deref l p = Some b → S (length (erase p l)) = length l.
Proof.
  intros H. apply erase_perm in H. apply Permutation_length in H. exact H.
Qed.

(** X3.  [moveToMRU] on the node found for a tag, in a well-formed set,
    whatever released memory reads as: the node found is unlinked, the other
    nodes keep their order, and a new front node holds what the released
    node reads as; the length is unchanged; the map keeps every entry (the
    one of the tag looked up included) and sends the tag read back from the
    released node to the front node, which adds an entry when that tag was
    not mapped.  When the released node reads as the
    block it held and is handed out again, the block is promoted unchanged,
    the map is unchanged, the set stays well formed, and promoting the same
    node again changes nothing. *)
Theorem moveToMRU_promotes env s t p :
  wf_set s → CacheSet.findBlock s t = Some p →
  ∃ b s',
    deref (blocks s) p = Some b ∧ tag b = t ∧
    CacheSet.moveToMRU env s p = Some s' ∧
    blocks s'
    = (if reuse env then p else freshNode (blocks s), freed env b)
        :: erase p (blocks s) ∧
    blockMap s'
    = <[tag (freed env b) := if reuse env then p else freshNode (blocks s)]>
        (blockMap s) ∧
    length (blocks s') = length (blocks s) ∧
    (∀ t', is_Some (blockMap s !! t') → is_Some (blockMap s' !! t')) ∧
    (blockMap s !! tag (freed env b) = None →
     size (blockMap s') = S (size (blockMap s))) ∧
    (freed env b = b → reuse env = true →
     blocks s' = (p, b) :: erase p (blocks s) ∧
     blockMap s' = blockMap s ∧
     wf_set s' ∧
     CacheSet.moveToMRU env s' p = Some s').
Proof.
  intros Hwf Hf. unfold CacheSet.findBlock in Hf.
  destruct (wf_set_lookup s t p Hwf Hf) as (b & Hd & Ht).
  assert (blockMap s !! tag b = Some p) as Hown by (rewrite Ht; exact Hf).
  exists b. eexists. split; [assumption|]. split; [assumption|].
  split; [apply (moveToMRU_own env s p b Hd Hown)|].
  split; [reflexivity|]. split; [reflexivity|].
  split; [simpl; apply (length_erase p b); assumption|].
  split.
  { intros t' Hin. simpl. apply lookup_insert_is_Some'. right. assumption. }
  split.
  - intros Hnew. simpl. apply map_size_insert_None. assumption.
  - intros Hsame Hre. simpl. rewrite Hsame, Hre.
    rewrite insert_id by assumption.
    split; [reflexivity|]. split; [reflexivity|].
    assert (deref ((p, b) :: erase p (blocks s)) p = Some b) as Hd'.
    { simpl. rewrite decide_True by reflexivity. reflexivity. }
    split.
    + intros t' q Hq. cbn [blocks blockMap] in *.
      rewrite (deref_promote p b _ q Hd). apply (Hwf t' q Hq).
    + rewrite (moveToMRU_own env
                 (mkSet ((p, b) :: erase p (blocks s)) (blockMap s)) p b Hd' Hown).
      cbn [blocks blockMap]. rewrite Hsame, Hre, erase_head.
      rewrite insert_id by assumption. reflexivity.
Qed.

Lemma moveToMRU_promotes_witness :
  ∃ s', CacheSet.moveToMRU (scrambles junkClean) warmSet 3%nat = Some s' ∧
        blocks s' = (3%nat, junkClean) :: erase 3%nat (blocks warmSet) ∧
        CacheSet.findBlock s' 0 = Some 3%nat ∧
        CacheSet.findBlock s' 0xa5 = Some 3%nat.
Proof.
  destruct (moveToMRU_promotes (scrambles junkClean) warmSet 0 3%nat)
    as (b & s' & Hd & _ & Hm & Hb & Hmap & _).
  - apply (bool_decide_unpack _). vm_compute. reflexivity.
  - reflexivity.
  - exists s'. split; [assumption|]. split; [exact Hb|].
    unfold CacheSet.findBlock. rewrite Hmap. split; reflexivity.
Defined.

Lemma deref_app l1 l2 p :
  deref (l1 ++ l2) p
  = match deref l1 p with Some b => Some b | None => deref l2 p end.
Proof.
  induction l1 as [|[q b] l1 IH]; simpl; [reflexivity|].
  destruct (decide (p = q)); [reflexivity|assumption].
Qed.

Lemma evictLRU_snoc s rest p lru :
  blocks s = rest ++ [(p, lru)] →
  CacheSet.evictLRU s
  = Some (lru, mkSet rest (delete (tag lru) (blockMap s))).
Proof.
  intros Hbl. unfold CacheSet.evictLRU.
  rewrite Hbl, last_snoc, removelast_last. reflexivity.
Qed.

Lemma evictLRU_wf s rest p lru :
  wf_set s → blocks s = rest ++ [(p, lru)] →
  wf_set (mkSet rest (delete (tag lru) (blockMap s))).
Proof.
  intros Hwf Hbl t q Hlk. simpl in *.
  apply lookup_delete_Some in Hlk as [Hne Hlk].
  specialize (Hwf t q Hlk). simpl in Hwf.
  rewrite Hbl, deref_app in Hwf.
  destruct (deref rest q) as [b|]; [assumption|].
  simpl in Hwf. destruct (decide (q = p)); simpl in Hwf; congruence.
Qed.

Lemma snoc_inv {A} (l : list A) : l = [] ∨ ∃ l' x, l = l' ++ [x].
Proof.
  induction l as [|x l IH] using rev_ind; [left; reflexivity|].
  right. eauto.
Qed.

(** X4.  [evictLRU]: on an empty list there is nothing to return; otherwise
    it returns the block of the last node, removes that node only and erases
    the entry of that block's tag.  A well-formed set stays well formed, the
    evicted tag is no longer found, and every other tag is found as
    before. *)
Theorem evictLRU_spec s :
  (CacheSet.evictLRU s = None ↔ blocks s = []) ∧
  (∀ lru s', CacheSet.evictLRU s = Some (lru, s') →
     (∃ p, blocks s = blocks s' ++ [(p, lru)]) ∧
     blockMap s' = delete (tag lru) (blockMap s) ∧
     CacheSet.findBlock s' (tag lru) = None ∧
     (∀ t, t ≠ tag lru → CacheSet.findBlock s' t = CacheSet.findBlock s t) ∧
     (wf_set s → wf_set s')).
Proof.
  split.
  - unfold CacheSet.evictLRU. split.
    + destruct (last (blocks s)) as [[p b]|] eqn:E; [discriminate|].
      intros _. apply last_None. assumption.
    + intros ->. reflexivity.
  - intros lru s' Hev.
    destruct (snoc_inv (blocks s)) as [E|(rest & [p b] & E)].
    { unfold CacheSet.evictLRU in Hev. rewrite E in Hev. discriminate. }
    rewrite (evictLRU_snoc s rest p b E) in Hev. injection Hev as <- <-.
    simpl. split; [eauto|]. split; [reflexivity|].
    unfold CacheSet.findBlock. simpl.
    split; [apply lookup_delete_eq|].
    split; [intros t Ht; apply lookup_delete_ne; congruence|].
    intros Hwf. apply (evictLRU_wf s rest p b); assumption.
Qed.

Lemma evictLRU_spec_witness :
  ∃ s', CacheSet.evictLRU fullSet = Some (mkBlock 0 true true, s') ∧
        wf_set s' ∧ CacheSet.findBlock s' 0 = None.
Proof.
  destruct (evictLRU_spec fullSet) as [_ Hsome].
  destruct (Hsome (mkBlock 0 true true) (mkSet [] (delete 0 (blockMap fullSet))))
    as (_ & _ & Hgone & _ & Hwf).
  - reflexivity.
  - eexists. split; [reflexivity|]. split; [|exact Hgone].
    apply Hwf. apply (bool_decide_unpack _). vm_compute. reflexivity.
Defined.

(** * Writes into any well-formed cache, full sets included *)

Lemma storeDirty_head p b l :
  storeDirty p ((p, b) :: l) = (p, mkBlock (tag b) (valid b) true) :: l.
Proof. simpl. rewrite decide_True by reflexivity. reflexivity. Qed.

(** What [writeToCache] does to the addressed set, hit or miss, full or
    not, with released nodes that keep their contents. *)
Lemma writeToCache_general c a :
  wf_cache c → nonempty c →
  ∃ s s' c',
    sets c !! indexOf c a = Some s ∧
    Cache.writeToCache retains c a = Some c' ∧
    sets c' = <[indexOf c a := s']> (sets c) ∧
    wf_set s' ∧
    (∃ p b rest, blocks s' = (p, b) :: rest ∧ tag b = tagFor c a ∧
                 dirty b = true ∧
                 blockMap s' !! tagFor c a = Some p ∧
                 (CacheSet.findBlock s (tagFor c a) = None →
                  b = mkBlock (tagFor c a) true true)) ∧
    geometry c' = geometry c ∧
    (numReads c', numReadMisses c', numWrites c', numWriteMisses c')
    = (numReads c, numReadMisses c, numWrites c, numWriteMisses c) ∧
    numWriteBacks c <= numWriteBacks c' <= numWriteBacks c + 1 ∧
    match CacheSet.findBlock s (tagFor c a) with
    | Some _ => numWriteBacks c' = numWriteBacks c ∧
                blockMap s' = blockMap s ∧
                length (blocks s') = length (blocks s)
    | None => CacheSet.isFull s = false →
              numWriteBacks c' = numWriteBacks c ∧
              s' = CacheSet.insertBlock s (mkBlock (tagFor c a) true true)
    end.
Proof.
  intros Hwf Hne. destruct (wf_cache_set c a Hwf) as (s & Hs & Hwfs).
  pose proof Hwf as (Hb & Hn & Hmul & Hlen & Hall).
  assert (blocks s ≠ []) as Hnes.
  { unfold nonempty in Hne. rewrite Forall_lookup in Hne. eauto. }
  exists s. unfold Cache.writeToCache.
  rewrite setIndexOf_eq, tagOf_eq by assumption. simpl.
  fold (indexOf c a) (tagFor c a). rewrite Hs. simpl.
  destruct (CacheSet.findBlock s (tagFor c a)) as [p|] eqn:Hf.
  - (* hit *)
    destruct (moveToMRU_found s _ p Hwfs Hf) as (b & Hd & Ht & Hm).
    pose proof (moveToMRU_reordered s _ p _ Hwfs Hf Hm) as Hr.
    rewrite Hm. cbn [blocks blockMap mbind option_bind].
    rewrite storeDirty_head.
    eexists. eexists. split; [reflexivity|]. split; [reflexivity|].
    split; [reflexivity|]. split.
    { rewrite <- (storeDirty_head p b).
      apply (wf_set_storeDirty p
               (mkSet ((p, b) :: erase p (blocks s)) (blockMap s))).
      apply (wf_set_reordered s); assumption. }
    split.
    { exists p, (mkBlock (tag b) (valid b) true), (erase p (blocks s)).
      split; [reflexivity|]. split; [exact Ht|]. split; [reflexivity|].
      split; [exact Hf|]. discriminate. }
    split; [reflexivity|]. split; [reflexivity|].
    split; [unfold Cache.with_sets; simpl; lia|].
    split; [reflexivity|].
    split; [reflexivity|]. simpl. apply (length_erase p b). assumption.
  - (* miss *)
    destruct (CacheSet.isFull s) eqn:Hfull.
    + destruct (snoc_inv (blocks s)) as [E|(rest & [q lru] & E)];
        [contradiction|].
      rewrite (evictLRU_snoc s rest q lru E). cbn [mbind option_bind].
      eexists. eexists. split; [reflexivity|]. split; [reflexivity|].
      split; [destruct (dirty lru); reflexivity|].
      split.
      { apply wf_set_insertBlock. apply (evictLRU_wf s rest q lru); assumption. }
      split.
      { eexists _, _, _. split; [reflexivity|]. split; [reflexivity|].
        split; [reflexivity|]. split; [|reflexivity].
        simpl. apply lookup_insert_eq. }
      split; [destruct (dirty lru); reflexivity|].
      split; [destruct (dirty lru); reflexivity|].
      split; [unfold Cache.with_sets, Cache.incrWriteBacks;
              destruct (dirty lru); simpl; lia|].
      discriminate.
    + eexists. eexists. split; [reflexivity|]. split; [reflexivity|].
      split; [reflexivity|].
      split; [apply wf_set_insertBlock; assumption|].
      split.
      { eexists _, _, _. split; [reflexivity|]. split; [reflexivity|].
        split; [reflexivity|]. split; [|reflexivity].
        simpl. apply lookup_insert_eq. }
      split; [reflexivity|]. split; [reflexivity|].
      split; [unfold Cache.with_sets; simpl; lia|].
      intros _. split; reflexivity.
Qed.

Lemma with_sets_id c : Cache.with_sets c (sets c) = c.
Proof. destruct c. reflexivity. Qed.

(** What [accessCache] returns, exactly, with released nodes that keep
    their contents. *)
Lemma accessCache_exact c a :
  wf_cache c →
  ∃ s, sets c !! indexOf c a = Some s ∧ wf_set s ∧
    match CacheSet.findBlock s (tagFor c a) with
    | Some p =>
        ∃ b, deref (blocks s) p = Some b ∧ tag b = tagFor c a ∧
             Cache.accessCache retains c a
             = Some (Some p,
                     Cache.with_sets c
                       (<[indexOf c a :=
                            mkSet ((p, b) :: erase p (blocks s)) (blockMap s)]>
                          (sets c)))
    | None => Cache.accessCache retains c a = Some (None, c)
    end.
Proof.
  intros Hwf. destruct (wf_cache_set c a Hwf) as (s & Hs & Hwfs).
  pose proof Hwf as (Hb & Hn & Hmul & Hlen & Hall).
  exists s. split; [assumption|]. split; [assumption|].
  unfold Cache.accessCache.
  rewrite setIndexOf_eq, tagOf_eq by assumption. simpl.
  fold (indexOf c a) (tagFor c a). rewrite Hs. simpl.
  destruct (CacheSet.findBlock s (tagFor c a)) as [p|] eqn:Hf; [|reflexivity].
  destruct (moveToMRU_found s _ p Hwfs Hf) as (b & Hd & Ht & Hm).
  exists b. rewrite Hm. auto.
Qed.

(** Everything a write line does, from any well-formed hierarchy whose
    lists are not empty, with released nodes that keep their contents. *)
Lemma write_event_general h a :
  wf_hier h → nonempty (L1 h) →
  ∃ s s' h',
    sets (L1 h) !! indexOf (L1 h) a = Some s ∧
    processLine retains h (wr a) = Some h' ∧
    sets (L1 h') = <[indexOf (L1 h) a := s']> (sets (L1 h)) ∧
    wf_hier h' ∧ nonempty (L1 h') ∧
    L2 h' = L2 h ∧ VC h' = VC h ∧
    geometry (L1 h') = geometry (L1 h) ∧
    (∃ p b rest, blocks s' = (p, b) :: rest ∧ tag b = tagFor (L1 h) a ∧
                 dirty b = true ∧
                 blockMap s' !! tagFor (L1 h) a = Some p) ∧
    numReads (L1 h') = numReads (L1 h) ∧
    numReadMisses (L1 h') = numReadMisses (L1 h) ∧
    numWrites (L1 h') = numWrites (L1 h) + 1 ∧
    match CacheSet.findBlock s (tagFor (L1 h) a) with
    | Some _ =>
        numWriteMisses (L1 h') = numWriteMisses (L1 h) ∧
        numWriteBacks (L1 h') = numWriteBacks (L1 h) ∧
        blockMap s' = blockMap s ∧
        length (blocks s') = length (blocks s)
    | None =>
        numWriteMisses (L1 h') = numWriteMisses (L1 h) + 1 ∧
        numWriteBacks (L1 h) <= numWriteBacks (L1 h')
          <= numWriteBacks (L1 h) + 1 ∧
        (CacheSet.isFull s = false →
         numWriteBacks (L1 h') = numWriteBacks (L1 h) ∧
         s' = CacheSet.insertBlock s
                (mkBlock (tagFor (L1 h) a) true true))
    end.
Proof.
  intros (Hw1 & Hw2 & Hwv) Hne.
  set (c0 := Cache.incrWrites (L1 h)).
  assert (wf_cache c0) as Hw0 by exact Hw1.
  assert (nonempty c0) as Hne0 by exact Hne.
  destruct (accessCache_exact c0 a Hw0) as (s & Hs & Hwfs & Hacc).
  change (indexOf c0 a) with (indexOf (L1 h) a) in *.
  change (tagFor c0 a) with (tagFor (L1 h) a) in *.
  change (sets c0) with (sets (L1 h)) in *.
  assert (indexOf (L1 h) a < length (sets (L1 h)))%nat as Hlt.
  { apply lookup_lt_is_Some. eauto. }
  exists s. unfold processLine. simpl. fold c0.
  destruct (CacheSet.findBlock s (tagFor (L1 h) a)) as [p|] eqn:Hf.
  - (* the classifying access hits *)
    destruct Hacc as (b & Hd & Ht & Hacc).
    set (s1 := mkSet ((p, b) :: erase p (blocks s)) (blockMap s)) in *.
    set (c1 := Cache.with_sets c0 (<[indexOf (L1 h) a := s1]> (sets (L1 h))))
      in *.
    assert (reordered s s1) as Hr.
    { repeat split; simpl; [apply erase_perm; assumption|].
      intros q. apply (deref_promote p b (blocks s) q Hd). }
    assert (wf_cache c1) as Hwc1.
    { destruct Hw1 as (? & ? & ? & ? & ?).
      unfold wf_cache; simpl. rewrite length_insert.
      repeat split; try assumption.
      apply Forall_insert; [assumption|].
      apply (wf_set_reordered s); assumption. }
    assert (nonempty c1) as Hne1.
    { unfold nonempty; simpl. apply Forall_insert; [assumption|]. discriminate. }
    destruct (writeToCache_general c1 a Hwc1 Hne1)
      as (s2 & s' & c3 & Hs2 & Hwr & Hsets3 & Hwfs' & Hfront & Hgeo & Hcnt
          & Hwb & Hmatch).
    change (indexOf c1 a) with (indexOf (L1 h) a) in *.
    change (tagFor c1 a) with (tagFor (L1 h) a) in *.
    assert (s2 = s1) as ->.
    { simpl in Hs2. rewrite list_lookup_insert_eq in Hs2 by assumption.
      congruence. }
    assert (CacheSet.findBlock s1 (tagFor (L1 h) a) = Some p) as Hf1
      by exact Hf.
    rewrite Hf1 in Hmatch. destruct Hmatch as (Hwb' & Hmap & Hlen).
    rewrite Hacc. simpl. rewrite Hwr. simpl.
    exists s'. eexists. split; [exact Hs|]. split; [reflexivity|].
    simpl in Hsets3. rewrite list_insert_insert_eq in Hsets3.
    pose proof Hwc1 as (_ & _ & _ & Hlen1 & Hall1).
    assert (wf_cache c3 ∧ nonempty c3) as [Hwc3 Hne3].
    { injection Hgeo as _ _ Hbs Hns. destruct Hw1 as (? & ? & ? & ? & ?).
      split.
      - unfold wf_cache. rewrite Hbs, Hns, Hsets3, length_insert. simpl.
        repeat split; try assumption.
        apply Forall_insert; assumption.
      - unfold nonempty. rewrite Hsets3. apply Forall_insert; [assumption|].
        destruct Hfront as (? & ? & ? & -> & _). discriminate. }
    simpl. split; [assumption|].
    split; [apply wf_hier_intro; assumption|].
    split; [assumption|]. split; [reflexivity|]. split; [reflexivity|].
    split; [rewrite Hgeo; reflexivity|].
    split.
    { destruct Hfront as (q & b' & rest & ? & ? & ? & ? & _).
      exists q, b', rest. auto. }
    injection Hcnt as Hc1 Hc2 Hc3 Hc4.
    simpl in Hc1, Hc2, Hc3, Hc4, Hwb', Hmap, Hlen.
    repeat split; try assumption; try lia.
    rewrite Hlen. simpl. apply (length_erase p b). assumption.
  - (* the classifying access misses *)
    rewrite Hacc. simpl.
    set (c2 := Cache.incrWriteMisses c0).
    assert (wf_cache c2) as Hwc2 by exact Hw1.
    assert (nonempty c2) as Hne2 by exact Hne.
    destruct (writeToCache_general c2 a Hwc2 Hne2)
      as (s2 & s' & c3 & Hs2 & Hwr & Hsets3 & Hwfs' & Hfront & Hgeo & Hcnt
          & Hwb & Hmatch).
    change (indexOf c2 a) with (indexOf (L1 h) a) in *.
    change (tagFor c2 a) with (tagFor (L1 h) a) in *.
    change (sets c2) with (sets (L1 h)) in *.
    assert (s2 = s) as -> by congruence.
    rewrite Hf in Hmatch, Hfront.
    rewrite Hwr. simpl.
    exists s'. eexists. split; [exact Hs|]. split; [reflexivity|].
    assert (wf_cache c3 ∧ nonempty c3) as [Hwc3 Hne3].
    { injection Hgeo as _ _ Hbs Hns. destruct Hw1 as (? & ? & ? & ? & ?).
      split.
      - unfold wf_cache. rewrite Hbs, Hns, Hsets3, length_insert. simpl.
        repeat split; try assumption.
        apply Forall_insert; assumption.
      - unfold nonempty. rewrite Hsets3. apply Forall_insert; [assumption|].
        destruct Hfront as (? & ? & ? & -> & _). discriminate. }
    simpl. split; [assumption|].
    split; [apply wf_hier_intro; assumption|].
    split; [assumption|]. split; [reflexivity|]. split; [reflexivity|].
    split; [rewrite Hgeo; reflexivity|].
    split.
    { destruct Hfront as (q & b' & rest & ? & ? & ? & ? & _).
      exists q, b', rest. auto. }
    injection Hcnt as Hc1 Hc2 Hc3 Hc4.
    simpl in Hc1, Hc2, Hc3, Hc4, Hwb.
    repeat split; try assumption; try lia; apply Hmatch; assumption.
Qed.

(** * Hits, whatever released memory reads as *)

Lemma wf_set_linked s : wf_set s → linked s.
Proof.
  intros Hwf t p Htp.
  destruct (wf_set_lookup s t p Hwf Htp) as (b & Hb & Ht).
  exists b. split; [assumption|]. rewrite Ht. eauto.
Qed.

(** In a linked set, with released nodes handed out again, promoting the
    node found for a tag succeeds whatever the released node reads as; the
    set stays linked and the tag stays mapped. *)
Lemma moveToMRU_linked env s t p :
  reuse env = true → linked s → blockMap s !! t = Some p →
  ∃ s', CacheSet.moveToMRU env s p = Some s' ∧ linked s' ∧
        is_Some (blockMap s' !! t) ∧
        length (blocks s') = length (blocks s).
Proof.
  intros Hre Hl Htp.
  destruct (Hl t p Htp) as (b & Hb & [q Hq]).
  destruct (Hl (tag b) q Hq) as (bq & Hbq & _).
  unfold CacheSet.moveToMRU. rewrite Hb. simpl. rewrite Hq. simpl.
  rewrite Hbq. simpl. rewrite Hre.
  set (copy := if decide (p = q) then freed env b else b).
  eexists. split; [reflexivity|]. split; [|split].
  - intros k r Hkr. cbn [blocks blockMap] in *.
    assert (∀ r', r' ≠ q →
              deref ((q, copy) :: erase q (blocks s)) r' = deref (blocks s) r')
      as Hother.
    { intros r' Hne. simpl. rewrite decide_False by assumption.
      apply deref_erase_ne. assumption. }
    assert (deref ((q, copy) :: erase q (blocks s)) q = Some copy) as Hfront.
    { simpl. rewrite decide_True by reflexivity. reflexivity. }
    destruct (decide (r = q)) as [->|Hrq].
    + exists copy. split; [assumption|]. rewrite lookup_insert_eq. eauto.
    + apply lookup_insert_Some in Hkr as [[_ <-]|[_ Hkr]]; [contradiction|].
      destruct (Hl k r Hkr) as (br & Hbr & Hin).
      exists br. rewrite Hother by assumption. split; [assumption|].
      apply lookup_insert_is_Some'. right. assumption.
  - simpl. apply lookup_insert_is_Some'. right. eauto.
  - simpl. apply (length_erase q bq). assumption.
Qed.

Lemma linked_storeDirty p s :
  linked s → linked (mkSet (storeDirty p (blocks s)) (blockMap s)).
Proof.
  intros Hl k r Hkr. cbn [blocks blockMap] in *.
  destruct (Hl k r Hkr) as (b & Hb & Hin).
  pose proof (deref_storeDirty_tag p (blocks s) r) as Ht. rewrite Hb in Ht.
  destruct (deref (storeDirty p (blocks s)) r) as [b'|]; [|discriminate].
  simpl in Ht. injection Ht as Ht. exists b'. split; [reflexivity|].
  rewrite Ht. assumption.
Qed.

Section Hits.

Variable env : Env.
Hypothesis Hreuse : reuse env = true.
Variable c : Cache.
Hypothesis Hb : 0 < blockSize c.
Hypothesis Hn : 0 < numSets c.
Hypothesis Hmul : blockSize c * numSets c <= INT_MAX.
Variables (a : Z) (s : CacheSet) (p : node).
Hypothesis Hs : sets c !! indexOf c a = Some s.
Hypothesis Hl : linked s.
Hypothesis Hf : blockMap s !! tagFor c a = Some p.

Lemma accessCache_linked :
  ∃ s', Cache.accessCache env c a
        = Some (Some p,
                Cache.with_sets c (<[indexOf c a := s']> (sets c))) ∧
        linked s' ∧ is_Some (blockMap s' !! tagFor c a) ∧
        length (blocks s') = length (blocks s).
Proof.
  destruct (moveToMRU_linked env s _ p Hreuse Hl Hf) as (s' & Hm & Hl' & Hin & Hlen).
  exists s'. split; [|auto].
  unfold Cache.accessCache.
  rewrite setIndexOf_eq, tagOf_eq by assumption. simpl.
  fold (indexOf c a) (tagFor c a). rewrite Hs. simpl.
  unfold CacheSet.findBlock. rewrite Hf, Hm. reflexivity.
Qed.

Lemma writeToCache_linked :
  ∃ s', Cache.writeToCache env c a
        = Some (Cache.with_sets c (<[indexOf c a := s']> (sets c))) ∧
        linked s' ∧ is_Some (blockMap s' !! tagFor c a) ∧
        length (blocks s') = length (blocks s).
Proof.
  destruct (moveToMRU_linked env s _ p Hreuse Hl Hf) as (s' & Hm & Hl' & Hin & Hlen).
  exists (mkSet (storeDirty p (blocks s')) (blockMap s')).
  split; [|split; [apply linked_storeDirty; assumption|split; [exact Hin|]]].
  - unfold Cache.writeToCache.
    rewrite setIndexOf_eq, tagOf_eq by assumption. simpl.
    fold (indexOf c a) (tagFor c a). rewrite Hs. simpl.
    unfold CacheSet.findBlock. rewrite Hf, Hm. reflexivity.
  - simpl. rewrite length_storeDirty. assumption.
Qed.

End Hits.

(** A read line whose tag is mapped in a linked set: it is processed, counts
    no miss and touches nothing beyond the first level. *)
Lemma read_hit_linked env h a s p :
  reuse env = true →
  0 < blockSize (L1 h) → 0 < numSets (L1 h) →
  blockSize (L1 h) * numSets (L1 h) <= INT_MAX →
  sets (L1 h) !! indexOf (L1 h) a = Some s → linked s →
  blockMap s !! tagFor (L1 h) a = Some p →
  ∃ l1, processLine env h (rd a) = Some (mkHier l1 (L2 h) (VC h)) ∧
        numReadMisses l1 = numReadMisses (L1 h).
Proof.
  intros Hre Hb Hn Hmul Hs Hl Hf.
  destruct (accessCache_linked env Hre (Cache.incrReads (L1 h)) Hb Hn Hmul
              a s p Hs Hl Hf) as (s' & Hacc & _).
  unfold processLine. simpl. rewrite Hacc. simpl.
  eexists. split; reflexivity.
Qed.

(** A write line whose tag is mapped in a linked set: it is processed,
    counts neither a miss nor a write-back, and leaves the addressed set
    linked with the tag mapped. *)
Lemma write_hit_linked env h a s p :
  reuse env = true →
  0 < blockSize (L1 h) → 0 < numSets (L1 h) →
  blockSize (L1 h) * numSets (L1 h) <= INT_MAX →
  sets (L1 h) !! indexOf (L1 h) a = Some s → linked s →
  blockMap s !! tagFor (L1 h) a = Some p →
  ∃ l1 s',
    processLine env h (wr a) = Some (mkHier l1 (L2 h) (VC h)) ∧
    geometry l1 = geometry (L1 h) ∧
    sets l1 = <[indexOf (L1 h) a := s']> (sets (L1 h)) ∧
    linked s' ∧ is_Some (blockMap s' !! tagFor (L1 h) a) ∧
    length (blocks s') = length (blocks s) ∧
    numWriteMisses l1 = numWriteMisses (L1 h) ∧
    numWriteBacks l1 = numWriteBacks (L1 h).
Proof.
  intros Hre Hb Hn Hmul Hs Hl Hf.
  assert (indexOf (L1 h) a < length (sets (L1 h)))%nat as Hlt.
  { apply lookup_lt_is_Some. eauto. }
  destruct (accessCache_linked env Hre (Cache.incrWrites (L1 h)) Hb Hn Hmul
              a s p Hs Hl Hf) as (s1 & Hacc & Hl1 & [p1 Hf1] & Hlen1).
  change (indexOf (Cache.incrWrites (L1 h)) a) with (indexOf (L1 h) a) in *.
  change (tagFor (Cache.incrWrites (L1 h)) a) with (tagFor (L1 h) a) in *.
  change (sets (Cache.incrWrites (L1 h))) with (sets (L1 h)) in *.
  set (c1 := Cache.with_sets (Cache.incrWrites (L1 h))
               (<[indexOf (L1 h) a := s1]> (sets (L1 h)))) in *.
  assert (sets c1 !! indexOf c1 a = Some s1) as Hs1.
  { subst c1. simpl. apply list_lookup_insert_eq. assumption. }
  destruct (writeToCache_linked env Hre c1 Hb Hn Hmul a s1 p1 Hs1 Hl1 Hf1)
    as (s2 & Hwr & Hl2 & Hin2 & Hlen2).
  unfold processLine. simpl. rewrite Hacc. simpl. rewrite Hwr. simpl.
  eexists. exists s2. split; [reflexivity|]. simpl.
  split; [reflexivity|].
  split; [apply list_insert_insert_eq|].
  split; [assumption|]. split; [assumption|].
  split; [congruence|]. split; reflexivity.
Qed.

(** A write line whose tag is not mapped, in a well-formed set with a node
    to evict: it is processed, whatever the evicted node reads as, and
    leaves the addressed set well formed with the tag mapped to a new front
    node that holds a valid dirty block. *)
Lemma write_miss_wf env h a s :
  0 < blockSize (L1 h) → 0 < numSets (L1 h) →
  blockSize (L1 h) * numSets (L1 h) <= INT_MAX →
  sets (L1 h) !! indexOf (L1 h) a = Some s → wf_set s → blocks s ≠ [] →
  blockMap s !! tagFor (L1 h) a = None →
  ∃ l1 s' p rest,
    processLine env h (wr a) = Some (mkHier l1 (L2 h) (VC h)) ∧
    geometry l1 = geometry (L1 h) ∧
    sets l1 = <[indexOf (L1 h) a := s']> (sets (L1 h)) ∧
    wf_set s' ∧
    blocks s' = (p, mkBlock (tagFor (L1 h) a) true true) :: rest ∧
    blockMap s' !! tagFor (L1 h) a = Some p.
Proof.
  intros Hb Hn Hmul Hs Hwf Hne Hf.
  unfold processLine, Cache.accessCache. simpl.
  rewrite (setIndexOf_eq (Cache.incrWrites (L1 h))),
    (tagOf_eq (Cache.incrWrites (L1 h))) by assumption.
  simpl. fold (indexOf (L1 h) a) (tagFor (L1 h) a). rewrite Hs. simpl.
  unfold CacheSet.findBlock at 1. rewrite Hf. simpl.
  unfold Cache.writeToCache.
  rewrite (setIndexOf_eq (Cache.incrWriteMisses (Cache.incrWrites (L1 h)))),
    (tagOf_eq (Cache.incrWriteMisses (Cache.incrWrites (L1 h))))
    by assumption.
  simpl. fold (indexOf (L1 h) a) (tagFor (L1 h) a). rewrite Hs. simpl.
  unfold CacheSet.findBlock. rewrite Hf.
  destruct (CacheSet.isFull s).
  - destruct (snoc_inv (blocks s)) as [E|(rest & [q lru] & E)];
      [contradiction|].
    rewrite (evictLRU_snoc s rest q lru E). cbn [mbind option_bind].
    pose proof (evictLRU_wf s rest q lru Hwf E) as Hwf'.
    destruct (dirty (freed env lru)); simpl;
      (eexists; eexists; eexists; eexists;
       split; [reflexivity|]; simpl;
       split; [reflexivity|]; split; [reflexivity|];
       split; [apply wf_set_insertBlock; exact Hwf'|];
       split; [reflexivity|]; simpl; apply lookup_insert_eq).
  - simpl. eexists. eexists. eexists. eexists.
    split; [reflexivity|]. simpl.
    split; [reflexivity|]. split; [reflexivity|].
    split; [apply wf_set_insertBlock; exact Hwf|].
    split; [reflexivity|]. simpl. apply lookup_insert_eq.
Qed.

(** [accessCache] returns on every well-formed cache, whatever a released
    node reads as, when released nodes are handed out again. *)
Lemma accessCache_returns env c a :
  reuse env = true → wf_cache c → is_Some (Cache.accessCache env c a).
Proof.
  intros Hre Hwf. destruct (wf_cache_set c a Hwf) as (s & Hs & Hwfs).
  pose proof Hwf as (Hb & Hn & Hmul & Hlen & Hall).
  destruct (blockMap s !! tagFor c a) as [p|] eqn:Hf.
  - destruct (accessCache_linked env Hre c Hb Hn Hmul a s p Hs
                (wf_set_linked s Hwfs) Hf) as (s' & -> & _). eauto.
  - unfold Cache.accessCache.
    rewrite setIndexOf_eq, tagOf_eq by assumption. simpl.
    fold (indexOf c a) (tagFor c a). rewrite Hs. simpl.
    unfold CacheSet.findBlock. rewrite Hf. eauto.
Qed.

(** One line, from any well-formed hierarchy with no empty list, whatever a
    released node reads as: the line is processed. *)
Lemma processLine_returns env h e :
  reuse env = true → wf_hier h → nonempty (L1 h) →
  is_Some (processLine env h e).
Proof.
  intros Hre (Hw1 & Hw2 & Hwv) Hne. destruct e as [o a].
  pose proof Hw1 as (Hb & Hn & Hmul & Hlen & Hall).
  destruct (wf_cache_set (L1 h) a Hw1) as (s & Hs & Hwfs).
  destruct (decide (o = "r"%char)) as [->|Hr].
  - destruct (accessCache_returns env (Cache.incrReads (L1 h)) a Hre Hw1)
      as [[r l1] Hacc].
    unfold processLine. simpl. rewrite Hacc. simpl.
    destruct r as [p|]; [eauto|].
    destruct (VC h) as [vc|]; [|eauto].
    destruct (VictimCache.findBlock vc a) as [vb|] eqn:Hvf.
    + simpl in Hwv. unfold VictimCache.findBlock, CacheSet.findBlock in Hvf.
      destruct (moveToMRU_linked env (vcSet vc) _ vb Hre
                  (wf_set_linked _ Hwv) Hvf) as (s' & Hm & _).
      unfold VictimCache.moveToMRU. rewrite Hm. simpl. eauto.
    + destruct (L2 h) as [l2|]; [|eauto].
      simpl in Hw2.
      destruct (accessCache_returns env l2 a Hre Hw2) as [[r2 l2'] ->].
      simpl. eauto.
  - destruct (decide (o = "w"%char)) as [->|Hw].
    + assert (blocks s ≠ []) as Hnes.
      { unfold nonempty in Hne. rewrite Forall_lookup in Hne. eauto. }
      change {| op := "w"; address := a |} with (wr a).
      destruct (blockMap s !! tagFor (L1 h) a) as [p|] eqn:Hf.
      * destruct (write_hit_linked env h a s p Hre Hb Hn Hmul Hs
                    (wf_set_linked s Hwfs) Hf) as (l1 & s' & -> & _). eauto.
      * destruct (write_miss_wf env h a s Hb Hn Hmul Hs Hwfs Hnes Hf)
          as (l1 & s' & q & rest & -> & _). eauto.
    + unfold processLine. simpl. rewrite !decide_False by assumption. eauto.
Qed.

Lemma countOp_cons o e trace :
  countOp o (e :: trace)
  = (if decide (op e = o) then 1 else 0) + countOp o trace.
Proof.
  unfold countOp. rewrite filter_cons.
  destruct (decide (op e = o)); simpl length; lia.
Qed.

Lemma countOp_nonneg o trace : 0 <= countOp o trace.
Proof. unfold countOp. lia. Qed.

(** The counters after one line that is processed, whatever a released node
    reads as. *)
Lemma processLine_accounted env h e h' :
  processLine env h e = Some h' → accounted (L1 h) (L1 h') [e].
Proof.
  destruct e as [o a]. unfold accounted.
  rewrite !countOp_cons. unfold countOp. simpl.
  destruct (decide (o = "r"%char)) as [->|Hr].
  - intros Hp.
    apply read_line_inv in Hp
      as (i & t & s & _ & _ & _ & _ & Hrd & Hw & Hwm & Hwb & Hcase).
    rewrite decide_False by discriminate.
    destruct (CacheSet.findBlock s t).
    + destruct Hcase as (Hrm & _). repeat split; lia.
    + destruct Hcase as (Hrm & _). repeat split; lia.
  - destruct (decide (o = "w"%char)) as [->|Hw].
    + intros Hp.
      apply write_line_inv in Hp
        as (i & t & s & s' & _ & _ & _ & _ & _ & _ & _ & Hrd & Hrm & Hwr & Hcase).
      destruct (CacheSet.findBlock s t).
      * destruct Hcase as (Hwm & Hwb). repeat split; lia.
      * destruct Hcase as (Hwm & _ & Hwb).
        destruct (CacheSet.isFull s);
          [destruct (CacheSet.evictLRU s) as [[lru s1]|];
           [destruct (dirty (freed env lru))|]|];
          repeat split; lia.
    + unfold processLine. simpl. rewrite !decide_False by assumption.
      intros [= <-]. repeat split; lia.
Qed.

Lemma simulate_accounted env trace : ∀ h h',
  simulateCacheHierarchy env h trace = Some h' →
  accounted (L1 h) (L1 h') trace.
Proof.
  induction trace as [|e trace IH]; intros h h'; simpl.
  - intros [= <-]. unfold accounted, countOp. simpl. repeat split; lia.
  - destruct (processLine env h e) as [h1|] eqn:Hp; simpl; [|discriminate].
    intros Hrun. apply IH in Hrun.
    apply processLine_accounted in Hp.
    unfold accounted in *.
    rewrite (countOp_cons "r" e trace), (countOp_cons "w" e trace).
    rewrite (countOp_cons "r" e []), (countOp_cons "w" e []) in Hp.
    change (countOp "r" []) with 0 in Hp. change (countOp "w" []) with 0 in Hp.
    repeat split; lia.
Qed.

(** * Runs from any well-formed state *)

(** One line, from any well-formed hierarchy with no empty list, with
    released nodes that keep their contents: it is processed, the invariants
    are kept, and the counters move as the line says. *)
Lemma processLine_safe h e :
  wf_hier h → nonempty (L1 h) →
  ∃ h', processLine retains h e = Some h' ∧ wf_hier h' ∧ nonempty (L1 h') ∧
    geometry (L1 h') = geometry (L1 h) ∧
    numReads (L1 h') = numReads (L1 h) + countOp "r" [e] ∧
    numWrites (L1 h') = numWrites (L1 h) + countOp "w" [e] ∧
    numReadMisses (L1 h) <= numReadMisses (L1 h')
      <= numReadMisses (L1 h) + countOp "r" [e] ∧
    numWriteMisses (L1 h) <= numWriteMisses (L1 h')
      <= numWriteMisses (L1 h) + countOp "w" [e] ∧
    0 <= numWriteBacks (L1 h') - numWriteBacks (L1 h)
      <= numWriteMisses (L1 h') - numWriteMisses (L1 h).
Proof.
  intros Hwf Hne. destruct e as [o a].
  rewrite !countOp_cons. unfold countOp. simpl.
  destruct (decide (o = "r"%char)) as [->|Hr].
  - destruct (read_event_spec h a Hwf)
      as (s & h' & _ & Hp & Hwf' & Hsame & _ & _ & Hrd & Hrm & Hw & Hwm & Hwb & _).
    exists h'. split; [assumption|]. split; [assumption|].
    split; [apply (nonempty_same_but_order (L1 h)); assumption|].
    split; [destruct Hsame as (? & ? & ? & ? & _); unfold geometry; congruence|].
    rewrite decide_False by discriminate.
    destruct (CacheSet.findBlock s (tagFor (L1 h) a)); repeat split; lia.
  - destruct (decide (o = "w"%char)) as [->|Hw].
    + destruct (write_event_general h a Hwf Hne)
        as (s & s' & h' & _ & Hp & _ & Hwf' & Hne' & _ & _ & Hgeo & _
            & Hrd & Hrm & Hwr & Hmatch).
      exists h'. split; [assumption|]. split; [assumption|].
      split; [assumption|]. split; [assumption|].
      destruct (CacheSet.findBlock s (tagFor (L1 h) a));
        destruct Hmatch as (Hwm & Hwb & _); repeat split; lia.
    + exists h. unfold processLine. simpl.
      rewrite !decide_False by assumption.
      split; [reflexivity|]. split; [assumption|]. split; [assumption|].
      repeat split; lia.
Qed.

Lemma simulate_safe trace : ∀ h,
  wf_hier h → nonempty (L1 h) →
  ∃ h', simulateCacheHierarchy retains h trace = Some h' ∧
    wf_hier h' ∧ nonempty (L1 h') ∧
    geometry (L1 h') = geometry (L1 h) ∧
    numReads (L1 h') = numReads (L1 h) + countOp "r" trace ∧
    numWrites (L1 h') = numWrites (L1 h) + countOp "w" trace ∧
    numReadMisses (L1 h) <= numReadMisses (L1 h')
      <= numReadMisses (L1 h) + countOp "r" trace ∧
    numWriteMisses (L1 h) <= numWriteMisses (L1 h')
      <= numWriteMisses (L1 h) + countOp "w" trace ∧
    0 <= numWriteBacks (L1 h') - numWriteBacks (L1 h)
      <= numWriteMisses (L1 h') - numWriteMisses (L1 h).
Proof.
  induction trace as [|e trace IH]; intros h Hwf Hne.
  - exists h. unfold countOp. simpl.
    split; [reflexivity|]. split; [assumption|]. split; [assumption|].
    repeat split; lia.
  - destruct (processLine_safe h e Hwf Hne)
      as (h1 & Hp & Hwf1 & Hne1 & Hg1 & Hr1 & Hw1 & Hrm1 & Hwm1 & Hwb1).
    destruct (IH h1 Hwf1 Hne1)
      as (h' & Hrun & Hwf' & Hne' & Hg' & Hr' & Hw' & Hrm' & Hwm' & Hwb').
    exists h'. simpl. rewrite Hp. simpl.
    split; [assumption|]. split; [assumption|]. split; [assumption|].
    split; [congruence|].
    rewrite (countOp_cons "r"), (countOp_cons "w").
    rewrite (countOp_cons "r" e []), (countOp_cons "w" e []) in *.
    change (countOp "r" []) with 0 in *. change (countOp "w" []) with 0 in *.
    repeat split; lia.
Qed.

(** X5.  When the run can stop short.  From any well-formed hierarchy none
    of whose first-level lists is empty (full sets included): one line,
    whatever it is, is processed whatever a released list node reads as
    (provided the allocator hands it out again); and when released nodes
    keep their contents every trace is processed to the end, the hierarchy
    stays well formed, no list becomes empty and the geometry of the first
    level is unchanged.  A whole run is not safe in every environment: with
    released nodes that read as [junk], [cache_sim 32 1 32 0 0 0] processes
    [w 0], [r 0], [w 20], [r 20], [w 40] and then, on [r 20], [moveToMRU]
    erases through a map entry that does not exist. *)
Theorem runs_stop_only_through_released_nodes h trace :
  wf_hier h → nonempty (L1 h) →
  (∀ env e, reuse env = true → is_Some (processLine env h e)) ∧
  (∃ h', simulateCacheHierarchy retains h trace = Some h' ∧
         wf_hier h' ∧ nonempty (L1 h') ∧
         geometry (L1 h') = geometry (L1 h)) ∧
  (λ h, (counters (L1 h), residentTags <$> sets (L1 h),
         (λ s, CacheSet.findBlock s 0xa5) <$> sets (L1 h)))
    <$> (h0 ← build 32 1 32 0 0 0;
         simulateCacheHierarchy (scrambles junk) h0
           [wr 0x0; rd 0x0; wr 0x20; rd 0x20; wr 0x40])
  = Some ((2, 0, 3, 3, 2), [[2; 0xa5]], [None]) ∧
  (h0 ← build 32 1 32 0 0 0;
   simulateCacheHierarchy (scrambles junk) h0
     [wr 0x0; rd 0x0; wr 0x20; rd 0x20; wr 0x40; rd 0x20])
  = None.
Proof.
  intros Hwf Hne.
  split; [intros env e Hre; apply processLine_returns; assumption|].
  split.
  - destruct (simulate_safe trace h Hwf Hne)
      as (h' & Hrun & Hwf' & Hne' & Hg & _).
    exists h'. auto.
  - vm_compute. split; reflexivity.
Qed.

Lemma runs_stop_only_through_released_nodes_witness :
  is_Some (processLine (scrambles junk) hWarm (wr 0x40)) ∧
  ∃ h', simulateCacheHierarchy retains hWarm [wr 0x20; rd 0x0; wr 0x40]
        = Some h' ∧ wf_hier h'.
Proof.
  destruct (runs_stop_only_through_released_nodes hWarm
              [wr 0x20; rd 0x0; wr 0x40])
    as (Hone & (h' & Hrun & Hwf & _) & _).
  - apply (bool_decide_unpack _). vm_compute. reflexivity.
  - apply (bool_decide_unpack _). vm_compute. reflexivity.
  - split; [apply Hone; reflexivity|]. exists h'. auto.
Defined.

(** X6.  The counters account for the lines.  After any trace that is
    processed, from any hierarchy and whatever released list nodes read as:
    [numReads] has grown by the number of [r] lines and [numWrites] by the
    number of [w] lines (lines with another character count nowhere); the
    read misses have grown by at most the number of [r] lines, the write
    misses by at most the number of [w] lines, and the write-backs by at
    most the growth of the write misses.  From a well-formed hierarchy with
    no empty list, with released nodes that keep their contents, every trace
    is processed. *)
Theorem counters_account_for_lines env h trace :
  (∀ h', simulateCacheHierarchy env h trace = Some h' →
     numReads (L1 h') = numReads (L1 h) + countOp "r" trace ∧
     numWrites (L1 h') = numWrites (L1 h) + countOp "w" trace ∧
     numReadMisses (L1 h) <= numReadMisses (L1 h')
       <= numReadMisses (L1 h) + countOp "r" trace ∧
     numWriteMisses (L1 h) <= numWriteMisses (L1 h')
       <= numWriteMisses (L1 h) + countOp "w" trace ∧
     0 <= numWriteBacks (L1 h') - numWriteBacks (L1 h)
       <= numWriteMisses (L1 h') - numWriteMisses (L1 h)) ∧
  (wf_hier h → nonempty (L1 h) →
   ∃ h', simulateCacheHierarchy retains h trace = Some h').
Proof.
  split.
  - intros h' Hrun. apply (simulate_accounted env trace h h' Hrun).
  - intros Hwf Hne.
    destruct (simulate_safe trace h Hwf Hne) as (h' & Hrun & _).
    exists h'. assumption.
Qed.

Lemma counters_account_for_lines_witness :
  ∃ h', simulateCacheHierarchy (scrambles junk) hWarm
          [rd 0x0; mkEvent "x" 0x0; wr 0x80; rd 0x100] = Some h' ∧
        numReads (L1 h') = 2 ∧ numWrites (L1 h') = 3 ∧
        is_Some (simulateCacheHierarchy retains hWarm
                   [rd 0x0; mkEvent "x" 0x0; wr 0x80; rd 0x100]).
Proof.
  destruct (counters_account_for_lines (scrambles junk) hWarm
              [rd 0x0; mkEvent "x" 0x0; wr 0x80; rd 0x100])
    as [Hcount Htotal].
  destruct (simulateCacheHierarchy (scrambles junk) hWarm
              [rd 0x0; mkEvent "x" 0x0; wr 0x80; rd 0x100]) as [h'|] eqn:Hrun;
    [|vm_compute in Hrun; discriminate].
  destruct (Hcount h' eq_refl) as (Hr & Hw & _).
  exists h'. split; [reflexivity|]. split; [exact Hr|]. split; [exact Hw|].
  destruct Htotal as [h'' ->].
  - apply (bool_decide_unpack _). vm_compute. reflexivity.
  - apply (bool_decide_unpack _). vm_compute. reflexivity.
  - eauto.
Defined.

Lemma writeToCache_hit_exact c a s p b :
  wf_cache c → sets c !! indexOf c a = Some s → wf_set s →
  CacheSet.findBlock s (tagFor c a) = Some p →
  deref (blocks s) p = Some b →
  Cache.writeToCache retains c a
  = Some (Cache.with_sets c
            (<[indexOf c a :=
                 mkSet ((p, mkBlock (tag b) (valid b) true)
                          :: erase p (blocks s)) (blockMap s)]> (sets c))).
Proof.
  intros Hwf Hs Hwfs Hf Hd.
  pose proof Hwf as (Hb & Hn & Hmul & _).
  destruct (moveToMRU_found s _ p Hwfs Hf) as (b0 & Hd0 & _ & Hm).
  assert (b0 = b) as -> by congruence.
  unfold Cache.writeToCache.
  rewrite setIndexOf_eq, tagOf_eq by assumption. simpl.
  fold (indexOf c a) (tagFor c a). rewrite Hs. simpl. rewrite Hf, Hm.
  cbn [blocks blockMap mbind option_bind]. rewrite storeDirty_head.
  reflexivity.
Qed.

Lemma read_hit_exact h a s p :
  wf_hier h → sets (L1 h) !! indexOf (L1 h) a = Some s →
  CacheSet.findBlock s (tagFor (L1 h) a) = Some p →
  ∃ b l1, deref (blocks s) p = Some b ∧
    processLine retains h (rd a) = Some (mkHier l1 (L2 h) (VC h)) ∧
    sets l1 = <[indexOf (L1 h) a :=
                  mkSet ((p, b) :: erase p (blocks s)) (blockMap s)]>
                (sets (L1 h)).
Proof.
  intros (Hw1 & _) Hs Hf.
  assert (wf_cache (Cache.incrReads (L1 h))) as Hw0 by exact Hw1.
  destruct (accessCache_exact _ a Hw0) as (s0 & Hs0 & _ & Hacc).
  change (indexOf (Cache.incrReads (L1 h)) a) with (indexOf (L1 h) a) in *.
  change (tagFor (Cache.incrReads (L1 h)) a) with (tagFor (L1 h) a) in *.
  change (sets (Cache.incrReads (L1 h))) with (sets (L1 h)) in *.
  assert (s0 = s) as -> by congruence.
  rewrite Hf in Hacc. destruct Hacc as (b & Hd & _ & Hacc).
  unfold processLine. simpl. rewrite Hacc. simpl.
  exists b. eexists. split; [assumption|]. split; reflexivity.
Qed.

Lemma write_hit_exact h a s p :
  wf_hier h → sets (L1 h) !! indexOf (L1 h) a = Some s →
  CacheSet.findBlock s (tagFor (L1 h) a) = Some p →
  ∃ b l1, deref (blocks s) p = Some b ∧
    processLine retains h (wr a) = Some (mkHier l1 (L2 h) (VC h)) ∧
    sets l1 = <[indexOf (L1 h) a :=
                  mkSet ((p, mkBlock (tag b) (valid b) true)
                           :: erase p (blocks s)) (blockMap s)]>
                (sets (L1 h)).
Proof.
  intros (Hw1 & _) Hs Hf.
  set (c0 := Cache.incrWrites (L1 h)).
  assert (wf_cache c0) as Hw0 by exact Hw1.
  destruct (accessCache_exact c0 a Hw0) as (s0 & Hs0 & Hwfs & Hacc).
  change (indexOf c0 a) with (indexOf (L1 h) a) in *.
  change (tagFor c0 a) with (tagFor (L1 h) a) in *.
  change (sets c0) with (sets (L1 h)) in *.
  assert (s0 = s) as -> by congruence.
  rewrite Hf in Hacc. destruct Hacc as (b & Hd & Ht & Hacc).
  assert (indexOf (L1 h) a < length (sets (L1 h)))%nat as Hlt.
  { apply lookup_lt_is_Some. eauto. }
  set (s1 := mkSet ((p, b) :: erase p (blocks s)) (blockMap s)) in *.
  set (c1 := Cache.with_sets c0 (<[indexOf (L1 h) a := s1]> (sets (L1 h))))
    in *.
  assert (reordered s s1) as Hr.
  { repeat split; simpl; [apply erase_perm; assumption|].
    intros q. apply (deref_promote p b (blocks s) q Hd). }
  assert (wf_set s1) as Hwfs1 by (apply (wf_set_reordered s); assumption).
  assert (wf_cache c1) as Hwc1.
  { destruct Hw1 as (? & ? & ? & ? & ?).
    unfold wf_cache; simpl. rewrite length_insert.
    repeat split; try assumption. apply Forall_insert; assumption. }
  assert (Cache.writeToCache retains c1 a
          = Some (Cache.with_sets c1
                    (<[indexOf (L1 h) a :=
                         mkSet ((p, mkBlock (tag b) (valid b) true)
                                  :: erase p (blocks s1)) (blockMap s1)]>
                       (sets c1)))) as Hwr.
  { apply (writeToCache_hit_exact c1 a s1 p b Hwc1).
    - simpl. apply list_lookup_insert_eq. assumption.
    - assumption.
    - exact Hf.
    - simpl. rewrite decide_True by reflexivity. reflexivity. }
  unfold processLine. simpl. fold c0. rewrite Hacc. simpl. rewrite Hwr. simpl.
  exists b. eexists. split; [assumption|]. split; [reflexivity|].
  simpl. rewrite list_insert_insert_eq.
  rewrite decide_True by reflexivity. reflexivity.
Qed.

(** X7.  A write line changes one set.  Whenever a write line is
    processed, from any hierarchy and whatever released list nodes read as:
    the sets of the first level other than the addressed one, the second
    level, the victim buffer, the geometry and the two read counters are
    exactly as before; [numWrites] goes up by one; the tag of the address is
    mapped afterwards; and when it was not mapped before, the first node of
    the addressed set now holds a valid dirty block with that tag, to which
    the map sends the tag.  On a hit, in a well-formed hierarchy whose
    released nodes keep their contents, the first node holds a dirty block
    with the tag as well. *)
Theorem write_touches_one_set env h a h' :
  processLine env h (wr a) = Some h' →
  ∃ i t s s',
    Cache.setIndexOf (L1 h) a = Some i ∧ Cache.tagOf (L1 h) a = Some t ∧
    sets (L1 h) !! Z.to_nat i = Some s ∧
    sets (L1 h') = <[Z.to_nat i := s']> (sets (L1 h)) ∧
    (∀ j, j ≠ Z.to_nat i → sets (L1 h') !! j = sets (L1 h) !! j) ∧
    L2 h' = L2 h ∧ VC h' = VC h ∧
    geometry (L1 h') = geometry (L1 h) ∧
    numReads (L1 h') = numReads (L1 h) ∧
    numReadMisses (L1 h') = numReadMisses (L1 h) ∧
    numWrites (L1 h') = numWrites (L1 h) + 1 ∧
    is_Some (CacheSet.findBlock s' t) ∧
    (CacheSet.findBlock s t = None →
     ∃ p rest, blocks s' = (p, mkBlock t true true) :: rest ∧
               CacheSet.findBlock s' t = Some p) ∧
    (env = retains → wf_hier h →
     ∃ p b rest, blocks s' = (p, b) :: rest ∧ tag b = t ∧ dirty b = true ∧
                 CacheSet.findBlock s' t = Some p).
Proof.
  intros Hp. pose proof Hp as Hp0.
  apply write_line_inv in Hp
    as (i & t & s & s' & Hi & Ht & Hs & Hsets & H2 & Hv & Hg & Hrd & Hrm & Hwr
        & Hcase).
  exists i, t, s, s'.
  repeat (split; [assumption|]).
  split.
  { intros j Hj. rewrite Hsets. apply list_lookup_insert_ne. congruence. }
  repeat (split; [assumption|]).
  assert (CacheSet.findBlock s t = None →
          ∃ p rest, blocks s' = (p, mkBlock t true true) :: rest ∧
                    CacheSet.findBlock s' t = Some p) as Hmiss.
  { intros Hf. rewrite Hf in Hcase. destruct Hcase as (_ & -> & _).
    eexists _, _. split; [reflexivity|].
    unfold CacheSet.findBlock, CacheSet.insertBlock. simpl.
    apply lookup_insert_eq. }
  assert (Z.to_nat i < length (sets (L1 h)))%nat as Hlt.
  { apply lookup_lt_is_Some. eauto. }
  split; [|split; [exact Hmiss|]].
  - destruct (CacheSet.findBlock s t) as [p|] eqn:Hf.
    + (* both calls promote; neither removes a map entry *)
      revert Hp0. unfold processLine. simpl.
      destruct (Cache.accessCache env (Cache.incrWrites (L1 h)) a)
        as [[r l1]|] eqn:Hacc; simpl; [|discriminate].
      apply accessCache_inv in Hacc as (i1 & t1 & s0 & Hi1 & Ht1 & Hs0 & Hr & Hc).
      change (Cache.setIndexOf (Cache.incrWrites (L1 h)) a)
        with (Cache.setIndexOf (L1 h) a) in Hi1.
      change (Cache.tagOf (Cache.incrWrites (L1 h)) a)
        with (Cache.tagOf (L1 h) a) in Ht1.
      change (sets (Cache.incrWrites (L1 h))) with (sets (L1 h)) in *.
      assert (i1 = i) as -> by congruence. assert (t1 = t) as -> by congruence.
      assert (s0 = s) as -> by congruence.
      rewrite Hf in Hr. subst r. destruct Hc as (s1 & Hm1 & ->).
      destruct (Cache.writeToCache env _ a) as [l1'|] eqn:Hw; simpl;
        [|discriminate].
      intros [= <-].
      apply writeToCache_inv in Hw
        as (i2 & t2 & s2 & s2' & Hi2 & Ht2 & Hs2 & Hsets2 & _ & _ & Hcase2).
      change (Cache.setIndexOf (Cache.with_sets _ _) a)
        with (Cache.setIndexOf (L1 h) a) in Hi2.
      change (Cache.tagOf (Cache.with_sets _ _) a)
        with (Cache.tagOf (L1 h) a) in Ht2.
      assert (i2 = i) as -> by congruence. assert (t2 = t) as -> by congruence.
      simpl in Hs2, Hsets2, Hsets.
      rewrite list_lookup_insert_eq in Hs2 by assumption. injection Hs2 as <-.
      rewrite list_insert_insert_eq in Hsets2.
      assert (s2' = s') as ->.
      { rewrite Hsets2 in Hsets.
        apply (f_equal (λ l, l !! Z.to_nat i)) in Hsets.
        rewrite !list_lookup_insert_eq in Hsets by assumption. congruence. }
      destruct (moveToMRU_keeps env s p s1 Hm1) as [Hk1 _].
      assert (is_Some (CacheSet.findBlock s1 t)) as [p1 Hf1].
      { apply Hk1. unfold CacheSet.findBlock in Hf. rewrite Hf. eauto. }
      rewrite Hf1 in Hcase2. destruct Hcase2 as (_ & s3 & Hm3 & ->).
      destruct (moveToMRU_keeps env s1 p1 s3 Hm3) as [Hk3 _].
      unfold CacheSet.findBlock in *. simpl. apply Hk3. rewrite Hf1. eauto.
    + destruct (Hmiss eq_refl) as (p & rest & _ & ->). eauto.
  - intros -> Hwf.
    destruct (CacheSet.findBlock s t) as [p|] eqn:Hf.
    + pose proof Hwf as ((Hb & Hn & Hmul & _) & _).
      rewrite (setIndexOf_eq (L1 h)) in Hi by assumption.
      rewrite (tagOf_eq (L1 h)) in Ht by assumption.
      injection Hi as <-. injection Ht as <-.
      fold (indexOf (L1 h) a) (tagFor (L1 h) a) in *.
      destruct (write_hit_exact h a s p Hwf Hs Hf) as (b & l1 & Hd & Hp' & Hl1).
      assert (tag b = tagFor (L1 h) a) as Htag.
      { destruct Hwf as ((_ & _ & _ & _ & Hall) & _).
        rewrite Forall_lookup in Hall.
        destruct (wf_set_lookup s _ p (Hall _ _ Hs) Hf) as (b' & Hd' & Ht').
        congruence. }
      rewrite Hp' in Hp0. injection Hp0 as <-. simpl in Hsets.
      rewrite Hl1 in Hsets.
      assert (s' = mkSet ((p, mkBlock (tag b) (valid b) true)
                            :: erase p (blocks s)) (blockMap s)) as ->.
      { apply (f_equal (λ l, l !! indexOf (L1 h) a)) in Hsets.
        rewrite !list_lookup_insert_eq in Hsets by assumption. congruence. }
      exists p, (mkBlock (tag b) (valid b) true), (erase p (blocks s)).
      split; [reflexivity|]. split; [exact Htag|]. split; [reflexivity|].
      exact Hf.
    + destruct (Hmiss eq_refl) as (p & rest & Hbl & Hfp).
      exists p, (mkBlock t true true), rest. auto.
Qed.

Lemma write_touches_one_set_witness :
  ∃ h', processLine (scrambles junk) hWarm (wr 0x40) = Some h' ∧
        L2 h' = L2 hWarm ∧ VC h' = VC hWarm ∧
        numReads (L1 h') = 0 ∧
        ∃ s', sets (L1 h') = [s'] ∧ is_Some (CacheSet.findBlock s' 2).
Proof.
  destruct (processLine (scrambles junk) hWarm (wr 0x40)) as [h'|] eqn:Hp;
    [|vm_compute in Hp; discriminate].
  destruct (write_touches_one_set (scrambles junk) hWarm 0x40 h' Hp)
    as (i & t & s & s' & Hi & Ht & Hs & Hsets & _ & H2 & Hv & _ & Hr & _ & _
        & Hin & _).
  exists h'. split; [reflexivity|]. split; [assumption|].
  split; [assumption|]. split; [exact Hr|].
  vm_compute in Hi. injection Hi as <-. vm_compute in Ht. injection Ht as <-.
  exists s'. split; [exact Hsets|exact Hin].
Defined.

(** X15.  What a read line leaves alone, whatever released list nodes read
    as.  Whenever a read line is processed, from any hierarchy: the geometry
    and the three write counters of the first level are unchanged and
    [numReads] goes up by one.  When the tag of the address is not mapped in
    its set, the first level is otherwise untouched, [numReadMisses] being
    the only other change.  When it is mapped, no read miss is counted,
    neither the second level nor the victim buffer is touched, the sets
    other than the addressed one are unchanged, and the addressed set keeps
    the length of its list and every entry of its map. *)
Theorem read_leaves_write_state env h a h' :
  processLine env h (rd a) = Some h' →
  ∃ i t s,
    Cache.setIndexOf (L1 h) a = Some i ∧ Cache.tagOf (L1 h) a = Some t ∧
    sets (L1 h) !! Z.to_nat i = Some s ∧
    geometry (L1 h') = geometry (L1 h) ∧
    numReads (L1 h') = numReads (L1 h) + 1 ∧
    numWrites (L1 h') = numWrites (L1 h) ∧
    numWriteMisses (L1 h') = numWriteMisses (L1 h) ∧
    numWriteBacks (L1 h') = numWriteBacks (L1 h) ∧
    (CacheSet.findBlock s t = None →
     L1 h' = Cache.incrReadMisses (Cache.incrReads (L1 h))) ∧
    (is_Some (CacheSet.findBlock s t) →
     numReadMisses (L1 h') = numReadMisses (L1 h) ∧
     L2 h' = L2 h ∧ VC h' = VC h ∧
     (∀ j, j ≠ Z.to_nat i → sets (L1 h') !! j = sets (L1 h) !! j) ∧
     ∃ s', sets (L1 h') !! Z.to_nat i = Some s' ∧
           length (blocks s') = length (blocks s) ∧
           ∀ k, is_Some (CacheSet.findBlock s k) →
                is_Some (CacheSet.findBlock s' k)).
Proof.
  intros Hp.
  apply read_line_inv in Hp
    as (i & t & s & Hi & Ht & Hs & Hg & Hrd & Hw & Hwm & Hwb & Hcase).
  exists i, t, s. repeat (split; [assumption|]).
  assert (Z.to_nat i < length (sets (L1 h)))%nat as Hlt.
  { apply lookup_lt_is_Some. eauto. }
  destruct (CacheSet.findBlock s t) as [p|] eqn:Hf.
  - split; [discriminate|]. intros _.
    destruct Hcase as (Hrm & H2 & Hv & s' & Hm & Hsets).
    repeat (split; [assumption|]).
    split.
    { intros j Hj. rewrite Hsets. apply list_lookup_insert_ne. congruence. }
    exists s'. split.
    { rewrite Hsets. apply list_lookup_insert_eq. assumption. }
    destruct (moveToMRU_keeps env s p s' Hm) as [Hkeys Hlen].
    split; [assumption|]. intros k. apply Hkeys.
  - split; [|intros [? [=]]]. intros _.
    destruct Hcase as (Hrm & Hsets).
    injection Hg as Hg1 Hg2 Hg3 Hg4.
    destruct (L1 h) as [cs0 as0 bs0 ns0 ss0 r0 rm0 w0 wm0 wb0].
    destruct (L1 h') as [cs1 as1 bs1 ns1 ss1 r1 rm1 w1 wm1 wb1].
    simpl in *. unfold Cache.incrReadMisses, Cache.incrReads. simpl.
    congruence.
Qed.

Lemma read_leaves_write_state_witness :
  ∃ h', processLine (scrambles junk) hWarm (rd 0x0) = Some h' ∧
        numWrites (L1 h') = 2 ∧ numWriteMisses (L1 h') = 2 ∧
        numWriteBacks (L1 h') = 0 ∧ numReadMisses (L1 h') = 0.
Proof.
  destruct (processLine (scrambles junk) hWarm (rd 0x0)) as [h'|] eqn:Hp;
    [|vm_compute in Hp; discriminate].
  destruct (read_leaves_write_state (scrambles junk) hWarm 0x0 h' Hp)
    as (i & t & s & Hi & Ht & Hs & _ & _ & Hw & Hwm & Hwb & _ & Hhit).
  vm_compute in Hi. injection Hi as <-. vm_compute in Ht. injection Ht as <-.
  vm_compute in Hs. injection Hs as <-.
  destruct Hhit as (Hrm & _); [vm_compute; eauto|].
  exists h'. split; [reflexivity|]. split; [exact Hw|]. split; [exact Hwm|].
  split; [exact Hwb|exact Hrm].
Defined.

(** * A block that has been written *)

Lemma same_block_same_place c a a' :
  wf_cache c → a / blockSize c = a' / blockSize c →
  indexOf c a' = indexOf c a ∧ tagFor c a' = tagFor c a.
Proof.
  intros (Hb & Hn & _) Hblock.
  destruct (proj2 (same_block_iff c Hb Hn a a') Hblock) as [Hi Ht].
  unfold indexOf, tagFor. rewrite Hi, Ht. split; reflexivity.
Qed.

Lemma same_geometry_same_place c c' a :
  geometry c' = geometry c →
  indexOf c' a = indexOf c a ∧ tagFor c' a = tagFor c a.
Proof.
  intros [= _ _ Hbs Hns]. unfold indexOf, tagFor. rewrite Hbs, Hns.
  split; reflexivity.
Qed.

(** X8.  A written block is there.  From a well-formed hierarchy with no
    empty list, whatever released list nodes read as (provided the allocator
    hands them out again): after a write line, a read of any address of the
    same block hits in the first level, so that no read miss is counted and
    neither the victim buffer nor the second level is touched; and a second
    write to the block counts no write miss and no write-back. *)
Theorem written_block_hits env h a a' :
  reuse env = true →
  wf_hier h → nonempty (L1 h) →
  a / blockSize (L1 h) = a' / blockSize (L1 h) →
  ∃ h1 h2 h3,
    processLine env h (wr a) = Some h1 ∧
    processLine env h1 (rd a') = Some h2 ∧
    numReadMisses (L1 h2) = numReadMisses (L1 h1) ∧
    L2 h2 = L2 h ∧ VC h2 = VC h ∧
    processLine env h1 (wr a') = Some h3 ∧
    numWriteMisses (L1 h3) = numWriteMisses (L1 h1) ∧
    numWriteBacks (L1 h3) = numWriteBacks (L1 h1).
Proof.
  intros Hre Hwf Hne Hblock.
  pose proof Hwf as (Hw1 & _).
  pose proof Hw1 as (Hb & Hn & Hmul & Hlen & Hall).
  destruct (wf_cache_set (L1 h) a Hw1) as (s & Hs & Hwfs).
  assert (blocks s ≠ []) as Hnes.
  { unfold nonempty in Hne. rewrite Forall_lookup in Hne. eauto. }
  assert (indexOf (L1 h) a < length (sets (L1 h)))%nat as Hlt.
  { apply lookup_lt_is_Some. eauto. }
  assert (∃ l1 s',
            processLine env h (wr a) = Some (mkHier l1 (L2 h) (VC h)) ∧
            geometry l1 = geometry (L1 h) ∧
            sets l1 = <[indexOf (L1 h) a := s']> (sets (L1 h)) ∧
            linked s' ∧ is_Some (blockMap s' !! tagFor (L1 h) a))
    as (l1 & s' & Hp1 & Hgeo & Hsets & Hl' & [p' Hf']).
  { destruct (blockMap s !! tagFor (L1 h) a) as [p|] eqn:Hf.
    - destruct (write_hit_linked env h a s p Hre Hb Hn Hmul Hs
                  (wf_set_linked s Hwfs) Hf)
        as (l1 & s' & Hp & Hg & Hse & Hl' & Hin & _).
      exists l1, s'. auto.
    - destruct (write_miss_wf env h a s Hb Hn Hmul Hs Hwfs Hnes Hf)
        as (l1 & s' & q & rest & Hp & Hg & Hse & Hwf' & _ & Hin).
      exists l1, s'. split; [assumption|]. split; [assumption|].
      split; [assumption|]. split; [apply wf_set_linked; assumption|eauto]. }
  set (h1 := mkHier l1 (L2 h) (VC h)) in *.
  assert (blockSize l1 = blockSize (L1 h) ∧ numSets l1 = numSets (L1 h))
    as [Hbs Hns] by (injection Hgeo; auto).
  assert (indexOf (L1 h1) a' = indexOf (L1 h) a
          ∧ tagFor (L1 h1) a' = tagFor (L1 h) a) as [Hidx Htag].
  { change (L1 h1) with l1.
    destruct (same_geometry_same_place _ _ a' Hgeo) as [-> ->].
    apply same_block_same_place; assumption. }
  assert (sets (L1 h1) !! indexOf (L1 h1) a' = Some s') as Hs'.
  { rewrite Hidx. simpl. rewrite Hsets. apply list_lookup_insert_eq.
    assumption. }
  assert (blockMap s' !! tagFor (L1 h1) a' = Some p') as Hf1.
  { rewrite Htag. exact Hf'. }
  assert (0 < blockSize (L1 h1) ∧ 0 < numSets (L1 h1)
          ∧ blockSize (L1 h1) * numSets (L1 h1) <= INT_MAX)
    as (Hb1 & Hn1 & Hmul1).
  { simpl. rewrite Hbs, Hns. auto. }
  destruct (read_hit_linked env h1 a' s' p' Hre Hb1 Hn1 Hmul1 Hs' Hl' Hf1)
    as (l2 & Hp2 & Hrm).
  destruct (write_hit_linked env h1 a' s' p' Hre Hb1 Hn1 Hmul1 Hs' Hl' Hf1)
    as (l3 & s3 & Hp3 & _ & _ & _ & _ & _ & Hwm & Hwb).
  exists h1, (mkHier l2 (L2 h1) (VC h1)), (mkHier l3 (L2 h1) (VC h1)).
  split; [assumption|]. split; [assumption|]. simpl.
  split; [assumption|]. split; [reflexivity|]. split; [reflexivity|].
  split; [assumption|]. split; assumption.
Qed.

Lemma written_block_hits_witness :
  ∃ h1 h2, processLine (scrambles junk) hWarm (wr 0x40) = Some h1 ∧
           processLine (scrambles junk) h1 (rd 0x5f) = Some h2 ∧
           numReadMisses (L1 h2) = numReadMisses (L1 h1).
Proof.
  destruct (written_block_hits (scrambles junk) hWarm 0x40 0x5f)
    as (h1 & h2 & _ & Hp1 & Hp2 & Hrm & _).
  - reflexivity.
  - apply (bool_decide_unpack _). vm_compute. reflexivity.
  - apply (bool_decide_unpack _). vm_compute. reflexivity.
  - reflexivity.
  - exists h1, h2. auto.
Defined.

(** * A cache smaller than one set *)

(** X9.  With positive associativity and block size and a size below
    [assoc × blockSize], the constructor succeeds with [numSets = 0] and no
    set at all, and every read or write line then takes a remainder by zero:
    no such line is processed, whatever the other levels. *)
Theorem undersized_cache_traps env size assoc blockSize :
  0 < assoc → 0 < blockSize → assoc * blockSize <= INT_MAX →
  0 <= size < assoc * blockSize →
  ∃ c, Cache.new size assoc blockSize = Some c ∧
       numSets c = 0 ∧ sets c = [] ∧
       ∀ l2 vc a,
         processLine env (mkHier c l2 vc) (rd a) = None ∧
         processLine env (mkHier c l2 vc) (wr a) = None.
Proof.
  intros Ha Hb Hmul Hs.
  rewrite Cache_new_eq by lia.
  rewrite Z.div_small by lia.
  eexists. split; [reflexivity|]. split; [reflexivity|].
  split; [reflexivity|].
  intros l2 vc a.
  assert (to_ulong blockSize ≠ 0) as Hbs.
  { rewrite (to_ulong_small blockSize) by nia. lia. }
  unfold processLine, Cache.accessCache, Cache.setIndexOf, udiv, umod. simpl.
  rewrite !decide_False by assumption. simpl.
  split; reflexivity.
Qed.

Lemma undersized_cache_traps_witness :
  ∃ c, Cache.new 16 1 32 = Some c ∧
       processLine retains (mkHier c None None) (rd 0x0) = None.
Proof.
  destruct (undersized_cache_traps retains 16 1 32) as (c & Hnew & _ & _ & Htrap);
    [lia | lia | unfold INT_MAX; lia | lia |].
  exists c. split; [assumption|]. apply (Htrap None None 0x0).
Defined.

(** * What a run accumulates in the first level *)

Lemma grown_refl s : grown s s.
Proof. split; [auto|reflexivity]. Qed.

Lemma grown_trans s1 s2 s3 : grown s1 s2 → grown s2 s3 → grown s1 s3.
Proof. intros [Hd1 Hl1] [Hd2 Hl2]. split; [auto|lia]. Qed.

Lemma reordered_grown s s' : reordered s s' → grown s s'.
Proof.
  intros (Hm & Hp & _). split.
  - intros t. rewrite Hm. auto.
  - rewrite Hm, Hp. reflexivity.
Qed.

Lemma roomy_set_grown s s' : grown s s' → roomy_set s → roomy_set s'.
Proof.
  unfold roomy_set. intros [_ Hl] Hr.
  lia.
Qed.

Lemma grown_insertBlock s b :
  blockMap s !! tag b = None → grown s (CacheSet.insertBlock s b).
Proof.
  intros Hnone. unfold CacheSet.insertBlock. split; simpl.
  - intros t Ht. destruct (decide (tag b = t)) as [<-|Hne].
    + rewrite lookup_insert_eq. eauto.
    + rewrite lookup_insert_ne by assumption. assumption.
  - rewrite map_size_insert_None by assumption. lia.
Qed.

Lemma Forall2_grown_refl (l : list CacheSet) : Forall2 grown l l.
Proof. apply Forall_Forall2_diag, Forall_forall. intros; apply grown_refl. Qed.

Lemma Forall2_grown_trans (l1 l2 l3 : list CacheSet) :
  Forall2 grown l1 l2 → Forall2 grown l2 l3 → Forall2 grown l1 l3.
Proof.
  intros H12. revert l3. induction H12 as [|s1 s2 l1 l2 Hs _ IH]; intros l3 H23.
  - inversion H23. constructor.
  - inversion H23; subst. constructor; [|auto].
    apply (grown_trans s1 s2); assumption.
Qed.

Lemma Forall2_grown_insert (l : list CacheSet) i s s' :
  l !! i = Some s → grown s s' → Forall2 grown l (<[i := s']> l).
Proof.
  intros Hi Hg.
  rewrite <- (list_insert_id l i s Hi) at 1.
  apply Forall2_insert; [apply Forall2_grown_refl|assumption].
Qed.

Lemma Forall2_reordered_grown (l l' : list CacheSet) :
  Forall2 reordered l l' → Forall2 grown l l'.
Proof.
  induction 1; constructor; [apply reordered_grown|]; assumption.
Qed.

Lemma mapped_reordered c c' : same_but_order c c' → mapped c' = mapped c.
Proof.
  intros (_ & _ & _ & _ & H2). unfold mapped.
  induction H2 as [|s s' l l' (Hm & _) _ IH]; [reflexivity|].
  rewrite !fmap_cons. simpl. rewrite Hm, IH. reflexivity.
Qed.

Lemma sum_list_insert (f : CacheSet → nat) (l : list CacheSet) i x y :
  l !! i = Some x →
  (sum_list (f <$> <[i := y]> l) + f x = sum_list (f <$> l) + f y)%nat.
Proof.
  revert i. induction l as [|z l IH]; intros [|i] Hi; csimpl in *;
    try discriminate.
  - injection Hi as ->. lia.
  - specialize (IH i Hi). lia.
Qed.

(** One line, from a well-formed hierarchy whose first level has no full
    set: no tag leaves a map, every list gains exactly the nodes its map
    gains, and the number of mapped tags grows with the write misses. *)
Lemma processLine_grows h e :
  wf_hier h → roomy (L1 h) →
  ∃ h', processLine retains h e = Some h' ∧ wf_hier h' ∧ roomy (L1 h') ∧
    Forall2 grown (sets (L1 h)) (sets (L1 h')) ∧
    Z.of_nat (mapped (L1 h')) - Z.of_nat (mapped (L1 h))
    = numWriteMisses (L1 h') - numWriteMisses (L1 h).
Proof.
  intros Hwf Hroomy. destruct e as [o a].
  destruct (decide (o = "r"%char)) as [->|Hr].
  - destruct (read_event_spec h a Hwf)
      as (s & h' & _ & Hp & Hwf' & Hsame & _ & _ & _ & _ & _ & Hwm & _).
    exists h'. split; [assumption|]. split; [assumption|].
    split; [apply (roomy_same_but_order (L1 h)); assumption|].
    split; [apply Forall2_reordered_grown; apply Hsame|].
    rewrite (mapped_reordered _ _ Hsame). lia.
  - destruct (decide (o = "w"%char)) as [->|Hw].
    + assert (nonempty (L1 h)) as Hne.
      { unfold nonempty, roomy in *. eapply Forall_impl; [exact Hroomy|].
        intros s Hs E. unfold roomy_set in Hs. rewrite E in Hs.
        simpl in Hs. lia. }
      destruct (write_event_general h a Hwf Hne)
        as (s & s' & h' & Hs & Hp & Hsets & Hwf' & _ & _ & _ & _ & _
            & _ & _ & _ & Hmatch).
      assert (roomy_set s) as Hrs.
      { unfold roomy in Hroomy. rewrite Forall_lookup in Hroomy. eauto. }
      assert (grown s s' ∧
              Z.of_nat (size (blockMap s')) - Z.of_nat (size (blockMap s))
              = numWriteMisses (L1 h') - numWriteMisses (L1 h))
        as [Hg Hsize].
      { destruct (CacheSet.findBlock s (tagFor (L1 h) a)) as [p|] eqn:Hf.
        - destruct Hmatch as (Hwm & _ & Hm & Hl). split.
          + split; [intros t; rewrite Hm; auto|rewrite Hm, Hl; reflexivity].
          + rewrite Hm. lia.
        - destruct Hmatch as (Hwm & _ & Hins).
          destruct (Hins (roomy_set_not_full s Hrs)) as [_ ->]. split.
          + apply grown_insertBlock. exact Hf.
          + unfold CacheSet.insertBlock. simpl.
            rewrite map_size_insert_None by exact Hf. lia. }
      exists h'. split; [assumption|]. split; [assumption|].
      split.
      { unfold roomy. rewrite Hsets. apply Forall_insert; [assumption|].
        apply (roomy_set_grown s); assumption. }
      split; [rewrite Hsets; apply (Forall2_grown_insert _ _ s); assumption|].
      unfold mapped. rewrite Hsets.
      pose proof (sum_list_insert (λ s, size (blockMap s)) (sets (L1 h))
                    _ s s' Hs) as Hsum.
      simpl in Hsum. lia.
    + exists h. unfold processLine. simpl.
      rewrite !decide_False by assumption.
      split; [reflexivity|]. split; [assumption|]. split; [assumption|].
      split; [apply Forall2_grown_refl|lia].
Qed.

Lemma simulate_grows trace : ∀ h,
  wf_hier h → roomy (L1 h) →
  ∃ h', simulateCacheHierarchy retains h trace = Some h' ∧ wf_hier h' ∧
    roomy (L1 h') ∧
    Forall2 grown (sets (L1 h)) (sets (L1 h')) ∧
    Z.of_nat (mapped (L1 h')) - Z.of_nat (mapped (L1 h))
    = numWriteMisses (L1 h') - numWriteMisses (L1 h).
Proof.
  induction trace as [|e trace IH]; intros h Hwf Hroomy; simpl.
  - exists h. split; [reflexivity|]. split; [assumption|].
    split; [assumption|]. split; [apply Forall2_grown_refl|lia].
  - destruct (processLine_grows h e Hwf Hroomy)
      as (h1 & Hp & Hwf1 & Hr1 & Hg1 & Hm1).
    destruct (IH h1 Hwf1 Hr1) as (h' & Hrun & Hwf' & Hr' & Hg' & Hm').
    exists h'. rewrite Hp. simpl.
    split; [assumption|]. split; [assumption|]. split; [assumption|].
    split; [apply (Forall2_grown_trans _ (sets (L1 h1))); assumption|lia].
Qed.

(** X10.  With released nodes that keep their contents, nothing ever
    leaves the first level.  From a well-formed hierarchy whose first level
    has no full set (every hierarchy [main] builds from positive dimensions
    is one), and for every trace, the run in which released list nodes read
    as before and are handed out again is processed, and a tag that is found
    in a set before the run is found in the same set after it. *)
Theorem mapped_tags_persist h trace :
  wf_hier h → roomy (L1 h) →
  ∃ h', simulateCacheHierarchy retains h trace = Some h' ∧
    ∀ i s t, sets (L1 h) !! i = Some s →
             is_Some (CacheSet.findBlock s t) →
             ∃ s', sets (L1 h') !! i = Some s' ∧
                   is_Some (CacheSet.findBlock s' t).
Proof.
  intros Hwf Hroomy.
  destruct (simulate_grows trace h Hwf Hroomy) as (h' & Hrun & _ & _ & Hg & _).
  exists h'. split; [assumption|].
  intros i s t Hs Hf.
  destruct (Forall2_lookup_l _ _ _ _ _ Hg Hs) as (s' & Hs' & Hd & _).
  exists s'. split; [assumption|]. apply Hd. exact Hf.
Qed.

Lemma mapped_tags_persist_witness :
  ∃ h' s', simulateCacheHierarchy retains hWarm [wr 0x80; rd 0x100; wr 0xc0] = Some h' ∧
           sets (L1 h') !! 0%nat = Some s' ∧
           is_Some (CacheSet.findBlock s' 2).
Proof.
  destruct (mapped_tags_persist hWarm [wr 0x80; rd 0x100; wr 0xc0])
    as (h' & Hrun & Hkeep).
  - apply (bool_decide_unpack _). vm_compute. reflexivity.
  - apply (bool_decide_unpack _). vm_compute. reflexivity.
  - destruct (Hkeep 0%nat warmSet 2) as (s' & Hs' & Hf).
    + reflexivity.
    + vm_compute. eauto.
    + exists h', s'. auto.
Defined.

Lemma build_L1 L1_SIZE L1_ASSOC L1_BLOCKSIZE VC_NUM_BLOCKS L2_SIZE L2_ASSOC :
  valid_config L1_SIZE L1_ASSOC L1_BLOCKSIZE VC_NUM_BLOCKS L2_SIZE L2_ASSOC →
  ∃ h0, build L1_SIZE L1_ASSOC L1_BLOCKSIZE VC_NUM_BLOCKS L2_SIZE L2_ASSOC
        = Some h0 ∧
        wf_hier h0 ∧ roomy (L1 h0) ∧
        ∃ n, L1 h0 = mkCache L1_SIZE L1_ASSOC L1_BLOCKSIZE
                       (L1_SIZE / (L1_ASSOC * L1_BLOCKSIZE))
                       (replicate n (CacheSet.new L1_ASSOC)) 0 0 0 0 0.
Proof.
  intros Hvalid.
  destruct (build_wf _ _ _ _ _ _ Hvalid) as (h0 & Hb & Hwf & Hro & _).
  exists h0. split; [assumption|]. split; [assumption|]. split; [assumption|].
  destruct Hvalid as [(Ha & Hbs & Hle & Hmax) _].
  unfold build in Hb.
  rewrite (Cache_new_eq L1_SIZE L1_ASSOC L1_BLOCKSIZE Ha Hbs) in Hb by nia.
  simpl in Hb.
  destruct (decide (L2_SIZE > 0)).
  - destruct (Cache.new L2_SIZE L2_ASSOC L1_BLOCKSIZE); simpl in Hb;
      [|discriminate].
    injection Hb as <-. simpl. eauto.
  - simpl in Hb. injection Hb as <-. simpl. eauto.
Qed.

Lemma mapped_replicate_new n assoc :
  sum_list ((λ s, size (blockMap s)) <$> replicate n (CacheSet.new assoc))
  = 0%nat.
Proof. induction n as [|n IH]; [reflexivity|]. csimpl. rewrite IH. reflexivity. Qed.

Lemma grown_keeps_excess (k : nat) (l l' : list CacheSet) :
  Forall2 grown l l' →
  Forall (λ s, length (blocks s) = (size (blockMap s) + k)%nat) l →
  Forall (λ s, length (blocks s) = (size (blockMap s) + k)%nat) l'.
Proof.
  induction 1 as [|s s' l l' [_ Hl] _ IH]; intros Hall; [constructor|].
  inversion Hall; subst. constructor; [lia|auto].
Qed.

(** X11.  With released nodes that keep their contents, the list of a set
    is always [assoc] nodes longer than its map.  In every run from a
    configuration with positive dimensions in which released list nodes read
    as before and are handed out again, every set of the first level has
    exactly [L1_ASSOC] more nodes in its list than tags in its map: the
    placeholders of the constructor are never consumed, and each mapped tag
    has added a node.  (When released nodes read differently a hit can add a
    map entry and make up the difference: see the theorem of C6.) *)
Theorem list_exceeds_map_by_assoc
    L1_SIZE L1_ASSOC L1_BLOCKSIZE VC_NUM_BLOCKS L2_SIZE L2_ASSOC trace :
  valid_config L1_SIZE L1_ASSOC L1_BLOCKSIZE VC_NUM_BLOCKS L2_SIZE L2_ASSOC →
  ∃ h0 h,
    build L1_SIZE L1_ASSOC L1_BLOCKSIZE VC_NUM_BLOCKS L2_SIZE L2_ASSOC
    = Some h0 ∧
    simulateCacheHierarchy retains h0 trace = Some h ∧
    Forall (λ s, length (blocks s)
                 = (size (blockMap s) + Z.to_nat L1_ASSOC)%nat)
      (sets (L1 h)).
Proof.
  intros Hvalid.
  destruct (build_L1 _ _ _ _ _ _ Hvalid) as (h0 & Hb & Hwf & Hro & n & HL1).
  destruct (simulate_grows trace h0 Hwf Hro) as (h & Hrun & _ & _ & Hg & _).
  exists h0, h. split; [assumption|]. split; [assumption|].
  apply (grown_keeps_excess _ _ _ Hg).
  rewrite HL1. simpl. apply Forall_replicate.
  simpl. rewrite length_emplace_back_n, map_size_empty. simpl. lia.
Qed.

Lemma list_exceeds_map_by_assoc_witness :
  ∃ h0 h,
    build 64 2 32 1 64 1 = Some h0 ∧
    simulateCacheHierarchy retains h0 [wr 0x0; wr 0x40; rd 0x0; wr 0x80] = Some h ∧
    Forall (λ s, length (blocks s) = (size (blockMap s) + 2)%nat)
      (sets (L1 h)).
Proof.
  apply (list_exceeds_map_by_assoc 64 2 32 1 64 1
           [wr 0x0; wr 0x40; rd 0x0; wr 0x80]).
  unfold valid_config, valid_geometry, INT_MAX. lia.
Defined.

(** X12.  With released nodes that keep their contents, the write misses
    count the mapped tags.  In every run from a configuration with positive
    dimensions in which released list nodes read as before and are handed
    out again, the number of tags mapped in the first level, over all its
    sets, equals [numWriteMisses]: each write miss maps one more tag and
    nothing else changes a map. *)
Theorem write_misses_count_mapped_tags
    L1_SIZE L1_ASSOC L1_BLOCKSIZE VC_NUM_BLOCKS L2_SIZE L2_ASSOC trace :
  valid_config L1_SIZE L1_ASSOC L1_BLOCKSIZE VC_NUM_BLOCKS L2_SIZE L2_ASSOC →
  ∃ h0 h,
    build L1_SIZE L1_ASSOC L1_BLOCKSIZE VC_NUM_BLOCKS L2_SIZE L2_ASSOC
    = Some h0 ∧
    simulateCacheHierarchy retains h0 trace = Some h ∧
    Z.of_nat (mapped (L1 h)) = numWriteMisses (L1 h).
Proof.
  intros Hvalid.
  destruct (build_L1 _ _ _ _ _ _ Hvalid) as (h0 & Hb & Hwf & Hro & n & HL1).
  destruct (simulate_grows trace h0 Hwf Hro) as (h & Hrun & _ & _ & _ & Hm).
  exists h0, h. split; [assumption|]. split; [assumption|].
  rewrite HL1 in Hm. unfold mapped at 2 in Hm. simpl in Hm.
  rewrite mapped_replicate_new in Hm. lia.
Qed.

Lemma write_misses_count_mapped_tags_witness :
  ∃ h0 h,
    build 64 2 32 1 64 1 = Some h0 ∧
    simulateCacheHierarchy retains h0 [wr 0x0; wr 0x40; rd 0x0; wr 0x0] = Some h ∧
    Z.of_nat (mapped (L1 h)) = numWriteMisses (L1 h).
Proof.
  apply (write_misses_count_mapped_tags 64 2 32 1 64 1
           [wr 0x0; wr 0x40; rd 0x0; wr 0x0]).
  unfold valid_config, valid_geometry, INT_MAX. lia.
Defined.

(** * The resident tags follow the accesses *)

Lemma filter_all {A} (P : A → Prop) `{∀ x, Decision (P x)} (l : list A) :
  Forall P l → filter P l = l.
Proof.
  induction 1 as [|x l Hx _ IH]; [reflexivity|].
  rewrite filter_cons_True by assumption. rewrite IH. reflexivity.
Qed.

Lemma resident_no_tag (l : nodes) t :
  (∀ q c, (q, c) ∈ l → valid c = true → tag c ≠ t) →
  Forall (λ x, x ≠ t) (tag <$> filter (λ b, valid b = true) l.*2).
Proof.
  intros H. apply Forall_forall. intros x Hx.
  apply list_elem_of_fmap in Hx as (c & -> & Hc).
  apply list_elem_of_filter in Hc as [Hv Hc].
  apply list_elem_of_fmap in Hc as ([q c'] & E & Hin). simpl in E. subst c'.
  apply (H q c); assumption.
Qed.

Lemma resident_erase (l : nodes) p b t :
  NoDup l.*1 → deref l p = Some b → tag b = t →
  (∀ q c, (q, c) ∈ l → valid c = true → tag c = t → q = p) →
  tag <$> filter (λ b, valid b = true) (erase p l).*2
  = filter (λ x, x ≠ t) (tag <$> filter (λ b, valid b = true) l.*2).
Proof.
  induction l as [|[q c] l IH]; intros Hnd Hd Ht Hown; [discriminate|].
  rewrite fmap_cons in Hnd. apply NoDup_cons in Hnd as [Hq Hnd].
  cbn [erase deref] in Hd |- *. destruct (decide (p = q)) as [->|Hpq].
  - injection Hd as ->.
    assert (filter (λ x, x ≠ t) (tag <$> filter (λ b, valid b = true) l.*2)
            = tag <$> filter (λ b, valid b = true) l.*2) as Hrest.
    { apply filter_all. apply resident_no_tag. intros q' c' Hin Hv Htag.
      apply Hq. rewrite <- (Hown q' c'); [|right; assumption|assumption|assumption].
      apply list_elem_of_fmap. exists (q', c'). auto. }
    rewrite (fmap_cons snd). cbn [snd].
    rewrite filter_cons. destruct (decide (valid b = true)); [|auto].
    rewrite (fmap_cons tag), filter_cons_False; [auto|].
    intros Hne. apply Hne. exact Ht.
  - rewrite !(fmap_cons snd). cbn [snd]. rewrite !filter_cons.
    assert (tag <$> filter (λ b, valid b = true) (erase p l).*2
            = filter (λ x, x ≠ t) (tag <$> filter (λ b, valid b = true) l.*2))
      as IH'.
    { apply IH; try assumption. intros q' c' Hin. apply Hown. right. assumption. }
    destruct (decide (valid c = true)) as [Hv|Hv]; [|assumption].
    rewrite !(fmap_cons tag), filter_cons_True.
    + rewrite IH'. reflexivity.
    + intros Htag. apply Hpq. symmetry. apply (Hown q c); [left|assumption..].
Qed.

Lemma deref_storeDirty_valid p l q :
  valid <$> deref (storeDirty p l) q = valid <$> deref l q.
Proof.
  induction l as [|[r b] l IH]; simpl; [reflexivity|].
  destruct (decide (p = r)) as [->|Hpr]; simpl;
    destruct (decide (q = r)); simpl; auto.
Qed.

Lemma tidy_lookup s t p :
  tidy s → blockMap s !! t = Some p →
  ∃ b, deref (blocks s) p = Some b ∧ tag b = t ∧ valid b = true.
Proof.
  intros (Hwf & _ & Hmv) Hlk.
  destruct (wf_set_lookup s t p Hwf Hlk) as (b & Hd & Ht).
  exists b. split; [assumption|]. split; [assumption|].
  specialize (Hmv t p Hlk). simpl in Hmv. rewrite Hd in Hmv.
  simpl in Hmv. congruence.
Qed.

Lemma tidy_promote s t p b (d : bool) :
  tidy s → blockMap s !! t = Some p → deref (blocks s) p = Some b →
  let s' := mkSet ((p, mkBlock (tag b) (valid b) d) :: erase p (blocks s))
                  (blockMap s) in
  tidy s' ∧ residentTags s' = touch t (residentTags s).
Proof.
  intros Htidy Hlk Hd s'.
  destruct (tidy_lookup s t p Htidy Hlk) as (b0 & Hd0 & Ht & Hv).
  assert (b0 = b) as -> by congruence.
  destruct Htidy as (Hwf & (Hnd & Hres) & Hmv).
  assert (∀ q, tag <$> deref (blocks s') q = tag <$> deref (blocks s) q)
    as Htagq.
  { intros q. subst s'. simpl. destruct (decide (q = p)) as [->|Hqp].
    - rewrite Hd. reflexivity.
    - rewrite deref_erase_ne by assumption. reflexivity. }
  assert (∀ q, valid <$> deref (blocks s') q = valid <$> deref (blocks s) q)
    as Hvalq.
  { intros q. subst s'. simpl. destruct (decide (q = p)) as [->|Hqp].
    - rewrite Hd. reflexivity.
    - rewrite deref_erase_ne by assumption. reflexivity. }
  assert ((p, b) :: erase p (blocks s) ≡ₚ blocks s) as Hperm
    by (apply erase_perm; assumption).
  split; [split; [|split]|].
  - intros t' q Hq. change (tag <$> deref (blocks s') q = Some t').
    rewrite (Htagq q). apply (Hwf t' q Hq).
  - split.
    + subst s'. simpl. change (NoDup ((p, b) :: erase p (blocks s)).*1).
      rewrite Hperm. assumption.
    + intros q c [[= -> ->]|Hin]%elem_of_cons Hvc; simpl in *.
      * rewrite Ht. assumption.
      * apply Hres; [|assumption]. rewrite <- Hperm. right. assumption.
  - intros t' q Hq. change (valid <$> deref (blocks s') q = Some true).
    rewrite (Hvalq q). apply (Hmv t' q Hq).
  - unfold residentTags, CacheSet.resident, touch. subst s'. simpl.
    rewrite filter_cons_True by exact Hv. rewrite fmap_cons. simpl.
    rewrite Ht. f_equal.
    apply (resident_erase (blocks s) p b t); try assumption.
    intros q c Hin Hvc Htc.
    specialize (Hres q c Hin Hvc). rewrite Htc in Hres. congruence.
Qed.

Lemma tidy_insert s t :
  tidy s → blockMap s !! t = None →
  let s' := CacheSet.insertBlock s (mkBlock t true true) in
  tidy s' ∧ residentTags s' = touch t (residentTags s).
Proof.
  intros (Hwf & Hcons & Hmv) Hnone s'.
  split; [split; [|split]|].
  - apply wf_set_insertBlock. assumption.
  - apply consistent_insertBlock; assumption.
  - subst s'. unfold mapped_valid, CacheSet.insertBlock. simpl.
    apply map_Forall_insert_2.
    + simpl. rewrite decide_True by reflexivity. reflexivity.
    + intros t' q Hq. specialize (Hmv t' q Hq). simpl in *.
      destruct (deref (blocks s) q) as [c|] eqn:Hd; [|discriminate].
      apply deref_lt_fresh in Hd. rewrite decide_False by lia. assumption.
  - subst s'.
    unfold residentTags, CacheSet.resident, touch, CacheSet.insertBlock.
    cbn [blocks]. rewrite (fmap_cons snd). cbn [snd].
    rewrite filter_cons_True by reflexivity. rewrite (fmap_cons tag).
    cbn [tag]. f_equal. symmetry. apply filter_all. apply resident_no_tag.
    intros q c Hin Hvc Htc. destruct Hcons as [_ Hres].
    specialize (Hres q c Hin Hvc). rewrite Htc in Hres. congruence.
Qed.

Lemma tidy_new assoc : tidy (CacheSet.new assoc).
Proof.
  split; [|split].
  - apply map_Forall_empty.
  - apply consistent_new.
  - apply map_Forall_empty.
Qed.

(** What a read line and a write line do to the resident tags of the
    addressed set, with released nodes that keep their contents. *)
Lemma access_effect_on_resident_tags h a :
  wf_hier h → roomy (L1 h) → Forall tidy (sets (L1 h)) →
  ∃ s hr sr hw sw,
    sets (L1 h) !! indexOf (L1 h) a = Some s ∧
    processLine retains h (rd a) = Some hr ∧
    sets (L1 hr) !! indexOf (L1 h) a = Some sr ∧
    residentTags sr
    = match CacheSet.findBlock s (tagFor (L1 h) a) with
      | Some _ => touch (tagFor (L1 h) a) (residentTags s)
      | None => residentTags s
      end ∧
    processLine retains h (wr a) = Some hw ∧
    sets (L1 hw) !! indexOf (L1 h) a = Some sw ∧
    residentTags sw = touch (tagFor (L1 h) a) (residentTags s) ∧
    Forall tidy (sets (L1 hr)) ∧ Forall tidy (sets (L1 hw)).
Proof.
  intros Hwf Hroomy Htidy.
  destruct (wf_cache_set (L1 h) a (proj1 Hwf)) as (s & Hs & _).
  assert (tidy s) as Hts by (rewrite Forall_lookup in Htidy; eauto).
  assert (roomy_set s) as Hrs.
  { unfold roomy in Hroomy. rewrite Forall_lookup in Hroomy. eauto. }
  assert (indexOf (L1 h) a < length (sets (L1 h)))%nat as Hlt.
  { apply lookup_lt_is_Some. eauto. }
  exists s.
  destruct (CacheSet.findBlock s (tagFor (L1 h) a)) as [p|] eqn:Hf.
  - destruct (read_hit_exact h a s p Hwf Hs Hf) as (b & l1 & Hd & Hpr & Hsr).
    destruct (write_hit_exact h a s p Hwf Hs Hf) as (b' & l1' & Hd' & Hpw & Hsw).
    assert (b' = b) as -> by congruence.
    destruct (tidy_promote s _ p b (dirty b) Hts Hf Hd) as [Ht1 Hres1].
    destruct (tidy_promote s _ p b true Hts Hf Hd) as [Ht2 Hres2].
    assert (mkBlock (tag b) (valid b) (dirty b) = b) as Heta
      by (destruct b; reflexivity).
    rewrite Heta in Ht1, Hres1.
    eexists _, _, _, _. split; [exact Hs|].
    split; [exact Hpr|]. simpl. rewrite Hsr.
    split; [apply list_lookup_insert_eq; assumption|].
    split; [exact Hres1|].
    split; [exact Hpw|]. simpl. rewrite Hsw.
    split; [apply list_lookup_insert_eq; assumption|].
    split; [exact Hres2|].
    split; apply Forall_insert; assumption.
  - destruct (read_event_spec h a Hwf)
      as (s0 & hr & Hs0 & Hpr & _ & _ & _ & Hmiss & _).
    assert (s0 = s) as -> by congruence.
    specialize (Hmiss Hf).
    assert (nonempty (L1 h)) as Hne.
    { unfold nonempty, roomy in *. eapply Forall_impl; [exact Hroomy|].
      intros s1 Hs1 E. unfold roomy_set in Hs1. rewrite E in Hs1.
      simpl in Hs1. lia. }
    destruct (write_event_general h a Hwf Hne)
      as (s1 & sw & hw & Hs1 & Hpw & Hsets & _ & _ & _ & _ & _ & _ & _ & _
          & _ & Hmatch).
    assert (s1 = s) as -> by congruence.
    rewrite Hf in Hmatch. destruct Hmatch as (_ & _ & Hins).
    destruct (Hins (roomy_set_not_full s Hrs)) as [_ ->].
    destruct (tidy_insert s _ Hts Hf) as [Ht Hres].
    exists hr, s, hw. eexists. split; [exact Hs|].
    split; [exact Hpr|]. rewrite Hmiss.
    split; [exact Hs|]. split; [reflexivity|].
    split; [exact Hpw|]. rewrite Hsets.
    split; [apply list_lookup_insert_eq; assumption|].
    split; [exact Hres|].
    split; [assumption|]. apply Forall_insert; assumption.
Qed.

Lemma processLine_tidy h e h' :
  wf_hier h → roomy (L1 h) → Forall tidy (sets (L1 h)) →
  processLine retains h e = Some h' → Forall tidy (sets (L1 h')).
Proof.
  intros Hwf Hroomy Htidy Hp. destruct e as [o a].
  destruct (access_effect_on_resident_tags h a Hwf Hroomy Htidy)
    as (s & hr & sr & hw & sw & _ & Hpr & _ & _ & Hpw & _ & _ & Htr & Htw).
  destruct (decide (o = "r"%char)) as [->|Hr].
  - change (mkEvent "r" a) with (rd a) in Hp. congruence.
  - destruct (decide (o = "w"%char)) as [->|Hw].
    + change (mkEvent "w" a) with (wr a) in Hp. congruence.
    + unfold processLine in Hp. simpl in Hp.
      rewrite !decide_False in Hp by assumption. congruence.
Qed.

Lemma simulate_tidy trace : ∀ h0,
  wf_hier h0 → roomy (L1 h0) → Forall tidy (sets (L1 h0)) →
  ∃ h, simulateCacheHierarchy retains h0 trace = Some h ∧
       wf_hier h ∧ roomy (L1 h) ∧ Forall tidy (sets (L1 h)).
Proof.
  induction trace as [|e trace IH]; intros h0 Hwf Hro Ht0.
  - exists h0. auto.
  - destruct (processLine_grows h0 e Hwf Hro) as (h1 & Hp & Hwf1 & Hr1 & _).
    pose proof (processLine_tidy h0 e h1 Hwf Hro Ht0 Hp) as Ht1.
    destruct (IH h1 Hwf1 Hr1 Ht1) as (h & Hrun & Hrest).
    exists h. simpl. rewrite Hp. simpl. auto.
Qed.

(** In every run from a configuration with positive dimensions whose
    released nodes keep their contents, the sets of the first level are
    tidy. *)
Lemma run_keeps_sets_tidy
    L1_SIZE L1_ASSOC L1_BLOCKSIZE VC_NUM_BLOCKS L2_SIZE L2_ASSOC trace :
  valid_config L1_SIZE L1_ASSOC L1_BLOCKSIZE VC_NUM_BLOCKS L2_SIZE L2_ASSOC →
  ∃ h0 h,
    build L1_SIZE L1_ASSOC L1_BLOCKSIZE VC_NUM_BLOCKS L2_SIZE L2_ASSOC
    = Some h0 ∧
    simulateCacheHierarchy retains h0 trace = Some h ∧
    wf_hier h ∧ roomy (L1 h) ∧ Forall tidy (sets (L1 h)).
Proof.
  intros Hvalid.
  destruct (build_L1 _ _ _ _ _ _ Hvalid) as (h0 & Hb & Hwf & Hro & n & HL1).
  assert (Forall tidy (sets (L1 h0))) as Ht0.
  { rewrite HL1. simpl. apply Forall_replicate. apply tidy_new. }
  destruct (simulate_tidy trace h0 Hwf Hro Ht0) as (h & Hrun & Hrest).
  exists h0, h. auto.
Qed.

(** X13.  With released nodes that keep their contents, the resident tags
    of a set follow the accesses.  In a hierarchy whose first level has no
    full set and whose sets are tidy (as they are throughout every such run
    from a configuration with positive dimensions), when released list nodes
    read as before and are handed out again, a write line moves the tag of
    its address to the front of the resident tags of the addressed set, the
    others keeping their order; a read line does the same when it hits and
    changes nothing when it misses.  The sets stay tidy. *)
Theorem resident_tags_follow_accesses h a :
  wf_hier h → roomy (L1 h) → Forall tidy (sets (L1 h)) →
  ∃ s hr sr hw sw,
    sets (L1 h) !! indexOf (L1 h) a = Some s ∧
    processLine retains h (rd a) = Some hr ∧
    sets (L1 hr) !! indexOf (L1 h) a = Some sr ∧
    residentTags sr
    = match CacheSet.findBlock s (tagFor (L1 h) a) with
      | Some _ => touch (tagFor (L1 h) a) (residentTags s)
      | None => residentTags s
      end ∧
    processLine retains h (wr a) = Some hw ∧
    sets (L1 hw) !! indexOf (L1 h) a = Some sw ∧
    residentTags sw = touch (tagFor (L1 h) a) (residentTags s) ∧
    Forall tidy (sets (L1 hr)) ∧ Forall tidy (sets (L1 hw)).
Proof. apply access_effect_on_resident_tags. Qed.

Lemma tidy_warmSet : tidy warmSet.
Proof.
  split; [|split; [split|]].
  - apply (bool_decide_unpack _). vm_compute. reflexivity.
  - apply (bool_decide_unpack _). vm_compute. reflexivity.
  - intros p b Hin Hv.
    repeat (apply elem_of_cons in Hin as [[= -> ->]|Hin]);
      try reflexivity; try discriminate.
    inversion Hin.
  - apply (bool_decide_unpack _). vm_compute. reflexivity.
Qed.

Lemma resident_tags_follow_accesses_witness :
  ∃ hr sr hw sw,
    processLine retains hWarm (rd 0x0) = Some hr ∧
    sets (L1 hr) !! 0%nat = Some sr ∧ residentTags sr = [0; 2] ∧
    processLine retains hWarm (wr 0x80) = Some hw ∧
    sets (L1 hw) !! 0%nat = Some sw ∧ residentTags sw = [4; 2; 0].
Proof.
  destruct (resident_tags_follow_accesses hWarm 0x0)
    as (s & hr & sr & _ & _ & Hs & Hpr & Hsr & Hres & _).
  - apply (bool_decide_unpack _). vm_compute. reflexivity.
  - apply (bool_decide_unpack _). vm_compute. reflexivity.
  - simpl. constructor; [apply tidy_warmSet|constructor].
  - destruct (resident_tags_follow_accesses hWarm 0x80)
      as (s' & _ & _ & hw & sw & Hs' & _ & _ & _ & Hpw & Hsw & Hresw & _).
    + apply (bool_decide_unpack _). vm_compute. reflexivity.
    + apply (bool_decide_unpack _). vm_compute. reflexivity.
    + simpl. constructor; [apply tidy_warmSet|constructor].
    + exists hr, sr, hw, sw.
      vm_compute in Hs. injection Hs as <-.
      vm_compute in Hs'. injection Hs' as <-.
      split; [exact Hpr|]. split; [exact Hsr|]. split; [exact Hres|].
      split; [exact Hpw|]. split; [exact Hsw|]. exact Hresw.
Defined.

(** * The counters of a run against the unbounded reference *)

Lemma place_of_block c a :
  wf_cache c →
  indexOf c a = Z.to_nat ((a / blockSize c) mod numSets c) ∧
  tagFor c a = (a / blockSize c) / numSets c.
Proof.
  intros (Hb & Hn & _). unfold indexOf, tagFor.
  rewrite Z.div_div by lia. split; reflexivity.
Qed.

Lemma block_of_place n q q' :
  0 < n → Z.to_nat (q' mod n) = Z.to_nat (q mod n) → q' / n = q / n → q' = q.
Proof.
  intros Hn Hi Ht.
  pose proof (Z.mod_pos_bound q n Hn). pose proof (Z.mod_pos_bound q' n Hn).
  rewrite (Z.div_mod q n), (Z.div_mod q' n) by lia.
  rewrite Ht. f_equal. lia.
Qed.

Lemma holds_reordered c c' W :
  same_but_order c c' → holds c W → holds c' W.
Proof.
  intros (_ & _ & _ & Hn & H2) Hh q. rewrite (Hh q), Hn. split.
  - intros (s & Hs & Hm).
    destruct (Forall2_lookup_l _ _ _ _ _ H2 Hs) as (s' & Hs' & Hmap & _).
    exists s'. rewrite Hmap. auto.
  - intros (s' & Hs' & Hm).
    destruct (Forall2_lookup_r _ _ _ _ _ H2 Hs') as (s & Hs & Hmap & _).
    exists s. rewrite <- Hmap. auto.
Qed.

Lemma holds_lookup c W a s :
  wf_cache c → holds c W → sets c !! indexOf c a = Some s →
  (a / blockSize c ∈ W ↔ is_Some (CacheSet.findBlock s (tagFor c a))).
Proof.
  intros Hwf Hh Hs. destruct (place_of_block c a Hwf) as [Hi Ht].
  rewrite (Hh (a / blockSize c)), <- Hi, <- Ht. split.
  - intros (s0 & Hs0 & Hm). assert (s0 = s) as -> by congruence. exact Hm.
  - intros Hm. exists s. auto.
Qed.

(** Replacing the addressed set by one whose map is the old one, or the old
    one with the tag of the address added. *)
Lemma holds_update c c' W a s s' :
  wf_cache c → holds c W →
  numSets c' = numSets c →
  sets c !! indexOf c a = Some s →
  sets c' = <[indexOf c a := s']> (sets c) →
  (∀ t, is_Some (blockMap s' !! t)
        ↔ t = tagFor c a ∨ is_Some (blockMap s !! t)) →
  holds c' ({[ a / blockSize c ]} ∪ W).
Proof.
  intros Hwf Hh Hn Hs Hsets Hmap q.
  destruct (place_of_block c a Hwf) as [Hi Ht].
  pose proof Hwf as (_ & Hpos & _).
  assert (indexOf c a < length (sets c))%nat as Hlt.
  { apply lookup_lt_is_Some. eauto. }
  rewrite elem_of_union, elem_of_singleton, (Hh q), Hn, Hsets.
  destruct (decide (Z.to_nat (q mod numSets c) = indexOf c a)) as [Hidx|Hidx].
  - rewrite Hidx, list_lookup_insert_eq by assumption. split.
    + intros [->|(s0 & Hs0 & Hm)].
      * exists s'. split; [reflexivity|]. apply Hmap. left. symmetry. exact Ht.
      * exists s'. split; [reflexivity|]. apply Hmap. right.
        assert (s0 = s) as -> by congruence. exact Hm.
    + intros (s0 & [= <-] & Hm). apply Hmap in Hm as [Htag|Hm].
      * left. apply (block_of_place (numSets c)); [assumption| |].
        -- rewrite Hidx. exact Hi.
        -- rewrite Htag. exact Ht.
      * right. exists s. auto.
  - rewrite list_lookup_insert_ne by congruence. split.
    + intros [->|H]; [|assumption]. exfalso. apply Hidx. symmetry. exact Hi.
    + intros H. right. assumption.
Qed.

(** One line against the reference. *)
Lemma processLine_ideal h e W :
  wf_hier h → roomy (L1 h) → holds (L1 h) W →
  ∃ h', processLine retains h e = Some h' ∧ wf_hier h' ∧ roomy (L1 h') ∧
    geometry (L1 h') = geometry (L1 h) ∧
    numWriteBacks (L1 h') = numWriteBacks (L1 h) ∧
    holds (L1 h') (idealLine (blockSize (L1 h)) (W, accessCounters (L1 h)) e).1 ∧
    accessCounters (L1 h')
    = (idealLine (blockSize (L1 h)) (W, accessCounters (L1 h)) e).2.
Proof.
  intros Hwf Hroomy Hh.
  destruct (processLine_grows h e Hwf Hroomy) as (h' & Hp & Hwf' & Hro' & _).
  exists h'. split; [assumption|]. split; [assumption|]. split; [assumption|].
  destruct e as [o a]. unfold idealLine, accessCounters. simpl.
  destruct (decide (o = "r"%char)) as [->|Hr].
  - destruct (read_event_spec h a Hwf)
      as (s & h1 & Hs & Hp1 & _ & Hsame & _ & _ & Hrd & Hrm & Hw & Hwm & Hwb & _).
    change (mkEvent "r" a) with (rd a) in Hp.
    assert (h1 = h') as -> by congruence.
    split; [destruct Hsame as (? & ? & ? & ? & _); unfold geometry; congruence|].
    split; [assumption|].
    split; [apply (holds_reordered (L1 h)); assumption|].
    pose proof (holds_lookup (L1 h) W a s (proj1 Hwf) Hh Hs) as Hin.
    rewrite Hrd, Hrm, Hw, Hwm.
    destruct (decide (a / blockSize (L1 h) ∈ W)) as [HW|HW];
      destruct (CacheSet.findBlock s (tagFor (L1 h) a)) as [p|] eqn:Hf.
    + simpl. rewrite Z.add_0_r. reflexivity.
    + apply Hin in HW. destruct HW as [? [=]].
    + exfalso. apply HW, Hin. eauto.
    + reflexivity.
  - destruct (decide (o = "w"%char)) as [->|Hw].
    + assert (nonempty (L1 h)) as Hne.
      { unfold nonempty, roomy in *. eapply Forall_impl; [exact Hroomy|].
        intros s1 Hs1 E. unfold roomy_set in Hs1. rewrite E in Hs1.
        simpl in Hs1. lia. }
      destruct (write_event_general h a Hwf Hne)
        as (s & s' & h1 & Hs & Hp1 & Hsets & _ & _ & _ & _ & Hgeo & Hfront
            & Hrd & Hrm & Hwr & Hmatch).
      change (mkEvent "w" a) with (wr a) in Hp.
      assert (h1 = h') as -> by congruence.
      assert (roomy_set s) as Hrs.
      { unfold roomy in Hroomy. rewrite Forall_lookup in Hroomy. eauto. }
      pose proof (holds_lookup (L1 h) W a s (proj1 Hwf) Hh Hs) as Hin.
      split; [assumption|].
      assert (numWriteBacks (L1 h') = numWriteBacks (L1 h) ∧
              ∀ t, is_Some (blockMap s' !! t)
                   ↔ t = tagFor (L1 h) a ∨ is_Some (blockMap s !! t))
        as [Hwb Hmap].
      { destruct (CacheSet.findBlock s (tagFor (L1 h) a)) as [p|] eqn:Hf.
        - destruct Hmatch as (_ & Hwb & Hm & _). split; [assumption|].
          intros t. rewrite Hm. split; [auto|].
          intros [->|H]; [|assumption]. eauto.
        - destruct Hmatch as (_ & _ & Hins).
          destruct (Hins (roomy_set_not_full s Hrs)) as [Hwb ->].
          split; [assumption|]. intros t.
          unfold CacheSet.insertBlock. simpl.
          rewrite lookup_insert_is_Some. split.
          + intros [H|[_ H]]; [left; symmetry; assumption|right; assumption].
          + intros [->|H]; [left; reflexivity|].
            destruct (decide (tagFor (L1 h) a = t)); [left|right]; auto. }
      split; [assumption|].
      split.
      { apply (holds_update (L1 h) (L1 h') W a s s'); try assumption.
        - apply Hwf.
        - injection Hgeo as _ _ _ Hn. exact Hn. }
      rewrite Hrd, Hrm, Hwr.
      destruct (decide (a / blockSize (L1 h) ∈ W)) as [HW|HW];
        destruct (CacheSet.findBlock s (tagFor (L1 h) a)) as [p|] eqn:Hf.
      * destruct Hmatch as (-> & _). reflexivity.
      * apply Hin in HW. destruct HW as [? [=]].
      * exfalso. apply HW, Hin. eauto.
      * destruct Hmatch as (-> & _). reflexivity.
    + unfold processLine in Hp. simpl in Hp.
      rewrite !decide_False in Hp by assumption.
      injection Hp as <-. auto.
Qed.

Lemma simulate_ideal trace : ∀ h W,
  wf_hier h → roomy (L1 h) → holds (L1 h) W →
  ∃ h', simulateCacheHierarchy retains h trace = Some h' ∧
    numWriteBacks (L1 h') = numWriteBacks (L1 h) ∧
    holds (L1 h')
      (idealRun (blockSize (L1 h)) (W, accessCounters (L1 h)) trace).1 ∧
    accessCounters (L1 h')
    = (idealRun (blockSize (L1 h)) (W, accessCounters (L1 h)) trace).2.
Proof.
  induction trace as [|e trace IH]; intros h W Hwf Hroomy Hh.
  - exists h. simpl. auto.
  - destruct (processLine_ideal h e W Hwf Hroomy Hh)
      as (h1 & Hp & Hwf1 & Hr1 & Hgeo & Hwb1 & Hh1 & Hc1).
    destruct (IH h1 _ Hwf1 Hr1 Hh1) as (h' & Hrun & Hwb' & Hh' & Hc').
    assert (blockSize (L1 h1) = blockSize (L1 h)) as Hbs
      by (injection Hgeo as _ _ Hbs _; exact Hbs).
    rewrite Hbs, Hc1, <- surjective_pairing in Hh', Hc'.
    exists h'. simpl. rewrite Hp. simpl.
    split; [assumption|]. split; [congruence|]. split; assumption.
Qed.

(** X14.  With released nodes that keep their contents, the counters of a
    run are those of an unbounded cache that allocates on writes only.  For
    every configuration with positive dimensions and every trace, in the run
    in which released list nodes read as before and are handed out again,
    the reads, read misses, writes and write misses of the first level are
    what the reference of [idealRun] counts: a read misses exactly when no
    earlier line of the trace wrote its block, a write misses exactly when it
    is the first write of its block, whatever the size and the
    associativity; no write-back is ever counted; and the blocks mapped at
    the end are exactly the blocks written.  The counters do depend on what
    released nodes read as: for [cache_sim 32 1 32 0 0 0] on [w 0], [r 0],
    [w 20], [r 0] the reference counts (2, 0, 2, 2), and the run in which
    released nodes read as [junk] ends with (2, 1, 2, 2) and one
    write-back. *)
Theorem counters_match_unbounded_cache
    L1_SIZE L1_ASSOC L1_BLOCKSIZE VC_NUM_BLOCKS L2_SIZE L2_ASSOC trace :
  valid_config L1_SIZE L1_ASSOC L1_BLOCKSIZE VC_NUM_BLOCKS L2_SIZE L2_ASSOC →
  (∃ h0 h,
     build L1_SIZE L1_ASSOC L1_BLOCKSIZE VC_NUM_BLOCKS L2_SIZE L2_ASSOC
     = Some h0 ∧
     simulateCacheHierarchy retains h0 trace = Some h ∧
     accessCounters (L1 h)
     = (idealRun L1_BLOCKSIZE (∅, (0, 0, 0, 0)) trace).2 ∧
     numWriteBacks (L1 h) = 0 ∧
     holds (L1 h) (idealRun L1_BLOCKSIZE (∅, (0, 0, 0, 0)) trace).1) ∧
  (idealRun 32 (∅, (0, 0, 0, 0)) [wr 0x0; rd 0x0; wr 0x20; rd 0x0]).2
  = (2, 0, 2, 2) ∧
  (λ h, counters (L1 h))
    <$> (h0 ← build 32 1 32 0 0 0;
         simulateCacheHierarchy (scrambles junk) h0
           [wr 0x0; rd 0x0; wr 0x20; rd 0x0])
  = Some (2, 1, 2, 2, 1).
Proof.
  intros Hvalid. split; [|vm_compute; split; reflexivity].
  destruct (build_L1 _ _ _ _ _ _ Hvalid) as (h0 & Hb & Hwf & Hro & n & HL1).
  assert (holds (L1 h0) ∅) as Hh0.
  { intros q. rewrite HL1. simpl. split; [intros []%elem_of_empty|].
    intros (s & Hs & Hm). apply lookup_replicate in Hs as [-> _].
    simpl in Hm. rewrite lookup_empty in Hm. destruct Hm as [? [=]]. }
  destruct (simulate_ideal trace h0 ∅ Hwf Hro Hh0) as (h & Hrun & Hwb & Hh & Hc).
  rewrite HL1 in Hwb, Hh, Hc. simpl in Hwb, Hh, Hc.
  exists h0, h. auto.
Qed.

Lemma counters_match_unbounded_cache_witness :
  ∃ h0 h,
    build 1024 1 32 0 0 0 = Some h0 ∧
    simulateCacheHierarchy retains h0 scenarioTrace = Some h ∧
    accessCounters (L1 h) = (3, 3, 1, 1).
Proof.
  destruct (counters_match_unbounded_cache 1024 1 32 0 0 0 scenarioTrace)
    as ((h0 & h & Hb & Hrun & Hc & _) & _).
  - unfold valid_config, valid_geometry, INT_MAX. lia.
  - exists h0, h. split; [assumption|]. split; [assumption|].
    rewrite Hc. vm_compute. reflexivity.
Defined.

(** * The members of the victim buffer the loop never calls *)

Lemma roomy_set_insertBlock_any s b :
  roomy_set s → roomy_set (CacheSet.insertBlock s b).
Proof.
  unfold roomy_set, CacheSet.insertBlock. simpl. intros Hr.
  destruct (blockMap s !! tag b) as [p|] eqn:E.
  - rewrite map_size_insert_Some by eauto. lia.
  - rewrite map_size_insert_None by assumption. lia.
Qed.

Lemma victim_inserts_roomy numBlocks (inserted : list CacheBlock) :
  0 < numBlocks →
  roomy_set (vcSet (foldl VictimCache.insertBlock
                      (VictimCache.new numBlocks) inserted)) ∧
  length (blocks (vcSet (foldl VictimCache.insertBlock
                           (VictimCache.new numBlocks) inserted)))
  = (length inserted + Z.to_nat numBlocks)%nat.
Proof.
  intros Hpos. induction inserted as [|b inserted [Hr Hlen]] using rev_ind.
  - unfold roomy_set. simpl.
    rewrite map_size_empty, length_emplace_back_n. simpl. lia.
  - rewrite foldl_app. simpl. split.
    + apply roomy_set_insertBlock_any. assumption.
    + rewrite Hlen, length_app. simpl. lia.
Qed.

(** X16.  The victim buffer is never full.  A victim buffer built with at
    least one block answers false to [isFull()] after any sequence of
    [insertBlock] calls, its list holding one node per call on top of the
    [numBlocks] placeholders; and the block inserted last is found under its
    tag. *)
Theorem victim_buffer_never_full numBlocks (inserted : list CacheBlock) :
  0 < numBlocks →
  let v := foldl VictimCache.insertBlock (VictimCache.new numBlocks) inserted in
  VictimCache.isFull v = false ∧
  length (blocks (vcSet v)) = (length inserted + Z.to_nat numBlocks)%nat ∧
  (∀ b, last inserted = Some b →
        ∃ p, VictimCache.findBlock v (tag b) = Some p ∧
             deref (blocks (vcSet v)) p = Some b).
Proof.
  intros Hpos v.
  destruct (victim_inserts_roomy numBlocks inserted Hpos) as [Hr Hlen].
  split; [apply roomy_set_not_full; exact Hr|]. split; [exact Hlen|].
  intros b Hlast. subst v.
  destruct (snoc_inv inserted) as [->|(front & c & ->)]; [discriminate|].
  rewrite last_snoc in Hlast. injection Hlast as ->.
  rewrite foldl_app. simpl.
  exists (freshNode (blocks (vcSet (foldl VictimCache.insertBlock
                                      (VictimCache.new numBlocks) front)))).
  unfold VictimCache.findBlock, CacheSet.findBlock. simpl.
  rewrite lookup_insert_eq, decide_True by reflexivity. auto.
Qed.

Lemma victim_buffer_never_full_witness :
  VictimCache.isFull
    (foldl VictimCache.insertBlock (VictimCache.new 1)
       [mkBlock 0x40 true false; mkBlock 0x80 true true]) = false.
Proof.
  apply (victim_buffer_never_full 1
           [mkBlock 0x40 true false; mkBlock 0x80 true true]).
  lia.
Defined.
